(** * gvariant.js: a shallow embedding of the GVariant codec

    The development follows [gvariant.js]: the type descriptors built by
    [nextType], the offset codec ([offsetInfo], [writeOffsets]), the readers
    and writers of each type and the two public operations [parse] and
    [serialize].

    JavaScript numbers that the codec handles are integers below 2^53 (byte
    positions, lengths, decoded integers) and are carried as [Z]; the only
    place where the rounding of doubles is visible, [Long.toNumber] on 64-bit
    values, is written out ([to_double]).  A Node [Buffer] is a [list byte],
    with the bounds checks, the clamping of [slice] and [toString] and the
    text decoders of Node.js; a JavaScript string is the list of its UTF-16
    code units. *)

From Stdlib Require Import Ascii String DecimalString ZArith List Lia Bool.
From Stdlib.Strings Require Import Byte.
Import ListNotations.
Open Scope Z_scope.
Set Warnings "-register-all".

(** ** Outcomes of an evaluation *)

(** The exceptions the code can raise.  [TypeError_invalid] is the
    [TypeError('invalid type string: ' + str)] of [parseType];
    [TypeError_undefined] is the engine's TypeError on a property read of
    [undefined] (as in [maybeElement.id] when [nextType] returned nothing);
    [RangeError_offset] is the bare [RangeError()] of [offsetInfo] and
    [writeOffsets]; [RangeError_index] is the RangeError a Node [Buffer]
    raises on a read outside the buffer. *)
Inductive error : Type :=
| TypeError_invalid (s : list Z)
| TypeError_undefined
| RangeError_offset
| RangeError_index.

(** [Unmodelled] marks JavaScript behaviour left outside the embedding (a
    coercion of an ill-shaped value, for instance); [OutOfFuel] is the
    embedding's own artefact and is shown below never to be returned. *)
Inductive result (A : Type) : Type :=
| Ok (a : A)
| Throw (e : error)
| Unmodelled
| OutOfFuel.

Arguments Ok {A} a.
Arguments Throw {A} e.
Arguments Unmodelled {A}.
Arguments OutOfFuel {A}.

Definition bind {A B : Type} (m : result A) (f : A -> result B) : result B :=
  match m with
  | Ok a => f a
  | Throw e => Throw e
  | Unmodelled => Unmodelled
  | OutOfFuel => OutOfFuel
  end.

Notation "x <- m ;; k" := (bind m (fun x => k))
  (at level 61, m at next level, right associativity).

(** ** Strings *)

(** A JavaScript string is its sequence of UTF-16 code units. *)
Definition jsstring : Type := list Z.

Definition unit_of_ascii (a : ascii) : Z := Z.of_N (N_of_ascii a).

(** [str "a(iy)"] is the JavaScript string with these (Latin-1) characters. *)
Definition str (s : string) : jsstring := map unit_of_ascii (list_ascii_of_string s).

Definition jslength (s : jsstring) : Z := Z.of_nat (length s).

(** [s[i]]: the unit at [i], [None] for JavaScript's [undefined]. *)
Definition charAt (s : jsstring) (i : Z) : option Z :=
  if i <? 0 then None else nth_error s (Z.to_nat i).

(** [s.substr(from, len)] and [s.slice(from, to)] for [0 <= from]. *)
Definition substr (s : jsstring) (from len : Z) : jsstring :=
  firstn (Z.to_nat len) (skipn (Z.to_nat from) s).

Definition strslice (s : jsstring) (from to : Z) : jsstring :=
  firstn (Z.to_nat (to - from)) (skipn (Z.to_nat from) s).

Fixpoint jsstring_eqb (a b : jsstring) : bool :=
  match a, b with
  | [], [] => true
  | x :: a', y :: b' => (x =? y) && jsstring_eqb a' b'
  | _, _ => false
  end.

(** ** Buffers *)

Definition buffer : Type := list byte.

Definition blength (buf : buffer) : Z := Z.of_nat (length buf).

Definition byte_val (b : byte) : Z := Z.of_N (Byte.to_N b).

Definition byte_of (z : Z) : byte :=
  match Byte.of_N (Z.to_N (z mod 256)) with
  | Some b => b
  | None => x00
  end.

Definition byte_at (buf : buffer) (i : Z) : Z :=
  byte_val (nth (Z.to_nat i) buf x00).

(** [in_bounds buf offset n]: the [n] bytes at [offset] lie inside [buf];
    the [read*] methods of a Node Buffer raise a RangeError otherwise. *)
Definition in_bounds (buf : buffer) (offset n : Z) : bool :=
  (0 <=? offset) && (offset + n <=? blength buf).

Definition readUInt8 (buf : buffer) (offset : Z) : result Z :=
  if in_bounds buf offset 1 then Ok (byte_at buf offset)
  else Throw RangeError_index.

Definition readUInt16LE (buf : buffer) (offset : Z) : result Z :=
  if in_bounds buf offset 2
  then Ok (byte_at buf offset + byte_at buf (offset + 1) * 2 ^ 8)
  else Throw RangeError_index.

Definition readUInt32LE (buf : buffer) (offset : Z) : result Z :=
  if in_bounds buf offset 4
  then Ok (byte_at buf offset + byte_at buf (offset + 1) * 2 ^ 8
           + byte_at buf (offset + 2) * 2 ^ 16 + byte_at buf (offset + 3) * 2 ^ 24)
  else Throw RangeError_index.

(** Two's complement reading of a [w]-bit pattern. *)
Definition to_signed (w : Z) (u : Z) : Z :=
  if u <? 2 ^ (w - 1) then u else u - 2 ^ w.

Definition readInt16LE (buf : buffer) (offset : Z) : result Z :=
  u <- readUInt16LE buf offset ;; Ok (to_signed 16 u).

Definition readInt32LE (buf : buffer) (offset : Z) : result Z :=
  u <- readUInt32LE buf offset ;; Ok (to_signed 32 u).

(** [buf.readDoubleLE]: a double is carried by its 64-bit pattern. *)
Definition readDoubleLE (buf : buffer) (offset : Z) : result Z :=
  if in_bounds buf offset 8
  then lo <- readUInt32LE buf offset ;;
       hi <- readUInt32LE buf (offset + 4) ;;
       Ok (lo + hi * 2 ^ 32)
  else Throw RangeError_index.

(** [buf.slice(start, end)] of a Node Buffer: a negative index counts from
    the end of the buffer, both indices are clamped to the buffer and an
    empty buffer results when [end <= start]. *)
Definition adjustOffset (offset len : Z) : Z :=
  if offset <? 0 then Z.max (offset + len) 0
  else if offset <? len then offset
  else len.

Definition slice (buf : buffer) (start end_ : Z) : buffer :=
  let s := adjustOffset start (blength buf) in
  let e := adjustOffset end_ (blength buf) in
  firstn (Z.to_nat (e - s)) (skipn (Z.to_nat s) buf).

(** The bytes [buf.toString(encoding, start, end)] decodes: [start] is
    raised to 0, [end] lowered to the length, nothing when [end <= start]. *)
Definition window (buf : buffer) (start end_ : Z) : buffer :=
  let s := Z.max start 0 in
  let e := Z.min end_ (blength buf) in
  firstn (Z.to_nat (e - s)) (skipn (Z.to_nat s) buf).

(** ** [align] *)

(** JavaScript's [%] takes the sign of the dividend: [Z.rem]. *)
Definition align (n size : Z) : Z :=
  n + Z.rem (size - Z.rem n size) size.

(** ** Text encodings of a Node Buffer *)

(** [buf.toString('ascii', ..)]: each byte with its high bit cleared. *)
Definition ascii_decode (bs : list byte) : jsstring :=
  map (fun b => Z.land (byte_val b) 0x7F) bs.

(** [buf.toString('utf-8', ..)]: the decoder of the Encoding Standard.  A
    byte sequence that is not UTF-8 yields U+FFFD; a code point above
    U+FFFF yields a surrogate pair. *)
Record utf8_state : Type :=
  { cp : Z; needed : nat; lower : Z; upper : Z }.

Definition utf8_init : utf8_state :=
  {| cp := 0; needed := 0; lower := 0x80; upper := 0xBF |}.

Definition units_of_code_point (c : Z) : jsstring :=
  if c <? 0x10000 then [c]
  else [0xD800 + Z.shiftr (c - 0x10000) 10; 0xDC00 + Z.land (c - 0x10000) 0x3FF].

Definition utf8_lead (b : Z) : jsstring * utf8_state :=
  if b <=? 0x7F then ([b], utf8_init)
  else if (0xC2 <=? b) && (b <=? 0xDF)
  then ([], {| cp := Z.land b 0x1F; needed := 1; lower := 0x80; upper := 0xBF |})
  else if (0xE0 <=? b) && (b <=? 0xEF)
  then ([], {| cp := Z.land b 0xF; needed := 2;
               lower := if b =? 0xE0 then 0xA0 else 0x80;
               upper := if b =? 0xED then 0x9F else 0xBF |})
  else if (0xF0 <=? b) && (b <=? 0xF4)
  then ([], {| cp := Z.land b 0x7; needed := 3;
               lower := if b =? 0xF0 then 0x90 else 0x80;
               upper := if b =? 0xF4 then 0x8F else 0xBF |})
  else ([0xFFFD], utf8_init).

Definition utf8_step (st : utf8_state) (b : Z) : jsstring * utf8_state :=
  match needed st with
  | O => utf8_lead b
  | S n =>
      if (lower st <=? b) && (b <=? upper st)
      then let c := Z.lor (Z.shiftl (cp st) 6) (Z.land b 0x3F) in
           match n with
           | O => (units_of_code_point c, utf8_init)
           | S _ => ([], {| cp := c; needed := n; lower := 0x80; upper := 0xBF |})
           end
      else let '(out, st') := utf8_lead b in (0xFFFD :: out, st')
  end.

Definition utf8_flush (st : utf8_state) : jsstring :=
  match needed st with O => [] | S _ => [0xFFFD] end.

Fixpoint utf8_run (st : utf8_state) (bs : list byte) : jsstring :=
  match bs with
  | [] => utf8_flush st
  | b :: rest =>
      let '(out, st') := utf8_step st (byte_val b) in
      out ++ utf8_run st' rest
  end.

Definition utf8_decode (bs : list byte) : jsstring := utf8_run utf8_init bs.

(** The UTF-8 bytes of a JavaScript string; an unpaired surrogate is
    written as U+FFFD. *)
Definition utf8_bytes_of_code_point (c : Z) : list byte :=
  if c <? 0x80 then [byte_of c]
  else if c <? 0x800
  then [byte_of (0xC0 + Z.shiftr c 6); byte_of (0x80 + Z.land c 0x3F)]
  else if c <? 0x10000
  then [byte_of (0xE0 + Z.shiftr c 12); byte_of (0x80 + Z.land (Z.shiftr c 6) 0x3F);
        byte_of (0x80 + Z.land c 0x3F)]
  else [byte_of (0xF0 + Z.shiftr c 18); byte_of (0x80 + Z.land (Z.shiftr c 12) 0x3F);
        byte_of (0x80 + Z.land (Z.shiftr c 6) 0x3F); byte_of (0x80 + Z.land c 0x3F)].

Definition is_high_surrogate (u : Z) : bool := (0xD800 <=? u) && (u <=? 0xDBFF).
Definition is_low_surrogate (u : Z) : bool := (0xDC00 <=? u) && (u <=? 0xDFFF).

Fixpoint utf8_encode (s : jsstring) : list byte :=
  match s with
  | [] => []
  | u :: rest =>
      if is_high_surrogate u
      then match rest with
           | lo :: rest' =>
               if is_low_surrogate lo
               then utf8_bytes_of_code_point
                      (0x10000 + (u - 0xD800) * 0x400 + (lo - 0xDC00))
                    ++ utf8_encode rest'
               else utf8_bytes_of_code_point 0xFFFD ++ utf8_encode rest
           | [] => utf8_bytes_of_code_point 0xFFFD
           end
      else if is_low_surrogate u
      then utf8_bytes_of_code_point 0xFFFD ++ utf8_encode rest
      else utf8_bytes_of_code_point u ++ utf8_encode rest
  end.

(** [str.indexOf('\0')] followed by [str.substring(0, nul)]: the units
    before the first U+0000, the whole string when there is none. *)
Fixpoint until_nul (s : jsstring) : jsstring :=
  match s with
  | [] => []
  | u :: rest => if u =? 0 then [] else u :: until_nul rest
  end.

(** The bytes before the first 0x00 byte. *)
Fixpoint bytes_until_nul (bs : list byte) : list byte :=
  match bs with
  | [] => []
  | b :: rest => if byte_val b =? 0 then [] else b :: bytes_until_nul rest
  end.

(** ** The dynamic buffer *)

(** Modelled from the spec: [./dynamic-buffer] is not among the sources.
    The spec gives it as an appendable byte container: [append(text)]
    appends the UTF-8 bytes of the text, the [append*] writers append a
    little-endian primitive, [align(n)] pads with zero bytes until
    [length mod n == 0], [toBuffer()] is a snapshot.  A value wider than the
    cell is written by its low bits. *)
Module DynamicBuffer.

Fixpoint le_bytes (w : nat) (v : Z) : list byte :=
  match w with
  | O => []
  | S w' => byte_of v :: le_bytes w' (v / 256)
  end.

Definition new : buffer := [].
Definition length (buf : buffer) : Z := blength buf.
Definition append (buf : buffer) (text : jsstring) : buffer := buf ++ utf8_encode text.
Definition appendUInt8 (buf : buffer) (v : Z) : buffer := buf ++ le_bytes 1 v.
Definition appendUInt16 (buf : buffer) (v : Z) : buffer := buf ++ le_bytes 2 v.
Definition appendUInt32 (buf : buffer) (v : Z) : buffer := buf ++ le_bytes 4 v.
Definition appendInt16 (buf : buffer) (v : Z) : buffer := buf ++ le_bytes 2 v.
Definition appendInt32 (buf : buffer) (v : Z) : buffer := buf ++ le_bytes 4 v.
Definition appendDouble (buf : buffer) (bits : Z) : buffer := buf ++ le_bytes 8 bits.
Definition align (buf : buffer) (n : Z) : buffer :=
  buf ++ repeat x00 (Z.to_nat (Z.rem (n - Z.rem (blength buf) n) n)).
Definition toBuffer (buf : buffer) : buffer := buf.

End DynamicBuffer.

(** ** 64-bit integers: the [long] package *)

(** The double nearest to an integer (ties to even): what [Long.toNumber]
    returns, as [high * 2^32 + low] is one rounded floating-point sum. *)
Definition to_double (z : Z) : Z :=
  let m := Z.abs z in
  if m <? 2 ^ 53 then z
  else let e := Z.log2 m - 52 in
       let q := Z.shiftr m e in
       let r := m - Z.shiftl q e in
       let half := 2 ^ (e - 1) in
       let q' := if (half <? r) || ((r =? half) && Z.odd q) then q + 1 else q in
       Z.sgn z * q' * 2 ^ e.

Module Long.

(** [Long.fromBits(lo, hi).toNumber()] and its unsigned variant. *)
Definition fromBits_toNumber (lo hi : Z) (unsigned : bool) : Z :=
  if unsigned then to_double (hi * 2 ^ 32 + lo)
  else to_double (to_signed 32 hi * 2 ^ 32 + lo).

(** [Long.fromNumber(value)], signed: saturates at the 64-bit range; the
    result is given by its two's complement pattern. *)
Definition fromNumber (value : Z) : Z :=
  (Z.max (- 2 ^ 63) (Z.min value (2 ^ 63 - 1))) mod 2 ^ 64.

Definition getLowBitsUnsigned (l : Z) : Z := l mod 2 ^ 32.
Definition getHighBitsUnsigned (l : Z) : Z := l / 2 ^ 32.

End Long.

(** ** Values *)

(** The values [parse] returns and [serialize] takes.  [VNum] is an
    integer-valued number, [VDouble] a double read under [d], kept as its bit
    pattern; [VSeq] is an array; [VMap] is a plain object, its own
    properties in enumeration order; [VVariant t v] is the object
    [{ type: t, value: v }]. *)
Inductive value : Type :=
| VNum (n : Z)
| VDouble (bits : Z)
| VBool (b : bool)
| VStr (s : jsstring)
| VNull
| VSeq (l : list value)
| VMap (m : list (jsstring * value))
| VVariant (type : jsstring) (v : value).

(** [!!value]. *)
Definition truthy (v : value) : bool :=
  match v with
  | VNum n => negb (n =? 0)
  | VDouble bits =>
      (0 <? bits mod 2 ^ 63) && (bits mod 2 ^ 63 <=? 0x7FF0000000000000)
  | VBool b => b
  | VStr s => match s with [] => false | _ => true end
  | VNull => false
  | VSeq _ | VMap _ | VVariant _ _ => true
  end.

(** The decimal numeral of an integer.  It is what [String(n)] prints
    for the safe integers, those below 2^53 in magnitude; beyond them
    JavaScript prints the shortest digits that round to the number, and
    the numeral is not used for it. *)
Definition decimal (n : Z) : jsstring :=
  str (NilZero.string_of_int (Z.to_int n)).

Fixpoint digits_value (s : jsstring) (acc : Z) : option Z :=
  match s with
  | [] => Some acc
  | u :: rest =>
      if (48 <=? u) && (u <=? 57) then digits_value rest (acc * 10 + (u - 48))
      else None
  end.

(** The integer a string is the canonical numeral of. *)
Definition numeral (s : jsstring) : option Z :=
  match s with
  | [] => None
  | 45 :: rest =>
      match rest with
      | [] => None
      | _ => match digits_value rest 0 with
             | Some n => if jsstring_eqb (decimal (- n)) s then Some (- n) else None
             | None => None
             end
      end
  | _ => match digits_value s 0 with
         | Some n => if jsstring_eqb (decimal n) s then Some n else None
         | None => None
         end
  end.

(** A number handed to one of the buffer's integer writers.  The keys of a
    mapping reach the writers as strings; a numeral is converted, to the
    double nearest to it. *)
Definition to_number (v : value) : result Z :=
  match v with
  | VNum n => Ok n
  | VBool b => Ok (if b then 1 else 0)
  | VNull => Ok 0
  | VStr s => match numeral s with Some n => Ok (to_double n) | None => Unmodelled end
  | _ => Unmodelled
  end.

(** *** Plain objects *)

(** An array index is a canonical numeral up to 2^32 - 2; such keys are
    enumerated first, in ascending order, before the other keys in
    insertion order. *)
Definition array_index (k : jsstring) : option Z :=
  match numeral k with
  | Some n => if (0 <=? n) && (n <=? 4294967294) then Some n else None
  | None => None
  end.

Fixpoint obj_has (o : list (jsstring * value)) (k : jsstring) : bool :=
  match o with
  | [] => false
  | (k', _) :: rest => jsstring_eqb k' k || obj_has rest k
  end.

(** [String(x)] for a double given by its bit pattern, where the double is
    an integer below 2^53 in magnitude, a zero, an infinity or a NaN.  The
    other doubles (fractions, and the integers JavaScript prints by their
    shortest digits) are left out: [None]. *)
Definition double_key (bits : Z) : option jsstring :=
  if (bits <? 0) || (2 ^ 64 <=? bits) then None
  else
    let negative := 2 ^ 63 <=? bits in
    let e := (bits / 2 ^ 52) mod 2048 in
    let m := bits mod 2 ^ 52 in
    if e =? 2047
    then if m =? 0 then Some (str (if negative then "-Infinity" else "Infinity"))
         else Some (str "NaN")
    else if e =? 0
    then if m =? 0 then Some (str "0") else None
    else
      let mant := 2 ^ 52 + m in
      if 1075 <? e then None
      else
        let d := 2 ^ (1075 - e) in
        if mant mod d =? 0
        then Some (decimal (if negative then - (mant / d) else mant / d))
        else None.

(** The property name a value denotes as a key: [String(v)].  A number is
    printed ([None] where its digits are left out, see [decimal] and
    [double_key]); an array is the names of its elements joined by commas,
    [null] among them counting as the empty string; an object is
    ["[object Object]"], unless it has a property [toString] of its own,
    which JavaScript would try to call: that case is left out. *)
Fixpoint key_string (v : value) : option jsstring :=
  match v with
  | VStr s => Some s
  | VNum n => if (- 2 ^ 53 <? n) && (n <? 2 ^ 53) then Some (decimal n) else None
  | VDouble bits => double_key bits
  | VBool b => Some (str (if b then "true" else "false"))
  | VNull => Some (str "null")
  | VSeq l =>
      (fix join (l : list value) : option jsstring :=
         match l with
         | [] => Some []
         | x :: rest =>
             match match x with VNull => Some [] | _ => key_string x end with
             | None => None
             | Some a =>
                 match rest with
                 | [] => Some a
                 | _ :: _ => match join rest with
                             | Some b => Some (a ++ 44 :: b)
                             | None => None
                             end
                 end
             end
         end) l
  | VMap m => if obj_has m (str "toString") then None else Some (str "[object Object]")
  | VVariant _ _ => Some (str "[object Object]")
  end.

(** The property key a value denotes in [o[v[0]]]. *)
Definition to_property_key (v : value) : result jsstring :=
  match key_string v with
  | Some k => Ok k
  | None => Unmodelled
  end.

Fixpoint obj_replace (o : list (jsstring * value)) (k : jsstring) (v : value)
  : list (jsstring * value) :=
  match o with
  | [] => []
  | (k', v') :: rest =>
      if jsstring_eqb k' k then (k', v) :: rest else (k', v') :: obj_replace rest k v
  end.

Fixpoint obj_insert_index (o : list (jsstring * value)) (n : Z) (k : jsstring) (v : value)
  : list (jsstring * value) :=
  match o with
  | [] => [(k, v)]
  | (k', v') :: rest =>
      match array_index k' with
      | Some n' => if n <? n' then (k, v) :: o else (k', v') :: obj_insert_index rest n k v
      | None => (k, v) :: o
      end
  end.

(** [o[k] = v] on a plain object.  The key [__proto__] does not create a
    property and is left out of the embedding. *)
Definition obj_set (o : list (jsstring * value)) (k : jsstring) (v : value)
  : result (list (jsstring * value)) :=
  if jsstring_eqb k (str "__proto__") then Unmodelled
  else if obj_has o k then Ok (obj_replace o k v)
  else match array_index k with
       | Some n => Ok (obj_insert_index o n k v)
       | None => Ok (o ++ [(k, v)])
       end.

(** [values.reduce(function (o, v) { o[v[0]] = v[1]; return o; }, {})]. *)
Fixpoint to_object (values : list value) (o : list (jsstring * value))
  : result (list (jsstring * value)) :=
  match values with
  | [] => Ok o
  | VSeq (k :: v :: _) :: rest =>
      key <- to_property_key k ;;
      o' <- obj_set o key v ;;
      to_object rest o'
  | _ :: _ => Unmodelled
  end.

(** ** The offset codec *)

(** The object [offsetInfo] returns.  [read_at o d] reads the cell [d]
    bytes after [end] and adds [start]; the source's [offsets.read(i)] is
    [read_at o (size o * i)]. *)
Module Offsets.

Record t : Type :=
  { size : Z; read_at : Z -> result Z }.

Definition read (o : t) (i : Z) : result Z := read_at o (size o * i).

End Offsets.

Definition offsetInfo (buf : buffer) (start end_ : Z) : result Offsets.t :=
  if end_ - start <=? 0xff
  then Ok {| Offsets.size := 1;
             Offsets.read_at := fun d => v <- readUInt8 buf (end_ + d) ;; Ok (start + v) |}
  else if end_ - start <=? 0xffff
  then Ok {| Offsets.size := 2;
             Offsets.read_at := fun d => v <- readUInt16LE buf (end_ + d) ;; Ok (start + v) |}
  else if end_ - start <=? 0xffffffff
  then Ok {| Offsets.size := 4;
             Offsets.read_at := fun d => v <- readUInt32LE buf (end_ + d) ;; Ok (start + v) |}
  else Throw RangeError_offset.

Definition writeOffsets (buf : buffer) (offs : list Z) (start end_ : Z) : result buffer :=
  if end_ - start <=? 0xff
  then Ok (fold_left DynamicBuffer.appendUInt8 offs buf)
  else if end_ - start <=? 0xffff
  then Ok (fold_left DynamicBuffer.appendUInt16 offs buf)
  else if end_ - start <=? 0xffffffff
  then Ok (fold_left DynamicBuffer.appendUInt32 offs buf)
  else Throw RangeError_offset.

(** ** Type descriptors *)

(** The object [nextType] returns for a type.  [id] is kept where the source
    computes it from the signature; [fixedSize], [alignment] and
    [defaultValue], which the source stores when it builds the object, are
    functions of the descriptor. *)
Inductive gtype : Type :=
| TByte
| TInt16
| TUInt16
| TInt32
| TUInt32
| TInt64
| TUInt64
| TDouble
| TBoolean
| TString (id : jsstring)
| TVariant
| TMaybe (id : jsstring) (element : gtype)
| TTuple (id : jsstring) (elements : list gtype)
| TDictEntry (id : jsstring) (key value : gtype)
| TArray (id : jsstring) (element : gtype).

Definition type_id (ty : gtype) : jsstring :=
  match ty with
  | TByte => str "y"
  | TInt16 => str "n"
  | TUInt16 => str "q"
  | TInt32 => str "i"
  | TUInt32 => str "u"
  | TInt64 => str "x"
  | TUInt64 => str "t"
  | TDouble => str "d"
  | TBoolean => str "b"
  | TString id => id
  | TVariant => str "v"
  | TMaybe id _ => id
  | TTuple id _ => id
  | TDictEntry id _ _ => id
  | TArray id _ => id
  end.

Fixpoint alignment (ty : gtype) : Z :=
  match ty with
  | TByte | TBoolean | TString _ => 1
  | TInt16 | TUInt16 => 2
  | TInt32 | TUInt32 => 4
  | TInt64 | TUInt64 | TDouble | TVariant => 8
  | TMaybe _ element => alignment element
  | TTuple _ elements => fold_left (fun a el => Z.max a (alignment el)) elements 1
  | TDictEntry _ key value => Z.max (alignment key) (alignment value)
  | TArray _ element => alignment element
  end.

(** [align(size, al) + fs] on JavaScript numbers: [None] stands for
    [undefined] and for [NaN], which an [undefined] operand produces and
    which every later sum keeps; both are falsy. *)
Definition add_aligned (size : option Z) (al : Z) (fs : option Z) : option Z :=
  match size, fs with
  | Some s, Some f => Some (align s al + f)
  | _, _ => None
  end.

Fixpoint fixedSize (ty : gtype) : option Z :=
  match ty with
  | TByte | TBoolean => Some 1
  | TInt16 | TUInt16 => Some 2
  | TInt32 | TUInt32 => Some 4
  | TInt64 | TUInt64 | TDouble => Some 8
  | TString _ | TVariant | TMaybe _ _ | TArray _ _ => None
  | TTuple _ elements =>
      match fold_left (fun size el => add_aligned size (alignment el) (fixedSize el))
                      elements (Some 0) with
      | Some 0 => Some 1
      | size => size
      end
  | TDictEntry _ key value =>
      add_aligned (fixedSize key) (alignment value) (fixedSize value)
  end.

(** [if (el.fixedSize)]: a number other than 0. *)
Definition is_fixed (ty : gtype) : bool :=
  match fixedSize ty with
  | Some n => negb (n =? 0)
  | None => false
  end.

(** [el.fixedSize] where the source uses it as a number. *)
Definition fixed (ty : gtype) : Z :=
  match fixedSize ty with Some n => n | None => 0 end.

Fixpoint defaultValue (ty : gtype) : value :=
  match ty with
  | TByte | TInt16 | TUInt16 | TInt32 | TUInt32 | TInt64 | TUInt64 => VNum 0
  | TDouble => VDouble 0
  | TBoolean => VBool false
  | TString _ => VStr []
  | TVariant => VVariant (str "()") (VSeq [])
  | TMaybe _ _ => VNull
  | TTuple _ elements => VSeq (map defaultValue elements)
  | TDictEntry _ key value => VSeq [defaultValue key; defaultValue value]
  | TArray _ _ => VSeq []
  end.

(** ** The signature parser *)

(** The character the [switch] of [nextType] dispatches on. *)
Definition sig_char (signature : jsstring) (index : Z) : option ascii :=
  match charAt signature index with
  | Some u => if (0 <=? u) && (u <? 256) then Some (ascii_of_N (Z.to_N u)) else None
  | None => None
  end.

(** [nextType(signature, index)]: [Ok None] is the [undefined] the switch
    falls through to.  The recursion follows the index, which grows at each
    call; [fuel] bounds it.  [tuple_elements] is the [while] loop of the
    tuple case and returns the final [end] with the elements. *)
Fixpoint nextType_fuel (fuel : nat) (signature : jsstring) (index : Z)
  {struct fuel} : result (option gtype) :=
  match fuel with
  | O => OutOfFuel
  | S fuel' =>
      match sig_char signature index with
      | Some "y"%char => Ok (Some TByte)
      | Some "n"%char => Ok (Some TInt16)
      | Some "q"%char => Ok (Some TUInt16)
      | Some "i"%char => Ok (Some TInt32)
      | Some "u"%char => Ok (Some TUInt32)
      | Some "x"%char => Ok (Some TInt64)
      | Some "t"%char => Ok (Some TUInt64)
      | Some "d"%char => Ok (Some TDouble)
      | Some "b"%char => Ok (Some TBoolean)
      | Some "s"%char | Some "o"%char | Some "g"%char =>
          Ok (Some (TString (substr signature index 1)))
      | Some "v"%char => Ok (Some TVariant)
      | Some "m"%char =>
          maybeElement <- nextType_fuel fuel' signature (index + 1) ;;
          match maybeElement with
          | None => Throw TypeError_undefined
          | Some el =>
              Ok (Some (TMaybe (substr signature index (jslength (type_id el) + 1)) el))
          end
      | Some "("%char =>
          r <- tuple_elements fuel' signature (index + 1) [] ;;
          let '(end_, elements) := r in
          Ok (Some (TTuple (strslice signature index (end_ + 1)) elements))
      | Some "{"%char =>
          key <- nextType_fuel fuel' signature (index + 1) ;;
          match key with
          | None => Throw TypeError_undefined
          | Some k =>
              value <- nextType_fuel fuel' signature (index + 1 + jslength (type_id k)) ;;
              match value with
              | None => Throw TypeError_undefined
              | Some v =>
                  Ok (Some (TDictEntry
                              (substr signature index
                                      (jslength (type_id k) + jslength (type_id v) + 2))
                              k v))
              end
          end
      | Some "a"%char =>
          element <- nextType_fuel fuel' signature (index + 1) ;;
          match element with
          | None => Throw TypeError_undefined
          | Some el =>
              Ok (Some (TArray (substr signature index (jslength (type_id el) + 1)) el))
          end
      | _ => Ok None
      end
  end
with tuple_elements (fuel : nat) (signature : jsstring) (end_ : Z)
                    (elements : list gtype) {struct fuel}
  : result (Z * list gtype) :=
  match fuel with
  | O => OutOfFuel
  | S fuel' =>
      match sig_char signature end_ with
      | Some ")"%char => Ok (end_, elements)
      | _ =>
          el <- nextType_fuel fuel' signature end_ ;;
          match el with
          | None => Throw TypeError_undefined
          | Some e =>
              tuple_elements fuel' signature (end_ + jslength (type_id e))
                             (elements ++ [e])
          end
      end
  end.

Definition nextType (signature : jsstring) (index : Z) : result (option gtype) :=
  nextType_fuel (S (2 * length signature)) signature index.

Definition parseType (s : jsstring) : result gtype :=
  type <- nextType s 0 ;;
  match type with
  | Some t =>
      if jslength (type_id t) =? jslength s then Ok t else Throw (TypeError_invalid s)
  | None => Throw (TypeError_invalid s)
  end.

(** ** Readers *)

(** The [while] loop of the variant reader: [sep] walks down from [end - 1]
    to the last 0x00 of the frame, and stops at [start - 1] when there is
    none.  [n] is the number of positions left in the frame. *)
Fixpoint variant_sep (buf : buffer) (start : Z) (n : nat) (sep : Z) : result Z :=
  match n with
  | O => Ok sep
  | S n' =>
      if sep <? start then Ok sep
      else b <- readUInt8 buf sep ;;
           if b =? 0 then Ok sep else variant_sep buf start n' (sep - 1)
  end.

(** The loop of the array reader over fixed-size elements. *)
Fixpoint array_fixed (rd : Z -> Z -> result value) (n : nat) (cur fs : Z)
  : result (list value) :=
  match n with
  | O => Ok []
  | S n' =>
      v <- rd cur (cur + fs) ;;
      vs <- array_fixed rd n' (cur + fs) fs ;;
      Ok (v :: vs)
  end.

(** The loop of the array reader over variable-size elements.  In the
    source [n = k / offsets.size] with [k = end - offsets.read(-1)], which
    need not be an integer; the loop runs while [i < n], and the cell of
    element [i] is [offsets.size * (-n + i) = -k + offsets.size * i] bytes
    after [end]. *)
Fixpoint array_variable (rd : Z -> Z -> result value) (o : Offsets.t) (al : Z)
                        (count : nat) (i k cur : Z) : result (list value) :=
  match count with
  | O => Ok []
  | S count' =>
      next <- Offsets.read_at o (- k + Offsets.size o * i) ;;
      v <- rd cur next ;;
      vs <- array_variable rd o al count' (i + 1) k (align next al) ;;
      Ok (v :: vs)
  end.

(** The [for] loop of the tuple reader.  Each element comes with its
    reader on the buffer; [rest] is empty exactly when
    [i = this.elements.length - 1]. *)
Fixpoint read_elements (o : Offsets.t) (end_ : Z)
                       (els : list (gtype * (Z -> Z -> result value)))
                       (cur curOffset : Z) : result (list value) :=
  match els with
  | [] => Ok []
  | (el, rd) :: rest =>
      let cur := align cur (alignment el) in
      p <- (if is_fixed el then Ok (cur + fixed el, curOffset)
            else match rest with
                 | _ :: _ =>
                     next <- Offsets.read o (curOffset - 1) ;;
                     Ok (next, curOffset - 1)
                 | [] => Ok (end_ - Offsets.size o * - curOffset, curOffset)
                 end) ;;
      let '(next, curOffset) := p in
      v <- rd cur next ;;
      vs <- read_elements o end_ rest next curOffset ;;
      Ok (v :: vs)
  end.

(** The number of [i = 0, 1, ..] with [i < k / size]. *)
Definition iterations (k size : Z) : nat := Z.to_nat ((k + size - 1) / size).

(** [this.element.id[0] === '{']. *)
Definition is_dict_entry (ty : gtype) : bool :=
  match charAt (type_id ty) 0 with
  | Some u => u =? 123
  | None => false
  end.

(** [type.read(buf, start, end)].  [parse] is the public [parse], which the
    variant reader calls on the signature it finds in the frame. *)
Fixpoint read (parse : jsstring -> buffer -> result value)
         (ty : gtype) (buf : buffer) (start end_ : Z) {struct ty} : result value :=
  match ty with
  | TByte =>
      if negb (end_ - start =? 1) then Ok (defaultValue ty)
      else v <- readUInt8 buf start ;; Ok (VNum v)
  | TInt16 =>
      if negb (end_ - start =? 2) then Ok (defaultValue ty)
      else v <- readInt16LE buf start ;; Ok (VNum v)
  | TUInt16 =>
      if negb (end_ - start =? 2) then Ok (defaultValue ty)
      else v <- readUInt16LE buf start ;; Ok (VNum v)
  | TInt32 =>
      if negb (end_ - start =? 4) then Ok (defaultValue ty)
      else v <- readInt32LE buf start ;; Ok (VNum v)
  | TUInt32 =>
      if negb (end_ - start =? 4) then Ok (defaultValue ty)
      else v <- readUInt32LE buf start ;; Ok (VNum v)
  | TInt64 =>
      if negb (end_ - start =? 8) then Ok (defaultValue ty)
      else lo <- readUInt32LE buf start ;;
           hi <- readUInt32LE buf (start + 4) ;;
           Ok (VNum (Long.fromBits_toNumber lo hi false))
  | TUInt64 =>
      if negb (end_ - start =? 8) then Ok (defaultValue ty)
      else lo <- readUInt32LE buf start ;;
           hi <- readUInt32LE buf (start + 4) ;;
           Ok (VNum (Long.fromBits_toNumber lo hi true))
  | TDouble =>
      if negb (end_ - start =? 8) then Ok (defaultValue ty)
      else v <- readDoubleLE buf start ;; Ok (VDouble v)
  | TBoolean =>
      if negb (end_ - start =? 1) then Ok (defaultValue ty)
      else v <- readUInt8 buf start ;; Ok (VBool (negb (v =? 0)))
  | TString _ =>
      if start =? end_ then Ok (defaultValue ty)
      else last <- readUInt8 buf (end_ - 1) ;;
           if negb (last =? 0) then Ok (defaultValue ty)
           else Ok (VStr (until_nul (utf8_decode (window buf start (end_ - 1)))))
  | TVariant =>
      sep <- variant_sep buf start (Z.to_nat (end_ - start)) (end_ - 1) ;;
      let type := ascii_decode (window buf (sep + 1) end_) in
      let data := slice buf start sep in
      v <- parse type data ;;
      Ok (VVariant type v)
  | TMaybe _ element =>
      if start =? end_ then Ok VNull
      else if is_fixed element
      then if negb (end_ - start =? fixed element) then Ok VNull
           else read parse element buf start end_
      else read parse element buf start (end_ - 1)
  | TTuple _ elements =>
      if is_fixed ty && negb (end_ - start =? fixed ty) then Ok (defaultValue ty)
      else
        o <- offsetInfo buf start end_ ;;
        values <- read_elements o end_
                                (map (fun el => (el, read parse el buf)) elements)
                                start 0 ;;
        Ok (VSeq values)
  | TDictEntry _ key value =>
      if is_fixed ty && negb (end_ - start =? fixed ty) then Ok (defaultValue ty)
      else
        o <- offsetInfo buf start end_ ;;
        p <- (if is_fixed key then Ok (start + fixed key, end_)
              else keyEnd <- Offsets.read o (-1) ;;
                   Ok (keyEnd, end_ - Offsets.size o)) ;;
        let '(keyEnd, valueEnd) := p in
        k <- read parse key buf start keyEnd ;;
        v <- read parse value buf (align keyEnd (alignment value)) valueEnd ;;
        Ok (VSeq [k; v])
  | TArray _ element =>
      if start =? end_
      then Ok (if is_dict_entry element then VMap [] else VSeq [])
      else
        let size := end_ - start in
        values <-
          (if is_fixed element
           then if negb (Z.rem size (fixed element) =? 0) then Ok None
                else vs <- array_fixed (read parse element buf)
                                       (Z.to_nat (Z.quot size (fixed element)))
                                       start (fixed element) ;;
                     Ok (Some vs)
           else o <- offsetInfo buf start end_ ;;
                first <- Offsets.read o (-1) ;;
                let k := end_ - first in
                vs <- array_variable (read parse element buf) o (alignment element)
                                     (iterations k (Offsets.size o)) 0 k start ;;
                Ok (Some vs)) ;;
        match values with
        | None => Ok (VSeq [])
        | Some vs =>
            if is_dict_entry element
            then m <- to_object vs [] ;; Ok (VMap m)
            else Ok (VSeq vs)
        end
  end.

(** [parse(typestr, data)].  A variant makes [parse] call itself on a
    slice of [data]; [fuel] bounds that nesting, and [S (length data)] is
    always enough ([parse_fuel_enough] below). *)
Fixpoint parse_fuel (fuel : nat) (typestr : jsstring) (data : buffer) : result value :=
  type <- parseType typestr ;;
  match fuel with
  | O => OutOfFuel
  | S fuel' => read (parse_fuel fuel') type data 0 (blength data)
  end.

Definition parse (typestr : jsstring) (data : buffer) : result value :=
  parse_fuel (S (length data)) typestr data.

(** ** Writers *)

(** The array a mapping is turned into before it is written:
    [for (i in value) array.push([ i, value[i] ])].  A variant record is an
    object with the two properties [type] and [value]; a primitive has no
    enumerable property.  Enumerating a string is left out. *)
Definition as_array (v : value) : result (list value) :=
  match v with
  | VSeq l => Ok l
  | VMap m => Ok (map (fun kv => VSeq [VStr (fst kv); snd kv]) m)
  | VVariant t x => Ok [VSeq [VStr (str "type"); VStr t]; VSeq [VStr (str "value"); x]]
  | VNum _ | VDouble _ | VBool _ | VNull => Ok []
  | VStr _ => Unmodelled
  end.

(** [value[i]] on an array; anything else is left out of the embedding. *)
Definition index_value (v : value) (i : nat) : result value :=
  match v with
  | VSeq l => match nth_error l i with Some x => Ok x | None => Unmodelled end
  | _ => Unmodelled
  end.

(** The two loops of the array writer. *)
Fixpoint write_fixed_elements (wr : value -> buffer -> result buffer) (al : Z)
                              (vals : list value) (buf : buffer) : result buffer :=
  match vals with
  | [] => Ok buf
  | v :: rest =>
      buf' <- wr v (DynamicBuffer.align buf al) ;;
      write_fixed_elements wr al rest buf'
  end.

Fixpoint write_variable_elements (wr : value -> buffer -> result buffer) (al start : Z)
                                 (vals : list value) (buf : buffer) (offs : list Z)
  : result (buffer * list Z) :=
  match vals with
  | [] => Ok (buf, offs)
  | v :: rest =>
      buf' <- wr v (DynamicBuffer.align buf al) ;;
      write_variable_elements wr al start rest buf'
                              (offs ++ [DynamicBuffer.length buf' - start])
  end.

(** The [for] loop of the tuple writer; each element comes with its
    writer. *)
Fixpoint write_elements (v : value) (start : Z)
                        (els : list (gtype * (value -> buffer -> result buffer)))
                        (i : nat) (buf : buffer) (offs : list Z)
  : result (buffer * list Z) :=
  match els with
  | [] => Ok (buf, offs)
  | (el, wr) :: rest =>
      let buf := DynamicBuffer.align buf (alignment el) in
      x <- index_value v i ;;
      buf' <- wr x buf ;;
      write_elements v start rest (S i) buf'
                     (if negb (is_fixed el) && match rest with [] => false | _ => true end
                      then offs ++ [DynamicBuffer.length buf' - start]
                      else offs)
  end.

(** [type.write(value, buf)]; the buffer is threaded through.
    [write_value] stands for [parseType(value.type).write(value.value, buf)]
    in the variant writer. *)
Fixpoint write (write_value : jsstring -> value -> buffer -> result buffer)
         (ty : gtype) (v : value) (buf : buffer) {struct ty} : result buffer :=
  match ty with
  | TByte => n <- to_number v ;; Ok (DynamicBuffer.appendUInt8 buf n)
  | TInt16 => n <- to_number v ;; Ok (DynamicBuffer.appendInt16 buf n)
  | TUInt16 => n <- to_number v ;; Ok (DynamicBuffer.appendUInt16 buf n)
  | TInt32 => n <- to_number v ;; Ok (DynamicBuffer.appendInt32 buf n)
  | TUInt32 => n <- to_number v ;; Ok (DynamicBuffer.appendUInt32 buf n)
  | TInt64 | TUInt64 =>
      n <- to_number v ;;
      let l := Long.fromNumber n in
      Ok (DynamicBuffer.appendUInt32
            (DynamicBuffer.appendUInt32 buf (Long.getLowBitsUnsigned l))
            (Long.getHighBitsUnsigned l))
  | TDouble =>
      match v with
      | VDouble bits => Ok (DynamicBuffer.appendDouble buf bits)
      | _ => Unmodelled
      end
  | TBoolean => Ok (DynamicBuffer.appendUInt8 buf (if truthy v then 1 else 0))
  | TString _ =>
      match v with
      | VStr s => Ok (DynamicBuffer.appendUInt8 (DynamicBuffer.append buf s) 0)
      | _ => Unmodelled
      end
  | TVariant =>
      match v with
      | VVariant type x =>
          buf' <- write_value type x buf ;;
          Ok (DynamicBuffer.append (DynamicBuffer.appendUInt8 buf' 0) type)
      | _ => Unmodelled
      end
  | TMaybe _ element =>
      let buf := DynamicBuffer.align buf (alignment ty) in
      match v with
      | VNull => Ok buf
      | _ =>
          buf' <- write write_value element v buf ;;
          Ok (if negb (is_fixed element) then DynamicBuffer.appendUInt8 buf' 0 else buf')
      end
  | TTuple _ elements =>
      let start := DynamicBuffer.length buf in
      r <- write_elements v start
                          (map (fun el => (el, write write_value el)) elements)
                          O buf [] ;;
      let '(buf', offs) := r in
      writeOffsets buf' (rev offs) start (DynamicBuffer.length buf')
  | TDictEntry _ key value =>
      let start := DynamicBuffer.length buf in
      k <- index_value v 0 ;;
      buf1 <- write write_value key k buf ;;
      let keyEnd := DynamicBuffer.length buf1 - start in
      x <- index_value v 1 ;;
      buf2 <- write write_value value x (DynamicBuffer.align buf1 (alignment value)) ;;
      if negb (is_fixed key)
      then writeOffsets buf2 [keyEnd] start (DynamicBuffer.length buf2)
      else Ok buf2
  | TArray _ element =>
      vals <- as_array v ;;
      if is_fixed element
      then write_fixed_elements (write write_value element) (alignment element) vals buf
      else
        let start := DynamicBuffer.length buf in
        r <- write_variable_elements (write write_value element) (alignment element)
                                     start vals buf [] ;;
        let '(buf', offs) := r in
        writeOffsets buf' offs start (DynamicBuffer.length buf')
  end.

(** The nesting of variants in a value. *)
Fixpoint variant_depth (v : value) : nat :=
  match v with
  | VSeq l => fold_right (fun x n => Nat.max (variant_depth x) n) O l
  | VMap m => fold_right (fun kv n => Nat.max (match kv with (_, x) => variant_depth x end) n)
                         O m
  | VVariant _ x => S (variant_depth x)
  | _ => O
  end.

(** [parseType(typestr).write(v, buf)].  The variant writer calls it on
    the value inside the variant; [fuel] bounds that nesting. *)
Fixpoint write_value (fuel : nat) (typestr : jsstring) (v : value) (buf : buffer)
  : result buffer :=
  type <- parseType typestr ;;
  match fuel with
  | O => OutOfFuel
  | S fuel' => write (write_value fuel') type v buf
  end.

(** [serialize(typestr, value)]. *)
Definition serialize (typestr : jsstring) (v : value) : result buffer :=
  type <- parseType typestr ;;
  buf <- write (write_value (variant_depth v)) type v DynamicBuffer.new ;;
  Ok (DynamicBuffer.toBuffer buf).

(** ** Notions used in the statements and proofs *)

(** The width of an offset cell as the spec gives it, from the length of
    the frame: 1 up to 0xFF, 2 up to 0xFFFF, 4 up to 0xFFFFFFFF, none
    beyond. *)
Definition spec_cell_width (len : Z) : option Z :=
  if len <=? 0xFF then Some 1
  else if len <=? 0xFFFF then Some 2
  else if len <=? 0xFFFFFFFF then Some 4
  else None.

(** The width [offsetInfo] chooses for a frame. *)
Definition read_width (buf : buffer) (start end_ : Z) : result Z :=
  o <- offsetInfo buf start end_ ;; Ok (Offsets.size o).

(** The offsets [offs] as little-endian cells of [w] bytes each. *)
Definition cells (w : Z) (offs : list Z) : list byte :=
  flat_map (DynamicBuffer.le_bytes (Z.to_nat w)) offs.

(** The bytes of the frame [start, end) of a buffer. *)
Definition frame_bytes (buf : buffer) (start end_ : Z) : list byte :=
  firstn (Z.to_nat (end_ - start)) (skipn (Z.to_nat start) buf).

(** The invariant of the UTF-8 decoder between two bytes: while
    continuation bytes are awaited they are sought within 0x80..0xBF, and
    either some bit of the code point is already set or the next byte must
    lie above 0x80 (after the lead bytes 0xE0 and 0xF0). *)
Definition utf8_inv (st : utf8_state) : bool :=
  match needed st with
  | O => true
  | S _ => (0x80 <=? lower st) && (upper st <=? 0xBF) && (0 <=? cp st)
           && ((0 <? cp st) || (0x80 <? lower st))
  end.

(** No unit of the string is U+0000. *)
Definition no_nul (s : jsstring) : bool := forallb (fun u => negb (u =? 0)) s.

(** No byte is 0x00. *)
Definition no_nul_byte (bs : list byte) : bool :=
  forallb (fun b => negb (byte_val b =? 0)) bs.

(** The largest offset a 4-byte cell holds, and the longest frame
    [offsetInfo] accepts. *)
Definition max_offset : Z := 0xFFFFFFFF.

(** The largest fixed size among a descriptor and the descriptors below
    it. *)
Fixpoint max_fixed (ty : gtype) : Z :=
  Z.max (fixed ty)
        match ty with
        | TMaybe _ element | TArray _ element => max_fixed element
        | TTuple _ elements => fold_right (fun el m => Z.max (max_fixed el) m) 0 elements
        | TDictEntry _ key value => Z.max (max_fixed key) (max_fixed value)
        | _ => 0
        end.

(** The outcome is not the out-of-range error of the offset codec. *)
Definition offset_safe {A : Type} (r : result A) : Prop := r <> Throw RangeError_offset.

(** The descriptors of the single-character types. *)
Definition is_leaf (signature : jsstring) (index : Z) (ty : gtype) : Prop :=
  match ty with
  | TByte | TInt16 | TUInt16 | TInt32 | TUInt32 | TInt64 | TUInt64 | TDouble
  | TBoolean | TVariant => True
  | TString id => id = substr signature index 1
  | _ => False
  end.

(** The total length of the ids of a list of descriptors. *)
Definition ids_length (els : list gtype) : Z :=
  fold_right (fun el n => jslength (type_id el) + n) 0 els.

(** What holds of a descriptor [nextType] built at [index]: its id is a
    piece of the signature that starts at [index], and no fixed size in it
    exceeds 16 bytes per character of the id (less 8). *)
Definition desc_ok (signature : jsstring) (index : Z) (ty : gtype) : Prop :=
  0 <= index
  /\ 1 <= jslength (type_id ty)
  /\ index + jslength (type_id ty) <= jslength signature
  /\ max_fixed ty <= 16 * jslength (type_id ty) - 8.

(** The outcomes of the signature parser: a result, or the TypeError of a
    property read on [undefined] (or the embedding running out of fuel). *)
Definition signature_outcome {A : Type} (r : result A) : Prop :=
  match r with
  | Ok _ | Throw TypeError_undefined | OutOfFuel => True
  | _ => False
  end.

(** Well-formed signatures as the spec gives them: one complete type,
    which is a single-character type, [m] or [a] before a type, types
    between parentheses, or exactly two types between braces. *)
Inductive wf_type : jsstring -> Prop :=
| wf_leaf (c : Z) : In c (str "ynqiuxtdbsogv") -> wf_type [c]
| wf_maybe (s : jsstring) : wf_type s -> wf_type (str "m" ++ s)
| wf_array (s : jsstring) : wf_type s -> wf_type (str "a" ++ s)
| wf_tuple (r : jsstring) : wf_types r -> wf_type (str "(" ++ r ++ str ")")
| wf_dict (k v : jsstring) :
    wf_type k -> wf_type v -> wf_type (str "{" ++ k ++ v ++ str "}")
with wf_types : jsstring -> Prop :=
| wf_nil : wf_types []
| wf_cons (s r : jsstring) : wf_type s -> wf_types r -> wf_types (s ++ r).

Scheme wf_type_mut := Minimality for wf_type Sort Prop
  with wf_types_mut := Minimality for wf_types Sort Prop.

(** The embedding did not run out of fuel. *)
Definition fuel_ok {A : Type} (r : result A) : Prop := r <> OutOfFuel.

(** Every component of the descriptor is one of the fixed-width types:
    the single-character types other than text and variant, and the tuples
    and dict-entries made of them. *)
Fixpoint all_fixed (ty : gtype) : bool :=
  match ty with
  | TByte | TInt16 | TUInt16 | TInt32 | TUInt32 | TInt64 | TUInt64 | TDouble
  | TBoolean => true
  | TString _ | TVariant | TMaybe _ _ | TArray _ _ => false
  | TTuple _ elements => forallb all_fixed elements
  | TDictEntry _ key value => all_fixed key && all_fixed value
  end.

(** A variant occurs in the descriptor. *)
Fixpoint has_variant (ty : gtype) : bool :=
  match ty with
  | TVariant => true
  | TMaybe _ element | TArray _ element => has_variant element
  | TTuple _ elements => existsb has_variant elements
  | TDictEntry _ key value => has_variant key || has_variant value
  | _ => false
  end.


(** No tuple without elements occurs in the descriptor. *)
Fixpoint no_unit (ty : gtype) : bool :=
  match ty with
  | TTuple _ elements =>
      match elements with [] => false | _ :: _ => forallb no_unit elements end
  | TDictEntry _ key value => no_unit key && no_unit value
  | TMaybe _ element | TArray _ element => no_unit element
  | _ => true
  end.

(** The values of a fixed-size type that its cell holds exactly: the
    integers of the range of the type (for [x] and [t], those a double
    holds exactly), the 64-bit patterns under [d], the two booleans, and
    arrays with one such value for each element of a tuple or for the key
    and the value of a dict-entry. *)
Fixpoint fits (ty : gtype) (v : value) {struct ty} : bool :=
  match ty, v with
  | TByte, VNum n => (0 <=? n) && (n <? 2 ^ 8)
  | TInt16, VNum n => (- 2 ^ 15 <=? n) && (n <? 2 ^ 15)
  | TUInt16, VNum n => (0 <=? n) && (n <? 2 ^ 16)
  | TInt32, VNum n => (- 2 ^ 31 <=? n) && (n <? 2 ^ 31)
  | TUInt32, VNum n => (0 <=? n) && (n <? 2 ^ 32)
  | TInt64, VNum n => (- 2 ^ 53 <? n) && (n <? 2 ^ 53)
  | TUInt64, VNum n => (0 <=? n) && (n <? 2 ^ 53)
  | TDouble, VDouble bits => (0 <=? bits) && (bits <? 2 ^ 64)
  | TBoolean, VBool _ => true
  | TTuple _ elements, VSeq vs =>
      (fix all2 (els : list gtype) (vs : list value) {struct els} : bool :=
         match els, vs with
         | [], [] => true
         | el :: els', x :: vs' => fits el x && all2 els' vs'
         | _, _ => false
         end) elements vs
  | TDictEntry _ key value, VSeq [k; x] => fits key k && fits value x
  | _, _ => false
  end.

(** The size of a sequence of fixed-size elements laid out from [size]:
    the loop of the tuple case of [nextType], on numbers. *)
Definition layout (els : list gtype) (size : Z) : Z :=
  fold_left (fun size el => align size (alignment el) + fixed el) els size.

(** Writing [v] under [ty] at the end of a buffer aligned for [ty] appends
    exactly [fixedSize] bytes, and the frame of these bytes reads back as
    [v], whatever follows it in the buffer. *)
Definition written_back (wv : jsstring -> value -> buffer -> result buffer)
           (p : jsstring -> buffer -> result value) (ty : gtype) (v : value) : Prop :=
  forall buf,
    Z.rem (blength buf) (alignment ty) = 0 ->
    exists bytes,
      write wv ty v buf = Ok (buf ++ bytes)
      /\ blength bytes = fixed ty
      /\ forall rest,
          read p ty (buf ++ bytes ++ rest) (blength buf) (blength buf + fixed ty) = Ok v.

(** A string without unpaired surrogate, the strings UTF-8 carries
    unchanged: every unit is a 16-bit code unit, a high surrogate is
    followed by a low one and a low one follows a high one. *)
Fixpoint well_formed (s : jsstring) : bool :=
  match s with
  | [] => true
  | u :: rest =>
      if is_high_surrogate u
      then match rest with
           | lo :: rest' => is_low_surrogate lo && well_formed rest'
           | [] => false
           end
      else negb (is_low_surrogate u) && (0 <=? u) && (u <? 0x10000) && well_formed rest
  end.

(** [o[k]] on a plain object: the value of its property [k], [None] when
    it has none. *)
Fixpoint obj_get (o : list (jsstring * value)) (k : jsstring) : option value :=
  match o with
  | [] => None
  | (k', v) :: rest => if jsstring_eqb k' k then Some v else obj_get rest k
  end.

(** The value of the last pair among [values] whose key denotes the
    property [k]; [acc] when there is none. *)
Fixpoint last_entry (values : list value) (k : jsstring) (acc : option value)
  : option value :=
  match values with
  | [] => acc
  | VSeq (key :: v :: _) :: rest =>
      match to_property_key key with
      | Ok k' => last_entry rest k (if jsstring_eqb k' k then Some v else acc)
      | _ => acc
      end
  | _ :: _ => acc
  end.

(** Writing [v] under [ty] at the end of a buffer aligned for [ty] appends
    bytes whose frame reads back as [v], whatever follows it in the
    buffer. *)
Definition written_back_var (wv : jsstring -> value -> buffer -> result buffer)
           (p : jsstring -> buffer -> result value) (ty : gtype) (v : value) : Prop :=
  forall buf,
    Z.rem (blength buf) (alignment ty) = 0 ->
    exists bytes,
      write wv ty v buf = Ok (buf ++ bytes)
      /\ forall rest,
          read p ty (buf ++ bytes ++ rest) (blength buf) (blength buf + blength bytes)
          = Ok v.

(** The writer, which sees a frame of [len] bytes before it appends the
    table of [n] offsets, and the reader, which sees the frame with the
    table, choose the same cell width. *)
Definition same_width (len n : Z) : bool :=
  match spec_cell_width len with
  | Some w => match spec_cell_width (len + w * n) with
              | Some w' => w =? w'
              | None => false
              end
  | None => false
  end.

(** An element of a tuple is read back where it is written: in its
    [fixedSize] bytes when it has a fixed size, in its own frame
    otherwise. *)
Definition element_back (wv : jsstring -> value -> buffer -> result buffer)
           (p : jsstring -> buffer -> result value) (el : gtype) (v : value) : Prop :=
  if is_fixed el then written_back wv p el v else written_back_var wv p el v.

(** The values of the elements of a tuple of texts and fixed-size types:
    a text without unpaired surrogate or U+0000 under [s], [o], [g], a
    value that fits under a fixed-size type (below 4 GiB, without empty
    tuple). *)
Fixpoint flat_fits (els : list gtype) (vs : list value) : bool :=
  match els, vs with
  | [], [] => true
  | el :: els', v :: vs' =>
      match el with
      | TString _ => match v with
                     | VStr s => well_formed s && no_nul s
                     | _ => false
                     end
      | _ => is_fixed el && no_unit el && (fixed el <=? max_offset) && fits el v
      end && flat_fits els' vs'
  | _, _ => false
  end.

(** * Properties *)

(** ** The offset codec *)

Lemma fold_left_append (f : Z -> list byte) (offs : list Z) (buf : buffer) :
  fold_left (fun b o => b ++ f o) offs buf = buf ++ flat_map f offs.
Proof.
  revert buf; induction offs as [|o offs IH]; intros buf; simpl.
  - now rewrite app_nil_r.
  - rewrite IH. now rewrite app_assoc.
Qed.

Lemma offsetInfo_width (buf : buffer) (start end_ : Z) :
  read_width buf start end_ =
  match spec_cell_width (end_ - start) with
  | Some w => Ok w
  | None => Throw RangeError_offset
  end.
Proof.
  unfold read_width, offsetInfo, spec_cell_width.
  destruct (end_ - start <=? 0xff); [reflexivity|].
  destruct (end_ - start <=? 0xffff); [reflexivity|].
  destruct (end_ - start <=? 0xffffffff); reflexivity.
Qed.

Lemma writeOffsets_width (buf : buffer) (offs : list Z) (start end_ : Z) :
  writeOffsets buf offs start end_ =
  match spec_cell_width (end_ - start) with
  | Some w => Ok (buf ++ cells w offs)
  | None => Throw RangeError_offset
  end.
Proof.
  unfold writeOffsets, spec_cell_width, cells.
  destruct (end_ - start <=? 0xff).
  { f_equal. apply (fold_left_append (DynamicBuffer.le_bytes 1)). }
  destruct (end_ - start <=? 0xffff).
  { f_equal. apply (fold_left_append (DynamicBuffer.le_bytes 2)). }
  destruct (end_ - start <=? 0xffffffff).
  { f_equal. apply (fold_left_append (DynamicBuffer.le_bytes 4)). }
  reflexivity.
Qed.

(** Given the same [start] and [end_], [offsetInfo] and [writeOffsets]
    choose the same width, the spec's function of [end_ - start]: 1 up to
    0xFF, 2 up to 0xFFFF, 4 up to 0xFFFFFFFF, and the out-of-range error
    beyond; one byte more than 0xFF, 0xFFFF or 0xFFFFFFFF takes the next
    step.  (The callers do not give them the same [end_], see below.) *)
Lemma cell_width_of_bounds :
  forall (buf : buffer) (offs : list Z) (start end_ : Z),
    read_width buf start end_ =
      match spec_cell_width (end_ - start) with
      | Some w => Ok w
      | None => Throw RangeError_offset
      end
    /\ writeOffsets buf offs start end_ =
      match spec_cell_width (end_ - start) with
      | Some w => Ok (buf ++ cells w offs)
      | None => Throw RangeError_offset
      end
    /\ read_width buf start (start + 0xFF) = Ok 1
    /\ read_width buf start (start + 0x100) = Ok 2
    /\ read_width buf start (start + 0xFFFF) = Ok 2
    /\ read_width buf start (start + 0x10000) = Ok 4
    /\ read_width buf start (start + 0xFFFFFFFF) = Ok 4
    /\ read_width buf start (start + 0x100000000) = Throw RangeError_offset
    /\ writeOffsets buf offs start (start + 0xFF) = Ok (buf ++ cells 1 offs)
    /\ writeOffsets buf offs start (start + 0x100) = Ok (buf ++ cells 2 offs)
    /\ writeOffsets buf offs start (start + 0xFFFF) = Ok (buf ++ cells 2 offs)
    /\ writeOffsets buf offs start (start + 0x10000) = Ok (buf ++ cells 4 offs)
    /\ writeOffsets buf offs start (start + 0xFFFFFFFF) = Ok (buf ++ cells 4 offs)
    /\ writeOffsets buf offs start (start + 0x100000000) = Throw RangeError_offset.
Proof.
  intros buf offs start end_.
  split; [apply offsetInfo_width|].
  split; [apply writeOffsets_width|].
  repeat split;
    rewrite ?offsetInfo_width, ?writeOffsets_width;
    match goal with
    | |- context [spec_cell_width (start + ?c - start)] =>
        replace (start + c - start) with c by lia
    end; reflexivity.
Qed.

(** C6.  The width of the offset cells of a frame is not chosen
    identically on write and on read.  [writeOffsets] and [offsetInfo] both
    take it from [end - start], but the writers call [writeOffsets] with the
    length of the frame before the table is appended (the tuple writer with
    [start] and [buf.length]), while the readers call [offsetInfo] with the
    frame that holds the table.  For the tuple [(ss)] of a text of 253
    letters and the empty text, the elements take 255 bytes and the end of
    the first text, 254, is written as one cell of 1 byte; the frame then
    has 256 bytes, for which the width is 2, the reader takes the offsets
    for cells of 2 bytes, and [parse] raises. *)
Theorem C6_cell_width_differs_on_write_and_read :
  blength (repeat x61 253 ++ [x00; x00]) = 255
  /\ writeOffsets (repeat x61 253 ++ [x00; x00]) [254]
                  0 (blength (repeat x61 253 ++ [x00; x00]))
     = Ok ((repeat x61 253 ++ [x00; x00]) ++ cells 1 [254])
  /\ serialize (str "(ss)") (VSeq [VStr (repeat 97 253); VStr []])
     = Ok ((repeat x61 253 ++ [x00; x00]) ++ cells 1 [254])
  /\ blength ((repeat x61 253 ++ [x00; x00]) ++ cells 1 [254]) = 256
  /\ spec_cell_width 256 = Some 2
  /\ read_width ((repeat x61 253 ++ [x00; x00]) ++ cells 1 [254])
                0 (blength ((repeat x61 253 ++ [x00; x00]) ++ cells 1 [254]))
     = Ok 2
  /\ parse (str "(ss)") ((repeat x61 253 ++ [x00; x00]) ++ cells 1 [254])
     = Throw RangeError_index.
Proof.
  split; [reflexivity|].
  split; [rewrite writeOffsets_width; reflexivity|].
  split; [vm_compute; reflexivity|].
  split; [reflexivity|].
  split; [reflexivity|].
  split; [rewrite offsetInfo_width; reflexivity|].
  vm_compute. reflexivity.
Qed.

(** ** The public operations at concrete inputs *)

(** C1.  Serialize followed by parse is not the identity on the code: the
    fixed size of the tuple [(iy)] is computed as 5, without the padding to
    its alignment 4 that the array writer inserts between elements, so the
    13 bytes written for two elements are no multiple of 5 and read back as
    the empty sequence. *)
Theorem C1_roundtrip_a_iy :
  serialize (str "a(iy)") (VSeq [VSeq [VNum 1; VNum 2]; VSeq [VNum 3; VNum 4]])
  = Ok [x01; x00; x00; x00; x02; x00; x00; x00; x03; x00; x00; x00; x04]
  /\ parse (str "a(iy)")
           [x01; x00; x00; x00; x02; x00; x00; x00; x03; x00; x00; x00; x04]
     = Ok (VSeq [])
  /\ fixedSize (TTuple (str "(iy)") [TInt32; TByte]) = Some 5.
Proof. repeat split; vm_compute; reflexivity. Qed.

(** The same failure through the empty tuple: [m()] writes nothing for
    [Just []], which reads back as [null]. *)
Lemma roundtrip_maybe_unit :
  serialize (str "m()") (VSeq []) = Ok []
  /\ parse (str "m()") [] = Ok VNull.
Proof. split; vm_compute; reflexivity. Qed.

(** C2.  Decoding is not total on the code: a variant frame whose
    signature part is no signature makes [parse] raise the TypeError of
    [parseType] (here the empty frame, whose signature is the empty string),
    and an offset that points outside the buffer makes the buffer read
    raise a RangeError. *)
Theorem C2_parse_raises :
  parse (str "v") [] = Throw (TypeError_invalid [])
  /\ parse (str "v") [x7a] = Throw (TypeError_invalid (str "z"))
  /\ parse (str "(ss)") [] = Throw RangeError_index.
Proof. repeat split; vm_compute; reflexivity. Qed.

(** C3.  A variant frame without a 0x00 byte is not read as the default
    [{ type: "()", value: [] }]: the whole frame is taken as the signature
    and the value is parsed from [buf.slice(start, start - 1)]. *)
Theorem C3_variant_without_nul :
  existsb (fun b => byte_val b =? 0) [x69] = false
  /\ parse (str "v") [x69] = Ok (VVariant (str "i") (VNum 0))
  /\ existsb (fun b => byte_val b =? 0) [x61; x79] = false
  /\ parse (str "v") [x61; x79] = Ok (VVariant (str "ay") (VSeq [VNum 97]))
  /\ defaultValue TVariant = VVariant (str "()") (VSeq []).
Proof. repeat split; vm_compute; reflexivity. Qed.

(** C4.  On the code the empty tuple serializes to no byte at all (the
    tuple writer has no element to write and no offset); every one-byte
    sequence parses to [[]]. *)
Theorem C4_empty_tuple :
  serialize (str "()") (VSeq []) = Ok []
  /\ fixedSize (TTuple (str "()") []) = Some 1
  /\ forall b : byte, parse (str "()") [b] = Ok (VSeq []).
Proof.
  split; [vm_compute; reflexivity|].
  split; [reflexivity|].
  intros b. reflexivity.
Qed.

(** C7.  [parseType] accepts signatures that are no signatures: the
    dict-entry case never looks at the closing brace, so a missing brace
    and any character in its place pass; [parse] and [serialize] then run
    on the descriptor. *)
Theorem C7_parseType_accepts_malformed :
  parseType (str "{si") = Ok (TDictEntry (str "{si") (TString (str "s")) TInt32)
  /\ parseType (str "{siX") = Ok (TDictEntry (str "{siX") (TString (str "s")) TInt32)
  /\ parseType (str "a{si") = Ok (TArray (str "a{si")
                                     (TDictEntry (str "{si") (TString (str "s")) TInt32))
  /\ parse (str "{si") [x61; x00; x00; x00; x01; x00; x00; x00; x02]
     = Ok (VSeq [VStr (str "a"); VNum 1])
  /\ serialize (str "{si") (VSeq [VStr (str "a"); VNum 1])
     = Ok [x61; x00; x00; x00; x01; x00; x00; x00; x02].
Proof. repeat split; vm_compute; reflexivity. Qed.

(** The malformed signatures the code does reject. *)
Lemma parseType_rejects :
  parseType (str "") = Throw (TypeError_invalid (str ""))
  /\ parseType (str "z") = Throw (TypeError_invalid (str "z"))
  /\ parseType (str "ii") = Throw (TypeError_invalid (str "ii"))
  /\ parseType (str "m") = Throw TypeError_undefined
  /\ parseType (str "(i") = Throw TypeError_undefined
  /\ parseType (str "{s") = Throw TypeError_undefined
  /\ parseType (str "a") = Throw TypeError_undefined.
Proof. repeat split; vm_compute; reflexivity. Qed.

(** ** Booleans *)

(** C9.  [parse("b", data)] is [true] exactly when [data] is one byte other
    than 0x00; it is [false] for the byte 0x00 and for every input of
    another length. *)
Theorem C9_boolean (data : buffer) :
  parse (str "b") data =
  Ok (VBool match data with
            | [b] => negb (Byte.eqb b x00)
            | _ => false
            end).
Proof.
  destruct data as [|b [|c rest]].
  - reflexivity.
  - destruct b; reflexivity.
  - unfold parse. cbn [parse_fuel].
    change (parseType (str "b")) with (Ok TBoolean).
    cbn [bind read].
    replace (blength (b :: c :: rest) - 0 =? 1) with false; [reflexivity|].
    symmetry. apply Z.eqb_neq. unfold blength. cbn [length]. lia.
Qed.

(** ** Arrays of dict-entries *)

(** C10.  For an array whose element is a fixed-size dict-entry, the empty
    frame reads as the empty mapping, and a frame that is not empty and
    whose length is no multiple of the element's fixed size reads as the
    empty sequence. *)
Theorem C10_dict_array_shapes
  (parse_ : jsstring -> buffer -> result value) (id : jsstring) (element : gtype)
  (buf : buffer) (start end_ : Z)
  (Hdict : is_dict_entry element = true)
  (Hfixed : is_fixed element = true) :
  read parse_ (TArray id element) buf start start = Ok (VMap [])
  /\ (start <> end_ -> Z.rem (end_ - start) (fixed element) <> 0 ->
      read parse_ (TArray id element) buf start end_ = Ok (VSeq [])).
Proof.
  split.
  - cbn [read]. rewrite Z.eqb_refl, Hdict. reflexivity.
  - intros Hne Hrem. cbn [read].
    destruct (start =? end_) eqn:E; [apply Z.eqb_eq in E; contradiction|].
    rewrite Hfixed.
    destruct (Z.rem (end_ - start) (fixed element) =? 0) eqn:R;
      [apply Z.eqb_eq in R; contradiction|].
    reflexivity.
Qed.

Lemma C10_dict_array_shapes_witness :
  parseType (str "a{yy}")
  = Ok (TArray (str "a{yy}") (TDictEntry (str "{yy}") TByte TByte))
  /\ parse (str "a{yy}") [] = Ok (VMap [])
  /\ read (parse_fuel 1) (TArray (str "a{yy}") (TDictEntry (str "{yy}") TByte TByte))
          [x01] 0 0 = Ok (VMap [])
  /\ read (parse_fuel 1) (TArray (str "a{yy}") (TDictEntry (str "{yy}") TByte TByte))
          [x01] 0 1 = Ok (VSeq []).
Proof.
  split; [vm_compute; reflexivity|].
  split; [vm_compute; reflexivity|].
  pose proof (C10_dict_array_shapes (parse_fuel 1) (str "a{yy}")
                (TDictEntry (str "{yy}") TByte TByte) [x01] 0 1
                eq_refl eq_refl) as [H0 H1].
  split; [exact H0|].
  apply H1; [lia | vm_compute; discriminate].
Defined.

(** ** Text *)

Lemma byte_val_range (b : byte) : 0 <= byte_val b <= 255.
Proof. destruct b; vm_compute; split; discriminate. Qed.

Lemma byte_val_zero (b : byte) : byte_val b = 0 -> b = x00.
Proof. destruct b; vm_compute; intros H; try discriminate H; reflexivity. Qed.

Lemma utf8_lead_inv (b : byte) :
  utf8_inv (snd (utf8_lead (byte_val b))) = true
  /\ (negb (byte_val b =? 0) = true -> no_nul (fst (utf8_lead (byte_val b))) = true).
Proof. destruct b; vm_compute; split; trivial. Qed.

Lemma continuation_bits (b : byte) :
  0x80 < byte_val b -> byte_val b <= 0xBF -> Z.land (byte_val b) 0x3F <> 0.
Proof.
  destruct b; vm_compute; intros H1 H2; try discriminate;
    try (exfalso; apply H1; reflexivity); try (exfalso; apply H2; reflexivity).
Qed.

Lemma units_of_code_point_no_nul (c : Z) :
  0 < c -> no_nul (units_of_code_point c) = true.
Proof.
  intros Hc. unfold units_of_code_point, no_nul.
  destruct (c <? 0x10000) eqn:E; cbn [forallb].
  - replace (c =? 0) with false by (symmetry; apply Z.eqb_neq; lia). reflexivity.
  - apply Z.ltb_ge in E.
    assert (0 <= Z.shiftr (c - 0x10000) 10) by (apply Z.shiftr_nonneg; lia).
    assert (0 <= Z.land (c - 0x10000) 0x3FF) by (apply Z.land_nonneg; lia).
    replace (0xD800 + Z.shiftr (c - 0x10000) 10 =? 0) with false
      by (symmetry; apply Z.eqb_neq; lia).
    replace (0xDC00 + Z.land (c - 0x10000) 0x3FF =? 0) with false
      by (symmetry; apply Z.eqb_neq; lia).
    reflexivity.
Qed.

Lemma utf8_step_inv (st : utf8_state) (b : byte) :
  utf8_inv st = true ->
  utf8_inv (snd (utf8_step st (byte_val b))) = true
  /\ (negb (byte_val b =? 0) = true -> no_nul (fst (utf8_step st (byte_val b))) = true).
Proof.
  intros Hinv. unfold utf8_step.
  destruct (needed st) as [|n] eqn:En.
  - apply utf8_lead_inv.
  - unfold utf8_inv in Hinv. rewrite En in Hinv.
    apply andb_prop in Hinv as [Hinv Hpos].
    apply andb_prop in Hinv as [Hinv Hcp].
    apply andb_prop in Hinv as [Hlo Hup].
    apply Z.leb_le in Hlo, Hup, Hcp.
    destruct ((lower st <=? byte_val b) && (byte_val b <=? upper st)) eqn:Er.
    + apply andb_prop in Er as [Er1 Er2]. apply Z.leb_le in Er1, Er2.
      assert (Hc : 0 < Z.lor (Z.shiftl (cp st) 6) (Z.land (byte_val b) 0x3F)).
      { assert (H1 : 0 <= Z.shiftl (cp st) 6) by (apply Z.shiftl_nonneg; lia).
        assert (H2 : 0 <= Z.land (byte_val b) 0x3F) by (apply Z.land_nonneg; lia).
        assert (H3 : 0 <= Z.lor (Z.shiftl (cp st) 6) (Z.land (byte_val b) 0x3F))
          by (apply Z.lor_nonneg; split; assumption).
        assert (H4 : Z.lor (Z.shiftl (cp st) 6) (Z.land (byte_val b) 0x3F) <> 0).
        { intros H0. apply Z.lor_eq_0_iff in H0 as [Ha Hb].
          apply orb_prop in Hpos as [Hpos | Hpos].
          - apply Z.ltb_lt in Hpos. rewrite Z.shiftl_mul_pow2 in Ha by lia. lia.
          - apply Z.ltb_lt in Hpos.
            apply (continuation_bits b); [lia | lia | exact Hb]. }
        lia. }
      destruct n as [|n'].
      * cbn [fst snd]. split; [reflexivity|].
        intros _. apply units_of_code_point_no_nul. exact Hc.
      * cbn [fst snd]. split; [|reflexivity].
        unfold utf8_inv. cbn [needed lower upper cp].
        replace (0 <? Z.lor (Z.shiftl (cp st) 6) (Z.land (byte_val b) 63)) with true
          by (symmetry; apply Z.ltb_lt; exact Hc).
        replace (0 <=? Z.lor (Z.shiftl (cp st) 6) (Z.land (byte_val b) 63)) with true
          by (symmetry; apply Z.leb_le; lia).
        reflexivity.
    + destruct (utf8_lead_inv b) as [H1 H2].
      destruct (utf8_lead (byte_val b)) as [out st'] eqn:El. cbn [fst snd] in *.
      split; [exact H1|].
      intros Hb. unfold no_nul. cbn [forallb]. apply H2. exact Hb.
Qed.

(** A 0x00 byte ends whatever sequence is pending and decodes to U+0000,
    leaving the decoder in its initial state. *)
Lemma utf8_step_nul (st : utf8_state) :
  utf8_inv st = true ->
  utf8_step st 0 = (utf8_flush st ++ [0], utf8_init).
Proof.
  intros Hinv. unfold utf8_step, utf8_flush.
  destruct (needed st) as [|n] eqn:En; [reflexivity|].
  unfold utf8_inv in Hinv. rewrite En in Hinv.
  apply andb_prop in Hinv as [Hinv _].
  apply andb_prop in Hinv as [Hinv _].
  apply andb_prop in Hinv as [Hlo _]. apply Z.leb_le in Hlo.
  replace (lower st <=? 0) with false by (symmetry; apply Z.leb_gt; lia).
  reflexivity.
Qed.

Lemma no_nul_app (a b : jsstring) :
  no_nul (a ++ b) = no_nul a && no_nul b.
Proof. apply forallb_app. Qed.

Lemma utf8_flush_no_nul (st : utf8_state) : no_nul (utf8_flush st) = true.
Proof. unfold utf8_flush. destruct (needed st); reflexivity. Qed.

Lemma utf8_run_no_nul (bs : list byte) :
  forall st, utf8_inv st = true -> no_nul_byte bs = true ->
             no_nul (utf8_run st bs) = true.
Proof.
  induction bs as [|b bs IH]; intros st Hinv Hbs; cbn [utf8_run].
  - apply utf8_flush_no_nul.
  - cbn [no_nul_byte forallb] in Hbs. apply andb_prop in Hbs as [Hb Hbs].
    destruct (utf8_step_inv st b Hinv) as [H1 H2].
    destruct (utf8_step st (byte_val b)) as [out st'] eqn:Es. cbn [fst snd] in *.
    rewrite no_nul_app, (H2 Hb). cbn [andb]. apply IH; assumption.
Qed.

Lemma utf8_run_split (a b : list byte) :
  forall st, utf8_inv st = true ->
             utf8_run st (a ++ x00 :: b) = utf8_run st a ++ 0 :: utf8_run utf8_init b.
Proof.
  induction a as [|x a IH]; intros st Hinv.
  - cbn [app utf8_run]. change (byte_val x00) with 0.
    rewrite (utf8_step_nul st Hinv). now rewrite <- app_assoc.
  - cbn [app utf8_run].
    destruct (utf8_step_inv st x Hinv) as [H1 _].
    destruct (utf8_step st (byte_val x)) as [out st'] eqn:Es. cbn [snd] in H1.
    rewrite (IH st' H1). now rewrite app_assoc.
Qed.

Lemma until_nul_no_nul (s : jsstring) : no_nul s = true -> until_nul s = s.
Proof.
  induction s as [|u s IH]; [reflexivity|].
  cbn [no_nul forallb until_nul]. intros H. apply andb_prop in H as [Hu Hs].
  destruct (u =? 0); [discriminate Hu|]. f_equal. apply IH. exact Hs.
Qed.

Lemma until_nul_app (s t : jsstring) :
  no_nul s = true -> until_nul (s ++ 0 :: t) = s.
Proof.
  induction s as [|u s IH]; [reflexivity|].
  cbn [no_nul forallb until_nul app]. intros H. apply andb_prop in H as [Hu Hs].
  destruct (u =? 0); [discriminate Hu|]. f_equal. apply IH. exact Hs.
Qed.

Lemma bytes_until_nul_split (bs : list byte) :
  no_nul_byte (bytes_until_nul bs) = true
  /\ (bs = bytes_until_nul bs
      \/ exists rest, bs = bytes_until_nul bs ++ x00 :: rest).
Proof.
  induction bs as [|b bs [IH1 IH2]]; cbn [bytes_until_nul].
  - split; [reflexivity | left; reflexivity].
  - destruct (byte_val b =? 0) eqn:E.
    + split; [reflexivity|]. right. exists bs.
      apply Z.eqb_eq in E. apply byte_val_zero in E. now subst b.
    + split.
      * cbn [no_nul_byte forallb]. rewrite E. exact IH1.
      * destruct IH2 as [IH2 | [rest IH2]].
        -- left. now rewrite <- IH2.
        -- right. exists rest. cbn [app]. now rewrite <- IH2.
Qed.

(** Cutting the decoded text at its first U+0000 is decoding the bytes
    before the first 0x00 byte. *)
Lemma until_nul_utf8_decode (bs : list byte) :
  until_nul (utf8_decode bs) = utf8_decode (bytes_until_nul bs).
Proof.
  unfold utf8_decode.
  destruct (bytes_until_nul_split bs) as [Hn [He | [rest He]]].
  - rewrite <- He. apply until_nul_no_nul.
    apply utf8_run_no_nul; [reflexivity | now rewrite He].
  - rewrite He at 1. rewrite utf8_run_split by reflexivity.
    apply until_nul_app. apply utf8_run_no_nul; [reflexivity | exact Hn].
Qed.

Lemma window_frame (buf : buffer) (start end_ : Z) :
  0 <= start -> end_ <= blength buf -> window buf start end_ = frame_bytes buf start end_.
Proof.
  intros H1 H2. unfold window, frame_bytes.
  now rewrite Z.max_l, Z.min_l by lia.
Qed.

(** *** The decoder undoes the encoder *)

Lemma byte_val_byte_of (z : Z) : byte_val (byte_of z) = z mod 256.
Proof.
  unfold byte_val, byte_of.
  pose proof (Z.mod_pos_bound z 256 eq_refl) as Hb.
  destruct (Byte.of_N (Z.to_N (z mod 256))) as [b|] eqn:E.
  - apply Byte.to_of_N in E. rewrite E. apply Z2N.id. lia.
  - apply Byte.of_N_None_iff in E. lia.
Qed.

Lemma land_low (x : Z) :
  Z.land x 0x3F = x mod 64 /\ Z.land x 0x1F = x mod 32 /\ Z.land x 0xF = x mod 16
  /\ Z.land x 0x7 = x mod 8 /\ Z.land x 0x3FF = x mod 1024.
Proof.
  change 0x3F with (Z.ones 6). change 0x1F with (Z.ones 5). change 0xF with (Z.ones 4).
  change 0x7 with (Z.ones 3). change 0x3FF with (Z.ones 10).
  rewrite !Z.land_ones by lia. repeat split; reflexivity.
Qed.

Lemma shiftr_div (x : Z) :
  Z.shiftr x 6 = x / 64 /\ Z.shiftr x 12 = x / 4096 /\ Z.shiftr x 18 = x / 262144
  /\ Z.shiftr x 10 = x / 1024.
Proof.
  rewrite !Z.shiftr_div_pow2 by lia. repeat split; reflexivity.
Qed.

Lemma lor_shift6 (a m : Z) : 0 <= m < 64 -> Z.lor (Z.shiftl a 6) m = a * 64 + m.
Proof.
  intros Hm.
  assert (Hland : Z.land (Z.shiftl a 6) m = 0).
  { rewrite <- (Z.mod_small m 64) by lia. change 64 with (2 ^ 6).
    rewrite <- (Z.land_ones m) by lia. rewrite (Z.land_comm m), Z.land_assoc.
    rewrite (Z.land_ones (Z.shiftl a 6)) by lia.
    rewrite Z.shiftl_mul_pow2, Z.mod_mul by lia. apply Z.land_0_l. }
  pose proof (Z.add_lor_land (Z.shiftl a 6) m) as H.
  rewrite Hland in H. rewrite Z.shiftl_mul_pow2 in * by lia.
  change (2 ^ 6) with 64 in *. lia.
Qed.

Lemma utf8_lead_cases (b : Z) :
  (0 <= b <= 0x7F -> utf8_lead b = ([b], utf8_init))
  /\ (0xC2 <= b <= 0xDF ->
      utf8_lead b = ([], {| cp := b - 0xC0; needed := 1; lower := 0x80; upper := 0xBF |}))
  /\ (0xE0 <= b <= 0xEF ->
      utf8_lead b = ([], {| cp := b - 0xE0; needed := 2;
                            lower := if b =? 0xE0 then 0xA0 else 0x80;
                            upper := if b =? 0xED then 0x9F else 0xBF |}))
  /\ (0xF0 <= b <= 0xF4 ->
      utf8_lead b = ([], {| cp := b - 0xF0; needed := 3;
                            lower := if b =? 0xF0 then 0x90 else 0x80;
                            upper := if b =? 0xF4 then 0x8F else 0xBF |})).
Proof.
  unfold utf8_lead. destruct (land_low b) as (_ & -> & -> & -> & _).
  repeat split; intros Hb.
  - replace (b <=? 0x7F) with true by (symmetry; apply Z.leb_le; lia). reflexivity.
  - replace (b <=? 0x7F) with false by (symmetry; apply Z.leb_gt; lia).
    replace ((0xC2 <=? b) && (b <=? 0xDF)) with true
      by (symmetry; apply andb_true_iff; split; apply Z.leb_le; lia).
    replace (b mod 32) with (b - 0xC0) by (Z.div_mod_to_equations; lia). reflexivity.
  - replace (b <=? 0x7F) with false by (symmetry; apply Z.leb_gt; lia).
    replace ((0xC2 <=? b) && (b <=? 0xDF)) with false
      by (symmetry; apply andb_false_iff; right; apply Z.leb_gt; lia).
    replace ((0xE0 <=? b) && (b <=? 0xEF)) with true
      by (symmetry; apply andb_true_iff; split; apply Z.leb_le; lia).
    replace (b mod 16) with (b - 0xE0) by (Z.div_mod_to_equations; lia). reflexivity.
  - replace (b <=? 0x7F) with false by (symmetry; apply Z.leb_gt; lia).
    replace ((0xC2 <=? b) && (b <=? 0xDF)) with false
      by (symmetry; apply andb_false_iff; right; apply Z.leb_gt; lia).
    replace ((0xE0 <=? b) && (b <=? 0xEF)) with false
      by (symmetry; apply andb_false_iff; right; apply Z.leb_gt; lia).
    replace ((0xF0 <=? b) && (b <=? 0xF4)) with true
      by (symmetry; apply andb_true_iff; split; apply Z.leb_le; lia).
    replace (b mod 8) with (b - 0xF0) by (Z.div_mod_to_equations; lia). reflexivity.
Qed.

Lemma utf8_step_continue (st : utf8_state) (b : Z) (n : nat) :
  needed st = S n -> lower st <= b <= upper st -> 0x80 <= b <= 0xBF ->
  utf8_step st b =
  match n with
  | O => (units_of_code_point (cp st * 64 + (b - 128)), utf8_init)
  | S _ => ([], {| cp := cp st * 64 + (b - 128); needed := n;
                   lower := 0x80; upper := 0xBF |})
  end.
Proof.
  intros Hn Hb Hr. unfold utf8_step. rewrite Hn.
  replace ((lower st <=? b) && (b <=? upper st)) with true
    by (symmetry; apply andb_true_iff; split; apply Z.leb_le; lia).
  destruct (land_low b) as [-> _].
  rewrite lor_shift6 by (Z.div_mod_to_equations; lia).
  replace (b mod 64) with (b - 128) by (Z.div_mod_to_equations; lia).
  reflexivity.
Qed.

Lemma utf8_run_cons (st st' : utf8_state) (b : byte) (rest : list byte) (out : jsstring) :
  utf8_step st (byte_val b) = (out, st') ->
  utf8_run st (b :: rest) = out ++ utf8_run st' rest.
Proof. intros H. cbn [utf8_run]. rewrite H. reflexivity. Qed.

Lemma byte_val_byte_of_small (z : Z) : 0 <= z < 256 -> byte_val (byte_of z) = z.
Proof. intros H. rewrite byte_val_byte_of. apply Z.mod_small. exact H. Qed.

Lemma utf8_run_1 (b : Z) (rest : list byte) :
  0 <= b <= 0x7F ->
  utf8_run utf8_init (byte_of b :: rest) = b :: utf8_run utf8_init rest.
Proof.
  intros Hb. cbn [utf8_run]. rewrite byte_val_byte_of_small by lia.
  change (utf8_step utf8_init b) with (utf8_lead b).
  rewrite (proj1 (utf8_lead_cases b)) by lia. reflexivity.
Qed.

Lemma utf8_run_2 (b1 b2 : Z) (rest : list byte) :
  0xC2 <= b1 <= 0xDF -> 0x80 <= b2 <= 0xBF ->
  utf8_run utf8_init (byte_of b1 :: byte_of b2 :: rest)
  = units_of_code_point ((b1 - 0xC0) * 64 + (b2 - 128)) ++ utf8_run utf8_init rest.
Proof.
  intros H1 H2. cbn [utf8_run]. rewrite !byte_val_byte_of_small by lia.
  change (utf8_step utf8_init b1) with (utf8_lead b1).
  rewrite (proj1 (proj2 (utf8_lead_cases b1))) by lia. cbv iota beta. cbn [app].
  rewrite (utf8_step_continue _ b2 0) by (cbn [needed lower upper]; first [reflexivity | lia]).
  cbn [cp]. reflexivity.
Qed.

Lemma utf8_run_3 (b1 b2 b3 : Z) (rest : list byte) :
  0xE0 <= b1 <= 0xEF ->
  (if b1 =? 0xE0 then 0xA0 else 0x80) <= b2 <= (if b1 =? 0xED then 0x9F else 0xBF) ->
  0x80 <= b3 <= 0xBF ->
  utf8_run utf8_init (byte_of b1 :: byte_of b2 :: byte_of b3 :: rest)
  = units_of_code_point (((b1 - 0xE0) * 64 + (b2 - 128)) * 64 + (b3 - 128))
    ++ utf8_run utf8_init rest.
Proof.
  intros H1 H2 H3.
  assert (H2' : 0x80 <= b2 <= 0xBF)
    by (destruct (b1 =? 0xE0); destruct (b1 =? 0xED); lia).
  cbn [utf8_run]. rewrite !byte_val_byte_of_small by lia.
  change (utf8_step utf8_init b1) with (utf8_lead b1).
  rewrite (proj1 (proj2 (proj2 (utf8_lead_cases b1)))) by lia. cbv iota beta. cbn [app].
  rewrite (utf8_step_continue _ b2 1)
    by (cbn [needed lower upper]; first [reflexivity | lia]).
  cbv iota beta. cbn [app cp].
  rewrite (utf8_step_continue _ b3 0)
    by (cbn [needed lower upper]; first [reflexivity | lia]).
  cbn [cp]. reflexivity.
Qed.

Lemma utf8_run_4 (b1 b2 b3 b4 : Z) (rest : list byte) :
  0xF0 <= b1 <= 0xF4 ->
  (if b1 =? 0xF0 then 0x90 else 0x80) <= b2 <= (if b1 =? 0xF4 then 0x8F else 0xBF) ->
  0x80 <= b3 <= 0xBF -> 0x80 <= b4 <= 0xBF ->
  utf8_run utf8_init (byte_of b1 :: byte_of b2 :: byte_of b3 :: byte_of b4 :: rest)
  = units_of_code_point
      ((((b1 - 0xF0) * 64 + (b2 - 128)) * 64 + (b3 - 128)) * 64 + (b4 - 128))
    ++ utf8_run utf8_init rest.
Proof.
  intros H1 H2 H3 H4.
  assert (H2' : 0x80 <= b2 <= 0xBF)
    by (destruct (b1 =? 0xF0); destruct (b1 =? 0xF4); lia).
  cbn [utf8_run]. rewrite !byte_val_byte_of_small by lia.
  change (utf8_step utf8_init b1) with (utf8_lead b1).
  rewrite (proj2 (proj2 (proj2 (utf8_lead_cases b1)))) by lia. cbv iota beta. cbn [app].
  rewrite (utf8_step_continue _ b2 2)
    by (cbn [needed lower upper]; first [reflexivity | lia]).
  cbv iota beta. cbn [app cp].
  rewrite (utf8_step_continue _ b3 1)
    by (cbn [needed lower upper]; first [reflexivity | lia]).
  cbv iota beta. cbn [app cp].
  rewrite (utf8_step_continue _ b4 0)
    by (cbn [needed lower upper]; first [reflexivity | lia]).
  cbn [cp]. reflexivity.
Qed.

(** The decoder gives back the code point the encoder wrote, for every
    Unicode scalar value. *)
Lemma decode_code_point (c : Z) (rest : list byte) :
  0 <= c <= 0x10FFFF -> ~ (0xD800 <= c <= 0xDFFF) ->
  utf8_run utf8_init (utf8_bytes_of_code_point c ++ rest)
  = units_of_code_point c ++ utf8_run utf8_init rest.
Proof.
  intros Hc Hs. unfold utf8_bytes_of_code_point.
  destruct (land_low c) as (-> & _).
  destruct (land_low (Z.shiftr c 6)) as (-> & _).
  destruct (land_low (Z.shiftr c 12)) as (-> & _).
  destruct (shiftr_div c) as (-> & -> & -> & _).
  destruct (c <? 0x80) eqn:E1; [apply Z.ltb_lt in E1 | apply Z.ltb_ge in E1].
  { cbn [app]. rewrite utf8_run_1 by lia. unfold units_of_code_point.
    replace (c <? 0x10000) with true by (symmetry; apply Z.ltb_lt; lia). reflexivity. }
  destruct (c <? 0x800) eqn:E2; [apply Z.ltb_lt in E2 | apply Z.ltb_ge in E2].
  { cbn [app]. rewrite utf8_run_2 by (Z.div_mod_to_equations; lia).
    do 2 f_equal. Z.div_mod_to_equations. lia. }
  destruct (c <? 0x10000) eqn:E3; [apply Z.ltb_lt in E3 | apply Z.ltb_ge in E3].
  { cbn [app]. rewrite utf8_run_3.
    - do 2 f_equal. Z.div_mod_to_equations. lia.
    - Z.div_mod_to_equations. lia.
    - destruct (0xE0 + c / 4096 =? 0xE0) eqn:Ea;
        [apply Z.eqb_eq in Ea | apply Z.eqb_neq in Ea];
        (destruct (0xE0 + c / 4096 =? 0xED) eqn:Eb;
         [apply Z.eqb_eq in Eb | apply Z.eqb_neq in Eb]);
        Z.div_mod_to_equations; lia.
    - Z.div_mod_to_equations. lia. }
  cbn [app]. rewrite utf8_run_4.
  - do 2 f_equal. Z.div_mod_to_equations. lia.
  - Z.div_mod_to_equations. lia.
  - destruct (0xF0 + c / 262144 =? 0xF0) eqn:Ea;
      [apply Z.eqb_eq in Ea | apply Z.eqb_neq in Ea];
      (destruct (0xF0 + c / 262144 =? 0xF4) eqn:Eb;
       [apply Z.eqb_eq in Eb | apply Z.eqb_neq in Eb]);
      Z.div_mod_to_equations; lia.
  - Z.div_mod_to_equations. lia.
  - Z.div_mod_to_equations. lia.
Qed.

Lemma not_surrogate (u : Z) :
  is_high_surrogate u = false -> is_low_surrogate u = false ->
  ~ (0xD800 <= u <= 0xDFFF).
Proof.
  unfold is_high_surrogate, is_low_surrogate. intros Hh Hl.
  apply andb_false_iff in Hh. apply andb_false_iff in Hl.
  destruct Hh as [Hh | Hh]; destruct Hl as [Hl | Hl];
    apply Z.leb_gt in Hh; apply Z.leb_gt in Hl; lia.
Qed.

Lemma utf8_roundtrip_bounded (n : nat) :
  forall s, (length s <= n)%nat -> well_formed s = true ->
            utf8_run utf8_init (utf8_encode s) = s.
Proof.
  induction n as [|n IH]; intros s Hl Hwf.
  - destruct s; [reflexivity | cbn in Hl; lia].
  - destruct s as [|u rest]; [reflexivity|].
    cbn [well_formed utf8_encode] in *.
    destruct (is_high_surrogate u) eqn:Ehi.
    + destruct rest as [|lo rest']; [discriminate Hwf|].
      apply andb_true_iff in Hwf. destruct Hwf as [Elo Hwf]. rewrite Elo.
      unfold is_high_surrogate in Ehi. unfold is_low_surrogate in Elo.
      apply andb_true_iff in Ehi. destruct Ehi as [Eh1 Eh2].
      apply andb_true_iff in Elo. destruct Elo as [El1 El2].
      apply Z.leb_le in Eh1, Eh2, El1, El2.
      rewrite decode_code_point by lia.
      rewrite IH; [|cbn [length] in Hl; lia | exact Hwf].
      unfold units_of_code_point.
      replace (0x10000 + (u - 0xD800) * 0x400 + (lo - 0xDC00) <? 0x10000) with false
        by (symmetry; apply Z.ltb_ge; lia).
      destruct (shiftr_div (0x10000 + (u - 0xD800) * 0x400 + (lo - 0xDC00) - 0x10000))
        as (_ & _ & _ & ->).
      destruct (land_low (0x10000 + (u - 0xD800) * 0x400 + (lo - 0xDC00) - 0x10000))
        as (_ & _ & _ & _ & ->).
      cbn [app]. f_equal; [|f_equal]; Z.div_mod_to_equations; lia.
    + apply andb_true_iff in Hwf. destruct Hwf as [Hwf Hrest].
      apply andb_true_iff in Hwf. destruct Hwf as [Hwf Hhi].
      apply andb_true_iff in Hwf. destruct Hwf as [Hlow Hlo].
      apply negb_true_iff in Hlow. rewrite Hlow.
      apply Z.leb_le in Hlo. apply Z.ltb_lt in Hhi.
      rewrite decode_code_point; [|lia | exact (not_surrogate u Ehi Hlow)].
      rewrite IH; [|cbn [length] in Hl; lia | exact Hrest].
      unfold units_of_code_point.
      replace (u <? 0x10000) with true by (symmetry; apply Z.ltb_lt; lia).
      reflexivity.
Qed.

(** The UTF-8 decoding of the UTF-8 encoding of a string without
    unpaired surrogate is the string. *)
Lemma utf8_roundtrip (s : jsstring) :
  well_formed s = true -> utf8_decode (utf8_encode s) = s.
Proof. apply (utf8_roundtrip_bounded (length s)). lia. Qed.

(** C8.  For the types [s], [o] and [g] and every frame [start, end) of the
    buffer: the reader returns the empty string when the frame is empty or
    its last byte is not 0x00; otherwise it returns the UTF-8 decoding of
    the bytes of [start, end - 1) that come before the first 0x00 byte (all
    of them when there is none).  The decoding is that of UTF-8: it undoes
    the UTF-8 encoding of every string without unpaired surrogate; the
    sequences of one, two, three and four bytes of [h], U+00E9, U+20AC and
    U+1F600 are decoded to these characters, the last as its surrogate
    pair; and a byte that starts no sequence, or a sequence cut short, is
    decoded to U+FFFD. *)
Theorem C8_text_read (sig : string) (parse_ : jsstring -> buffer -> result value)
  (buf : buffer) (start end_ : Z)
  (Hsig : sig = "s"%string \/ sig = "o"%string \/ sig = "g"%string)
  (Hframe : 0 <= start <= end_ /\ end_ <= blength buf) :
  (exists ty : gtype,
      parseType (str sig) = Ok ty
      /\ read parse_ ty buf start end_ =
         Ok (VStr (if (start =? end_) || negb (byte_at buf (end_ - 1) =? 0)
                   then []
                   else utf8_decode
                          (bytes_until_nul (frame_bytes buf start (end_ - 1))))))
  /\ (forall s : jsstring, well_formed s = true -> utf8_decode (utf8_encode s) = s)
  /\ utf8_decode [x68; xc3; xa9; xe2; x82; xac; xf0; x9f; x98; x80]
     = [0x68; 0xE9; 0x20AC; 0xD83D; 0xDE00]
  /\ utf8_decode [xff; x41] = [0xFFFD; 0x41]
  /\ utf8_decode [xc3; x28] = [0xFFFD; 0x28]
  /\ utf8_decode [x41; xe2; x82] = [0x41; 0xFFFD].
Proof.
  split; [|split; [exact utf8_roundtrip | repeat split; vm_compute; reflexivity]].
  exists (TString (str sig)). split.
  { destruct Hsig as [-> | [-> | ->]]; vm_compute; reflexivity. }
  cbn [read defaultValue].
  destruct (start =? end_) eqn:E; [reflexivity|].
  apply Z.eqb_neq in E.
  unfold readUInt8, in_bounds.
  replace (0 <=? end_ - 1) with true by (symmetry; apply Z.leb_le; lia).
  replace (end_ - 1 + 1 <=? blength buf) with true by (symmetry; apply Z.leb_le; lia).
  cbn [andb bind orb].
  destruct (byte_at buf (end_ - 1) =? 0); cbn [negb]; [|reflexivity].
  rewrite window_frame by lia.
  now rewrite until_nul_utf8_decode.
Qed.

Lemma C8_text_read_witness :
  exists ty : gtype,
    parseType (str "s") = Ok ty
    /\ read (parse_fuel 0) ty
            [x68; xc3; xa9; xe2; x82; xac; xf0; x9f; x98; x80; x00; x62; x00; x63] 0 13
       = Ok (VStr [0x68; 0xE9; 0x20AC; 0xD83D; 0xDE00]).
Proof.
  destruct (C8_text_read "s" (parse_fuel 0)
              [x68; xc3; xa9; xe2; x82; xac; xf0; x9f; x98; x80; x00; x62; x00; x63] 0 13
              (or_introl eq_refl)
              (conj (conj (Z.le_refl 0) (Zle_bool_imp_le 0 13 eq_refl))
                    (Zle_bool_imp_le 13 14 eq_refl)))
    as [[ty [Hty Hread]] _].
  exists ty. split; [exact Hty|].
  rewrite Hread. vm_compute. reflexivity.
Defined.

(** ** The out-of-range error of the offset codec *)

Lemma offsetInfo_range_error (buf : buffer) (start end_ : Z) :
  offsetInfo buf start end_ = Throw RangeError_offset <-> max_offset < end_ - start.
Proof.
  unfold offsetInfo, max_offset.
  destruct (end_ - start <=? 0xff) eqn:H1.
  { apply Z.leb_le in H1. split; [discriminate | lia]. }
  destruct (end_ - start <=? 0xffff) eqn:H2.
  { apply Z.leb_le in H2. split; [discriminate | lia]. }
  destruct (end_ - start <=? 0xffffffff) eqn:H3.
  { apply Z.leb_le in H3. split; [discriminate | lia]. }
  apply Z.leb_gt in H3. split; [lia | reflexivity].
Qed.

Lemma writeOffsets_range_error (buf : buffer) (offs : list Z) (start end_ : Z) :
  writeOffsets buf offs start end_ = Throw RangeError_offset <-> max_offset < end_ - start.
Proof.
  unfold writeOffsets, max_offset.
  destruct (end_ - start <=? 0xff) eqn:H1.
  { apply Z.leb_le in H1. split; [discriminate | lia]. }
  destruct (end_ - start <=? 0xffff) eqn:H2.
  { apply Z.leb_le in H2. split; [discriminate | lia]. }
  destruct (end_ - start <=? 0xffffffff) eqn:H3.
  { apply Z.leb_le in H3. split; [discriminate | lia]. }
  apply Z.leb_gt in H3. split; [lia | reflexivity].
Qed.

(** A tuple with a variable-size element hands its frame to [offsetInfo]
    whatever the frame is. *)
Lemma read_tuple_too_long (parse_ : jsstring -> buffer -> result value)
      (id : jsstring) (elements : list gtype) (buf : buffer) (start end_ : Z) :
  is_fixed (TTuple id elements) = false ->
  max_offset < end_ - start ->
  read parse_ (TTuple id elements) buf start end_ = Throw RangeError_offset.
Proof.
  intros Hf Hl. cbn [read]. rewrite Hf. cbn [andb].
  rewrite (proj2 (offsetInfo_range_error buf start end_) Hl). reflexivity.
Qed.

Lemma blength_repeat (b : byte) (n : Z) :
  0 <= n -> blength (repeat b (Z.to_nat n)) = n.
Proof. intros Hn. unfold blength. rewrite repeat_length. apply Z2Nat.id. exact Hn. Qed.

Lemma parse_unfold (typestr : jsstring) (data : buffer) :
  parse typestr data =
  (type <- parseType typestr ;;
   read (parse_fuel (length data)) type data 0 (blength data)).
Proof. reflexivity. Qed.

Lemma parse_tuple_too_long (typestr id : jsstring) (elements : list gtype)
      (data : buffer) :
  parseType typestr = Ok (TTuple id elements) ->
  is_fixed (TTuple id elements) = false ->
  max_offset < blength data ->
  parse typestr data = Throw RangeError_offset.
Proof.
  intros Hty Hf Hl. rewrite parse_unfold, Hty. cbn [bind].
  apply read_tuple_too_long; [exact Hf | lia].
Qed.

(** The claim of C5 fails on the code: on a byte sequence of 2^32 bytes
    the read side of the offset codec raises its out-of-range error. *)
Lemma C5_read_raises_range_error :
  parse (str "(s)") (repeat x00 (Z.to_nat 4294967296)) = Throw RangeError_offset.
Proof.
  apply (parse_tuple_too_long (str "(s)") (str "(s)") [TString (str "s")]).
  - vm_compute. reflexivity.
  - vm_compute. reflexivity.
  - rewrite blength_repeat.
    + reflexivity.
    + discriminate.
Qed.

(** Induction on descriptors, through the elements of a tuple. *)
Lemma gtype_nested_ind (P : gtype -> Prop)
      (Hbyte : P TByte) (Hint16 : P TInt16) (Huint16 : P TUInt16)
      (Hint32 : P TInt32) (Huint32 : P TUInt32) (Hint64 : P TInt64)
      (Huint64 : P TUInt64) (Hdouble : P TDouble) (Hboolean : P TBoolean)
      (Hstring : forall id, P (TString id)) (Hvariant : P TVariant)
      (Hmaybe : forall id el, P el -> P (TMaybe id el))
      (Htuple : forall id els, Forall P els -> P (TTuple id els))
      (Hdict : forall id k v, P k -> P v -> P (TDictEntry id k v))
      (Harray : forall id el, P el -> P (TArray id el)) :
  forall ty, P ty.
Proof.
  fix IH 1. intros ty. destruct ty as [| | | | | | | | | id | | id el | id els | id k v | id el].
  - exact Hbyte.
  - exact Hint16.
  - exact Huint16.
  - exact Hint32.
  - exact Huint32.
  - exact Hint64.
  - exact Huint64.
  - exact Hdouble.
  - exact Hboolean.
  - apply Hstring.
  - exact Hvariant.
  - apply Hmaybe, IH.
  - apply Htuple. revert els. fix IHl 1. intros [|x xs].
    + constructor.
    + constructor; [apply IH | apply IHl].
  - apply Hdict; apply IH.
  - apply Harray, IH.
Qed.

Lemma fold_max_alignment_range (els : list gtype) :
  Forall (fun el => 1 <= alignment el <= 8) els ->
  forall a, 1 <= a <= 8 ->
            1 <= fold_left (fun a el => Z.max a (alignment el)) els a <= 8.
Proof.
  induction 1 as [|el els Hel _ IH]; intros a Ha; cbn [fold_left]; [exact Ha|].
  apply IH. lia.
Qed.

Lemma alignment_range (ty : gtype) : 1 <= alignment ty <= 8.
Proof.
  induction ty using gtype_nested_ind; cbn [alignment]; try lia.
  apply fold_max_alignment_range; [assumption | lia].
Qed.

Lemma align_ge (n size : Z) : 0 < size -> n <= align n size.
Proof.
  intros Hs. unfold align.
  assert (H1 : - size < Z.rem n size < size).
  { destruct (Z.le_gt_cases 0 n) as [Hn | Hn].
    - pose proof (Z.rem_bound_pos n size Hn Hs). lia.
    - pose proof (Z.rem_bound_pos_neg n size). lia. }
  pose proof (Z.rem_bound_pos (size - Z.rem n size) size). lia.
Qed.

Lemma align_le (n size : Z) : 0 <= n -> 0 < size -> align n size <= n + size - 1.
Proof.
  intros Hn Hs. unfold align.
  pose proof (Z.rem_bound_pos n size Hn Hs) as H1.
  pose proof (Z.rem_bound_pos (size - Z.rem n size) size) as H2.
  lia.
Qed.

Lemma safe_bind {A B : Type} (m : result A) (f : A -> result B) :
  offset_safe m -> (forall a, m = Ok a -> offset_safe (f a)) -> offset_safe (bind m f).
Proof.
  unfold offset_safe. intros Hm Hf. destruct m as [a | e | |]; cbn [bind].
  - apply Hf. reflexivity.
  - intros H. apply Hm. injection H as ->. reflexivity.
  - discriminate.
  - discriminate.
Qed.

Lemma readUInt8_safe (buf : buffer) (i : Z) : offset_safe (readUInt8 buf i).
Proof. unfold offset_safe, readUInt8. destruct (in_bounds buf i 1); discriminate. Qed.

Lemma readUInt16LE_safe (buf : buffer) (i : Z) : offset_safe (readUInt16LE buf i).
Proof. unfold offset_safe, readUInt16LE. destruct (in_bounds buf i 2); discriminate. Qed.

Lemma readUInt32LE_safe (buf : buffer) (i : Z) : offset_safe (readUInt32LE buf i).
Proof. unfold offset_safe, readUInt32LE. destruct (in_bounds buf i 4); discriminate. Qed.

Lemma byte_at_range (buf : buffer) (i : Z) : 0 <= byte_at buf i <= 255.
Proof. apply byte_val_range. Qed.

Lemma readUInt8_range (buf : buffer) (i v : Z) :
  readUInt8 buf i = Ok v -> 0 <= v <= 0xFF.
Proof.
  unfold readUInt8. destruct (in_bounds buf i 1); [|discriminate].
  intros H; injection H as <-. apply byte_at_range.
Qed.

Lemma readUInt16LE_range (buf : buffer) (i v : Z) :
  readUInt16LE buf i = Ok v -> 0 <= v <= 0xFFFF.
Proof.
  unfold readUInt16LE. destruct (in_bounds buf i 2); [|discriminate].
  intros H; injection H as <-.
  pose proof (byte_at_range buf i). pose proof (byte_at_range buf (i + 1)). lia.
Qed.

Lemma readUInt32LE_range (buf : buffer) (i v : Z) :
  readUInt32LE buf i = Ok v -> 0 <= v <= 0xFFFFFFFF.
Proof.
  unfold readUInt32LE. destruct (in_bounds buf i 4); [|discriminate].
  intros H; injection H as <-.
  pose proof (byte_at_range buf i). pose proof (byte_at_range buf (i + 1)).
  pose proof (byte_at_range buf (i + 2)). pose proof (byte_at_range buf (i + 3)). lia.
Qed.

(** What the readers use of the object [offsetInfo] returns for the frame
    starting at [start]: a positive cell size, and cells that decode to a
    position between [start] and [start + max_offset]. *)
Lemma offsetInfo_cells (buf : buffer) (start end_ : Z) (o : Offsets.t) :
  offsetInfo buf start end_ = Ok o ->
  0 < Offsets.size o
  /\ forall d, offset_safe (Offsets.read_at o d)
               /\ forall v, Offsets.read_at o d = Ok v -> start <= v <= start + max_offset.
Proof.
  unfold offsetInfo, max_offset.
  destruct (end_ - start <=? 0xff).
  { intros H; injection H as <-. cbn [Offsets.size Offsets.read_at].
    split; [lia|]. intros d. split.
    - apply safe_bind; [apply readUInt8_safe | discriminate].
    - intros v. destruct (readUInt8 buf (end_ + d)) as [x| | |] eqn:E; try discriminate.
      cbn [bind]. intros H; injection H as <-. apply readUInt8_range in E. lia. }
  destruct (end_ - start <=? 0xffff).
  { intros H; injection H as <-. cbn [Offsets.size Offsets.read_at].
    split; [lia|]. intros d. split.
    - apply safe_bind; [apply readUInt16LE_safe | discriminate].
    - intros v. destruct (readUInt16LE buf (end_ + d)) as [x| | |] eqn:E; try discriminate.
      cbn [bind]. intros H; injection H as <-. apply readUInt16LE_range in E. lia. }
  destruct (end_ - start <=? 0xffffffff); [|discriminate].
  intros H; injection H as <-. cbn [Offsets.size Offsets.read_at].
  split; [lia|]. intros d. split.
  - apply safe_bind; [apply readUInt32LE_safe | discriminate].
  - intros v. destruct (readUInt32LE buf (end_ + d)) as [x| | |] eqn:E; try discriminate.
    cbn [bind]. intros H; injection H as <-. apply readUInt32LE_range in E. lia.
Qed.

Lemma offsetInfo_safe (buf : buffer) (start end_ : Z) :
  end_ - start <= max_offset -> offset_safe (offsetInfo buf start end_).
Proof.
  intros H E. apply offsetInfo_range_error in E. lia.
Qed.

Lemma fold_add_aligned_None (els : list gtype) :
  fold_left (fun size el => add_aligned size (alignment el) (fixedSize el)) els None = None.
Proof. induction els as [|el els IH]; [reflexivity | exact IH]. Qed.

Lemma fold_add_aligned_nonneg (els : list gtype) :
  Forall (fun el => 0 <= fixed el) els ->
  forall acc r,
    0 <= acc ->
    fold_left (fun size el => add_aligned size (alignment el) (fixedSize el))
              els (Some acc) = Some r ->
    0 <= r.
Proof.
  induction 1 as [|el els Hel _ IH]; intros acc r Hacc; cbn [fold_left].
  - intros H; injection H as <-. exact Hacc.
  - unfold add_aligned at 2. unfold fixed in Hel.
    destruct (fixedSize el) as [f|].
    + apply IH. pose proof (align_ge acc (alignment el)).
      pose proof (alignment_range el). lia.
    + rewrite fold_add_aligned_None. discriminate.
Qed.

Lemma fixed_nonneg (ty : gtype) : 0 <= fixed ty.
Proof.
  induction ty using gtype_nested_ind; try (vm_compute; discriminate).
  - unfold fixed. cbn [fixedSize].
    destruct (fold_left _ els (Some 0)) as [r|] eqn:E; [|lia].
    apply (fold_add_aligned_nonneg els H) in E; [|lia].
    destruct r; lia.
  - unfold fixed in *. cbn [fixedSize]. unfold add_aligned.
    destruct (fixedSize ty1) as [fk|]; [|lia].
    destruct (fixedSize ty2) as [fv|]; [|lia].
    pose proof (align_ge fk (alignment ty2)). pose proof (alignment_range ty2). lia.
Qed.

Lemma fixed_le_max_fixed (ty : gtype) : fixed ty <= max_fixed ty.
Proof. destruct ty; cbn [max_fixed]; lia. Qed.

Lemma max_fixed_elements (els : list gtype) (B : Z) :
  fold_right (fun el m => Z.max (max_fixed el) m) 0 els <= B ->
  Forall (fun el => max_fixed el <= B) els.
Proof.
  induction els as [|el els IH]; cbn [fold_right]; intros H; constructor.
  - lia.
  - apply IH. lia.
Qed.

Lemma read_elements_safe (o : Offsets.t) (start end_ : Z) :
  0 < Offsets.size o ->
  (forall d, offset_safe (Offsets.read_at o d)
             /\ forall v, Offsets.read_at o d = Ok v -> start <= v <= start + max_offset) ->
  end_ - start <= max_offset ->
  forall els cur curOffset,
    Forall (fun er : gtype * (Z -> Z -> result value) =>
              fixed (fst er) <= max_offset
              /\ forall c n, n - c <= max_offset -> offset_safe (snd er c n)) els ->
    start <= cur -> curOffset <= 0 ->
    offset_safe (read_elements o end_ els cur curOffset).
Proof.
  intros Hsize Hcells Hframe els.
  induction els as [|[el rd] rest IH]; intros cur curOffset Hall Hcur Hco;
    cbn [read_elements]; [discriminate|].
  inversion Hall as [|? ? [Hfix Hrd] Hrest]; subst. cbn [fst snd] in *.
  pose proof (align_ge cur (alignment el)) as Hal.
  pose proof (alignment_range el) as Har.
  pose proof (fixed_nonneg el) as Hnn.
  destruct (is_fixed el).
  - cbn [bind]. apply safe_bind; [apply Hrd; lia|]. intros v _.
    apply safe_bind; [apply IH; [assumption | lia | assumption] | discriminate].
  - destruct rest as [|er rest'].
    + cbn [bind]. apply safe_bind; [apply Hrd; nia|]. intros v _.
      cbn [read_elements bind]. discriminate.
    + unfold Offsets.read.
      destruct (Hcells (Offsets.size o * (curOffset - 1))) as [Hs Hv].
      destruct (Offsets.read_at o (Offsets.size o * (curOffset - 1))) as [next| | |] eqn:E.
      * cbn [bind]. specialize (Hv next eq_refl).
        apply safe_bind; [apply Hrd; lia|]. intros v _.
        apply safe_bind; [apply IH; [assumption | lia | lia] | discriminate].
      * cbn [bind]. intros H. apply Hs. injection H as ->. reflexivity.
      * cbn [bind]. discriminate.
      * cbn [bind]. discriminate.
Qed.

Lemma array_fixed_safe (rd : Z -> Z -> result value) (fs : Z) :
  fs <= max_offset ->
  (forall c n, n - c <= max_offset -> offset_safe (rd c n)) ->
  forall n cur, offset_safe (array_fixed rd n cur fs).
Proof.
  intros Hfs Hrd n. induction n as [|n IH]; intros cur; cbn [array_fixed]; [discriminate|].
  apply safe_bind; [apply Hrd; lia|]. intros v _.
  apply safe_bind; [apply IH | discriminate].
Qed.

Lemma array_variable_safe (rd : Z -> Z -> result value) (o : Offsets.t)
      (al start k : Z) :
  0 < al ->
  (forall d, offset_safe (Offsets.read_at o d)
             /\ forall v, Offsets.read_at o d = Ok v -> start <= v <= start + max_offset) ->
  (forall c n, n - c <= max_offset -> offset_safe (rd c n)) ->
  forall count i cur, start <= cur -> offset_safe (array_variable rd o al count i k cur).
Proof.
  intros Hal Hcells Hrd count.
  induction count as [|count IH]; intros i cur Hcur; cbn [array_variable]; [discriminate|].
  destruct (Hcells (- k + Offsets.size o * i)) as [Hs Hv].
  apply safe_bind; [exact Hs|]. intros next Hnext. specialize (Hv next Hnext).
  apply safe_bind; [apply Hrd; lia|]. intros v _.
  apply safe_bind; [|discriminate].
  apply IH. pose proof (align_ge next al Hal). lia.
Qed.

Lemma obj_set_safe (o : list (jsstring * value)) (k : jsstring) (v : value) :
  offset_safe (obj_set o k v).
Proof.
  unfold offset_safe, obj_set.
  destruct (jsstring_eqb k (str "__proto__")); [discriminate|].
  destruct (obj_has o k); [discriminate|].
  destruct (array_index k); discriminate.
Qed.

Lemma to_property_key_safe (v : value) : offset_safe (to_property_key v).
Proof. unfold to_property_key. destruct (key_string v); discriminate. Qed.

Lemma to_object_safe (values : list value) :
  forall o, offset_safe (to_object values o).
Proof.
  induction values as [|x values IH]; intros o; cbn [to_object]; [discriminate|].
  destruct x as [| | | | | l | |]; try discriminate.
  destruct l as [|k [|v l']]; try discriminate.
  apply safe_bind; [apply to_property_key_safe|]. intros key _.
  apply safe_bind; [apply obj_set_safe|]. intros o' _. apply IH.
Qed.

Lemma variant_sep_safe (buf : buffer) (start : Z) (n : nat) :
  forall sep, offset_safe (variant_sep buf start n sep).
Proof.
  induction n as [|n IH]; intros sep; cbn [variant_sep]; [discriminate|].
  destruct (sep <? start); [discriminate|].
  apply safe_bind; [apply readUInt8_safe|]. intros b _.
  destruct (b =? 0); [discriminate | apply IH].
Qed.

Lemma window_length (buf : buffer) (start end_ : Z) :
  blength (window buf start end_) <= blength buf.
Proof.
  unfold window, blength. rewrite length_firstn, length_skipn. lia.
Qed.

Lemma slice_length (buf : buffer) (start end_ : Z) :
  blength (slice buf start end_) <= blength buf.
Proof.
  unfold slice, blength. rewrite length_firstn, length_skipn. lia.
Qed.

Lemma ascii_decode_length (bs : list byte) : jslength (ascii_decode bs) = blength bs.
Proof. unfold jslength, ascii_decode, blength. now rewrite length_map. Qed.

Ltac safe_leaf :=
  unfold offset_safe, readInt16LE, readInt32LE, readDoubleLE,
    readUInt8, readUInt16LE, readUInt32LE;
  repeat (match goal with
          | |- context [if ?c then _ else _] => destruct c
          end; cbn [bind]);
  discriminate.

(** A reader raises the out-of-range error of the offset codec only when
    a frame longer than [max_offset] reaches [offsetInfo]: it does not on a
    frame of at most [max_offset] bytes, under a descriptor without a
    larger fixed size, when [parse] does not on the slices of the buffer. *)
Lemma read_offset_safe (parse_ : jsstring -> buffer -> result value) (buf : buffer) :
  (forall t d, jslength t <= blength buf -> blength d <= blength buf ->
               offset_safe (parse_ t d)) ->
  forall ty start end_,
    max_fixed ty <= max_offset ->
    end_ - start <= max_offset ->
    offset_safe (read parse_ ty buf start end_).
Proof.
  intros Hparse ty.
  induction ty as [| | | | | | | | | id | | id el IH | id els IH | id k v IHk IHv | id el IH]
    using gtype_nested_ind;
    intros start end_ Hmax Hframe; cbn [read]; try safe_leaf.
  - (* variant *)
    apply safe_bind; [apply variant_sep_safe|]. intros sep _.
    apply safe_bind; [|discriminate].
    apply Hparse.
    + rewrite ascii_decode_length. apply window_length.
    + apply slice_length.
  - (* maybe *)
    cbn [max_fixed] in Hmax.
    destruct (start =? end_); [discriminate|].
    destruct (is_fixed el).
    + destruct (negb (end_ - start =? fixed el)); [discriminate|].
      apply IH; lia.
    + apply IH; lia.
  - (* tuple *)
    destruct (is_fixed (TTuple id els) && negb (end_ - start =? fixed (TTuple id els)));
      [discriminate|].
    apply safe_bind; [apply offsetInfo_safe; exact Hframe|]. intros o Ho.
    destruct (offsetInfo_cells _ _ _ _ Ho) as [Hsize Hcells].
    apply safe_bind; [|discriminate].
    apply (read_elements_safe o start end_ Hsize Hcells Hframe); [|lia|lia].
    apply Forall_map. cbn [max_fixed] in Hmax.
    assert (Hels : Forall (fun el => max_fixed el <= max_offset) els)
      by (apply max_fixed_elements; lia).
    rewrite Forall_forall in *. intros el Hin. cbn [fst snd]. split.
    + pose proof (fixed_le_max_fixed el). specialize (Hels el Hin). lia.
    + intros c n Hcn. apply IH; [exact Hin | apply Hels; exact Hin | exact Hcn].
  - (* dict-entry *)
    cbn [max_fixed] in Hmax.
    destruct (is_fixed (TDictEntry id k v)
              && negb (end_ - start =? fixed (TDictEntry id k v))); [discriminate|].
    apply safe_bind; [apply offsetInfo_safe; exact Hframe|]. intros o Ho.
    destruct (offsetInfo_cells _ _ _ _ Ho) as [Hsize Hcells].
    pose proof (fixed_le_max_fixed k) as Hfk. pose proof (fixed_nonneg k) as Hnk.
    pose proof (alignment_range v) as Hav.
    destruct (is_fixed k).
    + cbn [bind].
      apply safe_bind; [apply IHk; lia|]. intros x _.
      apply safe_bind; [|discriminate].
      apply IHv; [lia|]. pose proof (align_ge (start + fixed k) (alignment v)). lia.
    + unfold Offsets.read. destruct (Hcells (Offsets.size o * -1)) as [Hs Hv].
      destruct (Offsets.read_at o (Offsets.size o * -1)) as [keyEnd| | |] eqn:E.
      * cbn [bind]. specialize (Hv keyEnd eq_refl).
        apply safe_bind; [apply IHk; lia|]. intros x _.
        apply safe_bind; [|discriminate].
        apply IHv; [lia|]. pose proof (align_ge keyEnd (alignment v)). lia.
      * cbn [bind]. intros H. apply Hs. injection H as ->. reflexivity.
      * cbn [bind]. discriminate.
      * cbn [bind]. discriminate.
  - (* array *)
    cbn [max_fixed] in Hmax.
    pose proof (fixed_le_max_fixed el) as Hfe.
    pose proof (alignment_range el) as Hae.
    destruct (start =? end_); [discriminate|].
    apply safe_bind.
    + destruct (is_fixed el).
      * destruct (negb (Z.rem (end_ - start) (fixed el) =? 0)); [discriminate|].
        apply safe_bind; [|discriminate].
        apply array_fixed_safe; [lia|]. intros c n Hcn. apply IH; lia.
      * apply safe_bind; [apply offsetInfo_safe; exact Hframe|]. intros o Ho.
        destruct (offsetInfo_cells _ _ _ _ Ho) as [Hsize Hcells].
        unfold Offsets.read.
        apply safe_bind; [apply Hcells|]. intros first _.
        apply safe_bind; [|discriminate].
        apply (array_variable_safe _ o _ start); [lia | exact Hcells | | lia].
        intros c n Hcn. apply IH; lia.
    + intros [vs|] _; [|discriminate].
      destruct (is_dict_entry el); [|discriminate].
      apply safe_bind; [apply to_object_safe | discriminate].
Qed.

(** ** The signature parser *)

Ltac ascii_cases c := destruct c as [[] [] [] [] [] [] [] []].

Lemma sig_char_bounds (signature : jsstring) (index : Z) (c : ascii) :
  sig_char signature index = Some c -> 0 <= index < jslength signature.
Proof.
  unfold sig_char, charAt, jslength.
  destruct (index <? 0) eqn:E; [discriminate|]. apply Z.ltb_ge in E.
  destruct (nth_error signature (Z.to_nat index)) as [u|] eqn:En; [|discriminate].
  intros _. assert (Z.to_nat index < length signature)%nat
    by (apply nth_error_Some; rewrite En; discriminate).
  lia.
Qed.

(** One step of [nextType], read backwards from a descriptor. *)
Lemma nextType_fuel_inv (fuel : nat) (signature : jsstring) (index : Z) (ty : gtype) :
  nextType_fuel (S fuel) signature index = Ok (Some ty) ->
  0 <= index < jslength signature
  /\ (is_leaf signature index ty
      \/ (exists el,
             nextType_fuel fuel signature (index + 1) = Ok (Some el)
             /\ (ty = TMaybe (substr signature index (jslength (type_id el) + 1)) el
                 \/ ty = TArray (substr signature index (jslength (type_id el) + 1)) el))
      \/ (exists end_ els,
             tuple_elements fuel signature (index + 1) [] = Ok (end_, els)
             /\ ty = TTuple (strslice signature index (end_ + 1)) els)
      \/ (exists k v,
             nextType_fuel fuel signature (index + 1) = Ok (Some k)
             /\ nextType_fuel fuel signature (index + 1 + jslength (type_id k)) = Ok (Some v)
             /\ ty = TDictEntry
                       (substr signature index
                               (jslength (type_id k) + jslength (type_id v) + 2))
                       k v)).
Proof.
  cbn [nextType_fuel].
  destruct (sig_char signature index) as [c|] eqn:Ec; [|discriminate].
  intros H. split; [exact (sig_char_bounds _ _ _ Ec)|].
  ascii_cases c; cbv beta iota in H; try discriminate H;
    try (injection H as <-; left; exact I);
    try (injection H as <-; left; reflexivity);
    lazymatch type of H with
    | context [TTuple] =>
        right; right; left;
        destruct (tuple_elements fuel signature (index + 1) []) as [[e els]| | |];
        try discriminate H;
        cbn [bind] in H; injection H as <-; exists e, els; split; reflexivity
    | context [TArray] =>
        right; left;
        destruct (nextType_fuel fuel signature (index + 1)) as [[el|]| | |];
        try discriminate H;
        cbn [bind] in H; injection H as <-; exists el;
        split; [reflexivity | right; reflexivity]
    | context [TMaybe] =>
        right; left;
        destruct (nextType_fuel fuel signature (index + 1)) as [[el|]| | |];
        try discriminate H;
        cbn [bind] in H; injection H as <-; exists el;
        split; [reflexivity | left; reflexivity]
    | context [TDictEntry] =>
        right; right; right;
        destruct (nextType_fuel fuel signature (index + 1)) as [[k|]| | |];
        try discriminate H;
        cbn [bind] in H;
        destruct (nextType_fuel fuel signature (index + 1 + jslength (type_id k)))
          as [[v|]| | |] eqn:Ev; try discriminate H;
        cbn [bind] in H; injection H as <-; exists k, v;
        split; [reflexivity | split; [exact Ev | reflexivity]]
    end.
Qed.

(** One turn of the loop of the tuple case. *)
Lemma tuple_elements_inv (fuel : nat) (signature : jsstring) (end_ : Z)
      (elements : list gtype) (end' : Z) (elements' : list gtype) :
  tuple_elements (S fuel) signature end_ elements = Ok (end', elements') ->
  (sig_char signature end_ = Some ")"%char /\ end' = end_ /\ elements' = elements)
  \/ (exists el,
         nextType_fuel fuel signature end_ = Ok (Some el)
         /\ tuple_elements fuel signature (end_ + jslength (type_id el))
                           (elements ++ [el]) = Ok (end', elements')).
Proof.
  cbn [tuple_elements].
  assert (Hother :
            bind (nextType_fuel fuel signature end_)
                 (fun el => match el with
                            | None => Throw TypeError_undefined
                            | Some e => tuple_elements fuel signature
                                                       (end_ + jslength (type_id e))
                                                       (elements ++ [e])
                            end) = Ok (end', elements') ->
            exists el,
              nextType_fuel fuel signature end_ = Ok (Some el)
              /\ tuple_elements fuel signature (end_ + jslength (type_id el))
                                (elements ++ [el]) = Ok (end', elements')).
  { destruct (nextType_fuel fuel signature end_) as [[el|]| | |]; try discriminate.
    cbn [bind]. intros H. exists el. split; [reflexivity | exact H]. }
  destruct (sig_char signature end_) as [c|] eqn:Ec.
  - ascii_cases c; cbv beta iota; intros H; try (right; exact (Hother H)).
    left. injection H as <- <-. repeat split.
  - intros H. right. exact (Hother H).
Qed.

Lemma jslength_nonneg (s : jsstring) : 0 <= jslength s.
Proof. unfold jslength. lia. Qed.

Lemma substr_length (s : jsstring) (from len : Z) :
  0 <= from <= jslength s -> 0 <= len ->
  jslength (substr s from len) = Z.min len (jslength s - from).
Proof.
  unfold jslength, substr. intros H1 H2. rewrite length_firstn, length_skipn. lia.
Qed.

Lemma strslice_length (s : jsstring) (from to : Z) :
  0 <= from <= to -> to <= jslength s ->
  jslength (strslice s from to) = to - from.
Proof.
  unfold jslength, strslice. intros H1 H2. rewrite length_firstn, length_skipn. lia.
Qed.

Lemma ids_length_app (els : list gtype) (el : gtype) :
  ids_length (els ++ [el]) = ids_length els + jslength (type_id el).
Proof.
  unfold ids_length. induction els as [|x els IH]; cbn [app fold_right]; [lia|].
  rewrite IH. lia.
Qed.

Lemma ids_length_nonneg (els : list gtype) : 0 <= ids_length els.
Proof.
  unfold ids_length. induction els as [|x els IH]; cbn [fold_right]; [lia|].
  pose proof (jslength_nonneg (type_id x)). lia.
Qed.

Lemma tuple_fixed_bound (els : list gtype) :
  Forall (fun el => 1 <= jslength (type_id el)
                    /\ max_fixed el <= 16 * jslength (type_id el) - 8) els ->
  forall acc r,
    0 <= acc ->
    fold_left (fun size el => add_aligned size (alignment el) (fixedSize el))
              els (Some acc) = Some r ->
    r <= acc + 16 * ids_length els.
Proof.
  induction 1 as [|el els [Hid Hel] _ IH]; intros acc r Hacc; cbn [fold_left].
  - intros H; injection H as <-. unfold ids_length. cbn [fold_right]. lia.
  - unfold add_aligned at 2. pose proof (fixed_le_max_fixed el) as Hf.
    pose proof (fixed_nonneg el) as Hn. unfold fixed in Hf, Hn.
    destruct (fixedSize el) as [f|].
    + intros E. pose proof (alignment_range el) as Ha.
      pose proof (align_le acc (alignment el)) as Hle.
      pose proof (align_ge acc (alignment el)) as Hge.
      apply IH in E; [|lia].
      unfold ids_length in *. cbn [fold_right]. lia.
    + rewrite fold_add_aligned_None. discriminate.
Qed.

Lemma elements_max_fixed_bound (els : list gtype) :
  Forall (fun el => 1 <= jslength (type_id el)
                    /\ max_fixed el <= 16 * jslength (type_id el) - 8) els ->
  fold_right (fun el m => Z.max (max_fixed el) m) 0 els <= 16 * ids_length els.
Proof.
  induction 1 as [|el els [Hid Hel] _ IH].
  - unfold ids_length. cbn [fold_right]. lia.
  - pose proof (ids_length_nonneg els) as Hn.
    unfold ids_length in *. cbn [fold_right]. lia.
Qed.

(** Every descriptor [nextType] returns satisfies [desc_ok], and the loop
    of the tuple case stops on a [')'] after elements that do. *)
Lemma nextType_fuel_ok (fuel : nat) :
  (forall signature index ty,
      nextType_fuel fuel signature index = Ok (Some ty) -> desc_ok signature index ty)
  /\ (forall signature end_ elements end' elements',
         tuple_elements fuel signature end_ elements = Ok (end', elements') ->
         Forall (fun el => 1 <= jslength (type_id el)
                           /\ max_fixed el <= 16 * jslength (type_id el) - 8) elements ->
         Forall (fun el => 1 <= jslength (type_id el)
                           /\ max_fixed el <= 16 * jslength (type_id el) - 8) elements'
         /\ end' = end_ + (ids_length elements' - ids_length elements)
         /\ 0 <= end' < jslength signature).
Proof.
  induction fuel as [|fuel [IH1 IH2]]; [split; intros; discriminate|].
  split.
  - intros signature index ty H.
    apply nextType_fuel_inv in H as [Hidx [Hleaf | [Hun | [Htup | Hdict]]]].
    + unfold desc_ok.
      destruct ty; cbn [is_leaf] in Hleaf; try contradiction;
        try (cbn; lia).
      subst id. cbn [type_id max_fixed]. rewrite substr_length by lia.
      change (fixed (TString (substr signature index 1))) with 0. lia.
    + destruct Hun as [el [Hel Hty]]. apply IH1 in Hel as (H0 & H1 & H2 & H3).
      unfold desc_ok.
      destruct Hty as [-> | ->]; cbn [type_id max_fixed];
        rewrite substr_length by lia;
        [change (fixed (TMaybe (substr signature index (jslength (type_id el) + 1)) el))
           with 0
        |change (fixed (TArray (substr signature index (jslength (type_id el) + 1)) el))
           with 0]; lia.
    + destruct Htup as [e [els [Hels ->]]].
      apply IH2 in Hels as (Hall & He & Hb); [|constructor].
      change (ids_length []) with 0 in He.
      pose proof (ids_length_nonneg els) as Hn.
      unfold desc_ok. cbn [type_id max_fixed].
      rewrite strslice_length by lia.
      pose proof (elements_max_fixed_bound els Hall) as Hm.
      assert (Hf : fixed (TTuple (strslice signature index (e + 1)) els)
                   <= 16 * ids_length els + 1).
      { unfold fixed. cbn [fixedSize].
        destruct (fold_left _ els (Some 0)) as [r|] eqn:E; [|lia].
        pose proof (tuple_fixed_bound els Hall 0 r (Z.le_refl 0) E).
        destruct r; lia. }
      lia.
    + destruct Hdict as [k [v [Hk [Hv ->]]]].
      apply IH1 in Hk as (K0 & K1 & K2 & K3).
      apply IH1 in Hv as (V0 & V1 & V2 & V3).
      unfold desc_ok. cbn [type_id max_fixed].
      rewrite substr_length by lia.
      assert (Hf : fixed (TDictEntry
                            (substr signature index
                                    (jslength (type_id k) + jslength (type_id v) + 2)) k v)
                   <= 16 * (jslength (type_id k) + jslength (type_id v)) - 9).
      { pose proof (fixed_le_max_fixed k) as Fk. pose proof (fixed_le_max_fixed v) as Fv.
        pose proof (fixed_nonneg k) as Nk. pose proof (fixed_nonneg v) as Nv.
        unfold fixed in *. cbn [fixedSize]. unfold add_aligned.
        destruct (fixedSize k) as [fk|]; [|lia].
        destruct (fixedSize v) as [fv|]; [|lia].
        pose proof (alignment_range v). pose proof (align_le fk (alignment v)). lia. }
      lia.
  - intros signature end_ elements end' elements' H Hall.
    apply tuple_elements_inv in H as [(Hc & -> & ->) | [el [Hel Hrest]]].
    + split; [exact Hall|]. split; [lia|]. exact (sig_char_bounds _ _ _ Hc).
    + apply IH1 in Hel as (H0 & H1 & H2 & H3).
      apply IH2 in Hrest as (Hall' & He & Hb).
      * split; [exact Hall'|]. split; [|exact Hb].
        rewrite ids_length_app in He. lia.
      * apply Forall_app. split; [exact Hall|]. constructor; [split; assumption | constructor].
Qed.

Lemma parseType_max_fixed (s : jsstring) (ty : gtype) :
  parseType s = Ok ty -> max_fixed ty <= 16 * jslength s.
Proof.
  unfold parseType, nextType.
  destruct (nextType_fuel (S (2 * length s)) s 0) as [[t|]| | |] eqn:E; try discriminate.
  cbn [bind]. destruct (jslength (type_id t) =? jslength s); [|discriminate].
  intros H; injection H as <-.
  apply (proj1 (nextType_fuel_ok _)) in E as (H0 & H1 & H2 & H3). lia.
Qed.

Lemma outcome_bind {A B : Type} (m : result A) (f : A -> result B) :
  signature_outcome m -> (forall a, m = Ok a -> signature_outcome (f a)) ->
  signature_outcome (bind m f).
Proof.
  intros Hm Hf. destruct m as [a | e | |]; cbn [bind].
  - apply Hf. reflexivity.
  - destruct e; cbn in *; trivial.
  - contradiction.
  - exact I.
Qed.

(** [nextType] raises nothing but the TypeError of a read on
    [undefined]. *)
Lemma nextType_fuel_outcome (fuel : nat) :
  (forall signature index, signature_outcome (nextType_fuel fuel signature index))
  /\ (forall signature end_ elements,
         signature_outcome (tuple_elements fuel signature end_ elements)).
Proof.
  induction fuel as [|fuel [IH1 IH2]]; [split; intros; exact I|].
  split.
  - intros signature index. cbn [nextType_fuel].
    destruct (sig_char signature index) as [c|]; [|exact I].
    ascii_cases c; cbv beta iota;
      repeat first
             [ exact I
             | apply outcome_bind; [first [apply IH1 | apply IH2] | intros [?|] _]
             | apply outcome_bind; [first [apply IH1 | apply IH2] | intros [? ?] _] ].
  - intros signature end_ elements. cbn [tuple_elements].
    assert (Hother :
              signature_outcome
                (bind (nextType_fuel fuel signature end_)
                      (fun el => match el with
                                 | None => Throw TypeError_undefined
                                 | Some e => tuple_elements fuel signature
                                                            (end_ + jslength (type_id e))
                                                            (elements ++ [e])
                                 end))).
    { apply outcome_bind; [apply IH1|]. intros [el|] _; [apply IH2 | exact I]. }
    destruct (sig_char signature end_) as [c|]; [|exact Hother].
    ascii_cases c; cbv beta iota; first [exact Hother | exact I].
Qed.

Lemma parseType_offset_safe (s : jsstring) : offset_safe (parseType s).
Proof.
  unfold parseType, nextType.
  pose proof (proj1 (nextType_fuel_outcome (S (2 * length s))) s 0) as H.
  destruct (nextType_fuel (S (2 * length s)) s 0) as [[t|]|e| |]; cbn [bind];
    try discriminate.
  - destruct (jslength (type_id t) =? jslength s); discriminate.
  - destruct e; cbn in H; try contradiction. discriminate.
Qed.

(** With a signature and a byte sequence of at most 2^28 - 1 units each,
    no frame longer than [max_offset] is ever formed. *)
Lemma parse_fuel_offset_safe (fuel : nat) :
  forall typestr data,
    16 * jslength typestr <= max_offset ->
    16 * blength data <= max_offset ->
    offset_safe (parse_fuel fuel typestr data).
Proof.
  induction fuel as [|fuel IH]; intros typestr data Hsig Hdata; cbn [parse_fuel].
  - apply safe_bind; [apply parseType_offset_safe | discriminate].
  - apply safe_bind; [apply parseType_offset_safe|]. intros ty Hty.
    apply parseType_max_fixed in Hty.
    pose proof (jslength_nonneg typestr).
    apply read_offset_safe; [|lia|unfold blength in *; lia].
    intros t d Ht Hd. apply IH; lia.
Qed.

(** C5, as the code has it.  The out-of-range error of the offset codec
    is raised on read ([offsetInfo]) as on write ([writeOffsets]), in both
    cases exactly when the frame is longer than 0xFFFFFFFF bytes.  For a
    signature and a byte sequence of at most 2^28 - 1 (0xFFFFFFF) units
    each, no such frame arises and [parse] does not raise it. *)
Theorem C5_offset_range_error (typestr : jsstring) (data : buffer)
        (Hsig : jslength typestr <= 0xFFFFFFF)
        (Hdata : blength data <= 0xFFFFFFF) :
  parse typestr data <> Throw RangeError_offset
  /\ (forall buf start end_,
         offsetInfo buf start end_ = Throw RangeError_offset <-> 0xFFFFFFFF < end_ - start)
  /\ (forall buf offs start end_,
         writeOffsets buf offs start end_ = Throw RangeError_offset
         <-> 0xFFFFFFFF < end_ - start).
Proof.
  split; [|split].
  - apply parse_fuel_offset_safe; unfold max_offset; lia.
  - apply offsetInfo_range_error.
  - apply writeOffsets_range_error.
Qed.

Lemma C5_offset_range_error_witness :
  parse (str "(ss)") [x61; x00; x62; x00; x02] <> Throw RangeError_offset
  /\ parse (str "(ss)") [x61; x00; x62; x00; x02]
     = Ok (VSeq [VStr (str "a"); VStr (str "b")]).
Proof.
  split.
  - apply (C5_offset_range_error (str "(ss)") [x61; x00; x62; x00; x02]).
    + vm_compute. discriminate.
    + vm_compute. discriminate.
  - vm_compute. reflexivity.
Defined.

(** ** The fuel of the embedding is enough *)

Lemma fuel_bind {A B : Type} (m : result A) (f : A -> result B) :
  fuel_ok m -> (forall a, m = Ok a -> fuel_ok (f a)) -> fuel_ok (bind m f).
Proof.
  unfold fuel_ok. intros Hm Hf. destruct m as [a | e | |]; cbn [bind].
  - apply Hf. reflexivity.
  - discriminate.
  - discriminate.
  - exfalso. apply Hm. reflexivity.
Qed.

(** The index grows at each call of [nextType], by the length of an id
    between the elements of a tuple: [2 * (length - index) + 1] calls deep
    is as far as the recursion goes. *)
Lemma nextType_fuel_enough (fuel : nat) :
  (forall signature index,
      (1 <= fuel)%nat ->
      2 * (jslength signature - index) + 1 <= Z.of_nat fuel ->
      fuel_ok (nextType_fuel fuel signature index))
  /\ (forall signature end_ elements,
         end_ <= jslength signature ->
         2 * (jslength signature - end_) + 2 <= Z.of_nat fuel ->
         fuel_ok (tuple_elements fuel signature end_ elements)).
Proof.
  induction fuel as [|fuel [IH1 IH2]]; [split; intros; lia|].
  assert (Hsub : forall signature index,
             0 <= index < jslength signature ->
             2 * (jslength signature - index) + 1 <= Z.of_nat (S fuel) ->
             fuel_ok (nextType_fuel fuel signature (index + 1))).
  { intros signature index Hi Hf. apply IH1; lia. }
  split.
  - intros signature index _ Hf. cbn [nextType_fuel].
    destruct (sig_char signature index) as [c|] eqn:Ec; [|discriminate].
    pose proof (sig_char_bounds _ _ _ Ec) as Hi.
    ascii_cases c; cbv beta iota; try discriminate;
      lazymatch goal with
      | |- context [TTuple] =>
          apply fuel_bind; [apply IH2; lia|]; intros [e els] _; discriminate
      | |- context [TDictEntry] =>
          apply fuel_bind; [apply Hsub; assumption|]; intros [k|] Hk; [|discriminate];
          apply (proj1 (nextType_fuel_ok fuel)) in Hk as (K0 & K1 & K2 & K3);
          apply fuel_bind; [apply IH1; lia|]; intros [v|] _; discriminate
      | |- _ =>
          apply fuel_bind; [apply Hsub; assumption|]; intros [el|] _; discriminate
      end.
  - intros signature end_ elements He Hf. cbn [tuple_elements].
    assert (Hother :
              fuel_ok
                (bind (nextType_fuel fuel signature end_)
                      (fun el => match el with
                                 | None => Throw TypeError_undefined
                                 | Some e => tuple_elements fuel signature
                                                            (end_ + jslength (type_id e))
                                                            (elements ++ [e])
                                 end))).
    { apply fuel_bind; [apply IH1; lia|]. intros [el|] Hel; [|discriminate].
      apply (proj1 (nextType_fuel_ok fuel)) in Hel as (H0 & H1 & H2 & H3).
      apply IH2; lia. }
    destruct (sig_char signature end_) as [c|]; [|exact Hother].
    ascii_cases c; cbv beta iota; first [exact Hother | discriminate].
Qed.

(** [parseType] returns or throws: the fuel of [nextType] is enough. *)
Lemma parseType_fuel_ok (s : jsstring) : fuel_ok (parseType s).
Proof.
  unfold parseType, nextType.
  apply fuel_bind.
  - apply (proj1 (nextType_fuel_enough (S (2 * length s)))); [lia|].
    unfold jslength. lia.
  - intros [t|] _; [|discriminate].
    destruct (jslength (type_id t) =? jslength s); discriminate.
Qed.

Lemma readUInt8_fuel_ok (buf : buffer) (i : Z) : fuel_ok (readUInt8 buf i).
Proof. unfold fuel_ok, readUInt8. destruct (in_bounds buf i 1); discriminate. Qed.

Lemma readUInt8_in_bounds (buf : buffer) (i v : Z) :
  readUInt8 buf i = Ok v -> 0 <= i < blength buf.
Proof.
  unfold readUInt8, in_bounds.
  destruct (0 <=? i) eqn:E1; destruct (i + 1 <=? blength buf) eqn:E2;
    cbn [andb]; try discriminate.
  apply Z.leb_le in E1, E2. lia.
Qed.

Lemma offsetInfo_fuel_ok (buf : buffer) (start end_ : Z) :
  fuel_ok (offsetInfo buf start end_)
  /\ forall o, offsetInfo buf start end_ = Ok o -> forall d, fuel_ok (Offsets.read_at o d).
Proof.
  unfold offsetInfo, fuel_ok.
  destruct (end_ - start <=? 0xff).
  { split; [discriminate|]. intros o H; injection H as <-. intros d.
    cbn [Offsets.read_at]. unfold readUInt8. destruct (in_bounds _ _ _); discriminate. }
  destruct (end_ - start <=? 0xffff).
  { split; [discriminate|]. intros o H; injection H as <-. intros d.
    cbn [Offsets.read_at]. unfold readUInt16LE. destruct (in_bounds _ _ _); discriminate. }
  destruct (end_ - start <=? 0xffffffff).
  { split; [discriminate|]. intros o H; injection H as <-. intros d.
    cbn [Offsets.read_at]. unfold readUInt32LE. destruct (in_bounds _ _ _); discriminate. }
  split; [discriminate|]. discriminate.
Qed.

Lemma read_elements_fuel_ok (o : Offsets.t) (end_ : Z) :
  (forall d, fuel_ok (Offsets.read_at o d)) ->
  forall els cur curOffset,
    Forall (fun er : gtype * (Z -> Z -> result value) =>
              forall c n, fuel_ok (snd er c n)) els ->
    fuel_ok (read_elements o end_ els cur curOffset).
Proof.
  intros Hcells els.
  induction els as [|[el rd] rest IH]; intros cur curOffset Hall;
    cbn [read_elements]; [discriminate|].
  inversion Hall as [|? ? Hrd Hrest]; subst. cbn [snd] in Hrd.
  apply fuel_bind.
  - destruct (is_fixed el); [discriminate|].
    destruct rest; [discriminate|].
    apply fuel_bind; [apply Hcells | discriminate].
  - intros [next co] _.
    apply fuel_bind; [apply Hrd|]. intros v _.
    apply fuel_bind; [apply IH; exact Hrest | discriminate].
Qed.

Lemma array_fixed_fuel_ok (rd : Z -> Z -> result value) (fs : Z) :
  (forall c n, fuel_ok (rd c n)) ->
  forall n cur, fuel_ok (array_fixed rd n cur fs).
Proof.
  intros Hrd n. induction n as [|n IH]; intros cur; cbn [array_fixed]; [discriminate|].
  apply fuel_bind; [apply Hrd|]. intros v _.
  apply fuel_bind; [apply IH | discriminate].
Qed.

Lemma array_variable_fuel_ok (rd : Z -> Z -> result value) (o : Offsets.t) (al k : Z) :
  (forall d, fuel_ok (Offsets.read_at o d)) ->
  (forall c n, fuel_ok (rd c n)) ->
  forall count i cur, fuel_ok (array_variable rd o al count i k cur).
Proof.
  intros Hcells Hrd count.
  induction count as [|count IH]; intros i cur; cbn [array_variable]; [discriminate|].
  apply fuel_bind; [apply Hcells|]. intros next _.
  apply fuel_bind; [apply Hrd|]. intros v _.
  apply fuel_bind; [apply IH | discriminate].
Qed.

Lemma to_object_fuel_ok (values : list value) :
  forall o, fuel_ok (to_object values o).
Proof.
  induction values as [|x values IH]; intros o; cbn [to_object]; [discriminate|].
  destruct x as [| | | | | l | |]; try discriminate.
  destruct l as [|k [|v l']]; try discriminate.
  apply fuel_bind; [unfold to_property_key; destruct (key_string k); discriminate|].
  intros key _.
  apply fuel_bind; [|intros o' _; apply IH].
  unfold fuel_ok, obj_set.
  destruct (jsstring_eqb key (str "__proto__")); [discriminate|].
  destruct (obj_has o key); [discriminate|].
  destruct (array_index key); discriminate.
Qed.

Lemma variant_sep_fuel_ok (buf : buffer) (start : Z) (n : nat) :
  forall sep, fuel_ok (variant_sep buf start n sep).
Proof.
  induction n as [|n IH]; intros sep; cbn [variant_sep]; [discriminate|].
  destruct (sep <? start); [discriminate|].
  apply fuel_bind; [apply readUInt8_fuel_ok|]. intros b _.
  destruct (b =? 0); [discriminate | apply IH].
Qed.

(** Where the loop of the variant reader stops on a frame that is not
    empty: on a 0x00 inside the buffer, or just below [start] after reading
    the whole frame. *)
Lemma variant_sep_stops (buf : buffer) (start : Z) (n : nat) :
  forall sep0 sep,
    (1 <= n)%nat ->
    Z.of_nat n = sep0 - start + 1 ->
    variant_sep buf start n sep0 = Ok sep ->
    0 <= sep < blength buf \/ (sep = start - 1 /\ 0 <= start < blength buf).
Proof.
  induction n as [|n IH]; intros sep0 sep Hn Heq; [lia|].
  cbn [variant_sep].
  destruct (sep0 <? start) eqn:E; [apply Z.ltb_lt in E; lia|].
  destruct (readUInt8 buf sep0) as [b| | |] eqn:Er; try discriminate.
  cbn [bind]. apply readUInt8_in_bounds in Er.
  destruct (b =? 0).
  - intros H; injection H as <-. left. exact Er.
  - destruct n as [|n'].
    + cbn [variant_sep]. intros H; injection H as <-. right. lia.
    + apply IH; lia.
Qed.

(** The variant reader calls [parse] on a strictly shorter buffer, or
    with the empty signature. *)
Lemma variant_call_shrinks (buf : buffer) (start end_ sep : Z) :
  variant_sep buf start (Z.to_nat (end_ - start)) (end_ - 1) = Ok sep ->
  blength (slice buf start sep) < blength buf
  \/ ascii_decode (window buf (sep + 1) end_) = [].
Proof.
  intros H. destruct (Z.le_gt_cases end_ start) as [Hle | Hgt].
  - right. replace (Z.to_nat (end_ - start)) with 0%nat in H by lia.
    cbn [variant_sep] in H. injection H as <-.
    unfold window. replace (end_ - 1 + 1) with end_ by lia.
    replace (Z.to_nat (Z.min end_ (blength buf) - Z.max end_ 0)) with 0%nat by lia.
    reflexivity.
  - left. apply variant_sep_stops in H; [|lia|lia].
    unfold slice, adjustOffset, blength in *.
    rewrite length_firstn, length_skipn.
    destruct H as [H | [-> H]].
    + destruct (sep <? 0) eqn:E1; [apply Z.ltb_lt in E1; lia|].
      destruct (sep <? Z.of_nat (length buf)) eqn:E2; [|apply Z.ltb_ge in E2; lia].
      destruct (start <? 0) eqn:E3; [lia | apply Z.ltb_ge in E3].
      destruct (start <? Z.of_nat (length buf)) eqn:E4; [apply Z.ltb_lt in E4|]; lia.
    + destruct (start <? 0) eqn:E3; [apply Z.ltb_lt in E3; lia|].
      destruct (start <? Z.of_nat (length buf)) eqn:E4; [|apply Z.ltb_ge in E4; lia].
      destruct (start - 1 <? 0) eqn:E1; [lia|].
      destruct (start - 1 <? Z.of_nat (length buf)); lia.
Qed.

Ltac fuel_leaf :=
  unfold fuel_ok, readInt16LE, readInt32LE, readDoubleLE,
    readUInt8, readUInt16LE, readUInt32LE;
  repeat (match goal with
          | |- context [if ?c then _ else _] => destruct c
          end; cbn [bind]);
  discriminate.

(** A reader runs out of fuel only where [parse] does, and it calls
    [parse] on a strictly shorter buffer or with the empty signature. *)
Lemma read_fuel_ok (parse_ : jsstring -> buffer -> result value) (buf : buffer) :
  (forall t d, blength d < blength buf \/ t = [] -> fuel_ok (parse_ t d)) ->
  forall ty start end_, fuel_ok (read parse_ ty buf start end_).
Proof.
  intros Hparse ty.
  induction ty as [| | | | | | | | | id | | id el IH | id els IH | id k v IHk IHv | id el IH]
    using gtype_nested_ind;
    intros start end_; cbn [read]; try fuel_leaf.
  - (* variant *)
    apply fuel_bind; [apply variant_sep_fuel_ok|]. intros sep Hsep.
    apply fuel_bind; [|discriminate].
    apply Hparse. exact (variant_call_shrinks _ _ _ _ Hsep).
  - (* maybe *)
    destruct (start =? end_); [discriminate|].
    destruct (is_fixed el); [|apply IH].
    destruct (negb (end_ - start =? fixed el)); [discriminate | apply IH].
  - (* tuple *)
    destruct (is_fixed (TTuple id els) && negb (end_ - start =? fixed (TTuple id els)));
      [discriminate|].
    destruct (offsetInfo_fuel_ok buf start end_) as [Ho Hcells].
    apply fuel_bind; [exact Ho|]. intros o Eo.
    apply fuel_bind; [|discriminate].
    apply read_elements_fuel_ok; [exact (Hcells o Eo)|].
    apply Forall_map. rewrite Forall_forall in *. intros el Hin c n. cbn [snd].
    apply IH. exact Hin.
  - (* dict-entry *)
    destruct (is_fixed (TDictEntry id k v)
              && negb (end_ - start =? fixed (TDictEntry id k v))); [discriminate|].
    destruct (offsetInfo_fuel_ok buf start end_) as [Ho Hcells].
    apply fuel_bind; [exact Ho|]. intros o Eo.
    apply fuel_bind.
    + destruct (is_fixed k); [discriminate|].
      apply fuel_bind; [apply (Hcells o Eo) | discriminate].
    + intros [keyEnd valueEnd] _.
      apply fuel_bind; [apply IHk|]. intros x _.
      apply fuel_bind; [apply IHv | discriminate].
  - (* array *)
    destruct (start =? end_); [discriminate|].
    apply fuel_bind.
    + destruct (is_fixed el).
      * destruct (negb (Z.rem (end_ - start) (fixed el) =? 0)); [discriminate|].
        apply fuel_bind; [|discriminate].
        apply array_fixed_fuel_ok. intros c n. apply IH.
      * destruct (offsetInfo_fuel_ok buf start end_) as [Ho Hcells].
        apply fuel_bind; [exact Ho|]. intros o Eo.
        apply fuel_bind; [apply (Hcells o Eo)|]. intros first _.
        apply fuel_bind; [|discriminate].
        apply array_variable_fuel_ok; [exact (Hcells o Eo)|]. intros c n. apply IH.
    + intros [vs|] _; [|discriminate].
      destruct (is_dict_entry el); [|discriminate].
      apply fuel_bind; [apply to_object_fuel_ok | discriminate].
Qed.

Lemma parseType_empty : parseType [] = Throw (TypeError_invalid []).
Proof. reflexivity. Qed.

Lemma parse_fuel_enough (fuel : nat) :
  forall typestr data,
    (length data < fuel)%nat \/ typestr = [] ->
    fuel_ok (parse_fuel fuel typestr data).
Proof.
  induction fuel as [|fuel IH]; intros typestr data H; cbn [parse_fuel].
  - destruct H as [H | ->]; [lia|]. rewrite parseType_empty. discriminate.
  - apply fuel_bind; [apply parseType_fuel_ok|]. intros ty Hty.
    destruct H as [H | ->]; [|rewrite parseType_empty in Hty; discriminate].
    apply read_fuel_ok. intros t d Hd. apply IH.
    unfold blength in Hd. destruct Hd as [Hd | ->]; [left; lia | right; reflexivity].
Qed.

(** [parse] terminates: it returns a value or raises an error, on every
    signature and every byte sequence. *)
Lemma parse_terminates (typestr : jsstring) (data : buffer) :
  parse typestr data <> OutOfFuel.
Proof. apply parse_fuel_enough. left. lia. Qed.

Lemma variant_depth_In (l : list value) (x : value) :
  In x l -> (variant_depth x <= fold_right (fun x n => Nat.max (variant_depth x) n) O l)%nat.
Proof.
  induction l as [|y l IH]; intros Hin; [contradiction|].
  cbn [fold_right]. destruct Hin as [-> | Hin]; [lia | specialize (IH Hin); lia].
Qed.

Lemma index_value_depth (v : value) (i : nat) (x : value) :
  index_value v i = Ok x -> (variant_depth x <= variant_depth v)%nat.
Proof.
  destruct v as [| | | | | l | |]; try discriminate. cbn [index_value].
  destruct (nth_error l i) as [y|] eqn:E; [|discriminate].
  intros H; injection H as <-. cbn [variant_depth].
  apply variant_depth_In. exact (nth_error_In _ _ E).
Qed.

Lemma as_array_depth (v : value) (vals : list value) :
  as_array v = Ok vals ->
  Forall (fun x => (variant_depth x <= variant_depth v)%nat) vals.
Proof.
  destruct v as [| | | | | l | m | t x]; cbn [as_array]; try discriminate;
    intros H; injection H as <-; try constructor.
  - rewrite Forall_forall. intros x Hin. cbn [variant_depth]. now apply variant_depth_In.
  - cbn [variant_depth]. induction m as [|[k x] m IH]; cbn [map fold_right]; constructor.
    + cbn [variant_depth fold_right fst snd]. lia.
    + eapply Forall_impl; [|exact IH]. cbn beta. intros y Hy. lia.
  - cbn [variant_depth fold_right]. lia.
  - constructor; [|constructor]. cbn [variant_depth fold_right]. lia.
Qed.

Lemma writeOffsets_fuel_ok (buf : buffer) (offs : list Z) (start end_ : Z) :
  fuel_ok (writeOffsets buf offs start end_).
Proof.
  unfold fuel_ok, writeOffsets.
  repeat match goal with |- context [if ?c then _ else _] => destruct c end;
    discriminate.
Qed.

Lemma to_number_fuel_ok (v : value) : fuel_ok (to_number v).
Proof.
  unfold fuel_ok. destruct v as [n | bits | b | s | | l | m | t x];
    cbn [to_number]; try discriminate.
  destruct (numeral s); discriminate.
Qed.

Lemma write_elements_fuel_ok (D : nat) (v : value) (start : Z) :
  (variant_depth v <= D)%nat ->
  forall els i buf offs,
    Forall (fun er : gtype * (value -> buffer -> result buffer) =>
              forall x b, (variant_depth x <= D)%nat -> fuel_ok (snd er x b)) els ->
    fuel_ok (write_elements v start els i buf offs).
Proof.
  intros Hv els.
  induction els as [|[el wr] rest IH]; intros i buf offs Hall;
    cbn [write_elements]; [discriminate|].
  inversion Hall as [|? ? Hwr Hrest]; subst. cbn [snd] in Hwr.
  apply fuel_bind; [destruct v; cbn [index_value]; try discriminate;
                    destruct (nth_error l i); discriminate|].
  intros x Hx. apply index_value_depth in Hx.
  apply fuel_bind; [apply Hwr; lia|]. intros buf' _.
  apply IH. exact Hrest.
Qed.

Lemma write_fixed_elements_fuel_ok (D : nat) (wr : value -> buffer -> result buffer)
      (al : Z) :
  (forall x b, (variant_depth x <= D)%nat -> fuel_ok (wr x b)) ->
  forall vals buf,
    Forall (fun x => (variant_depth x <= D)%nat) vals ->
    fuel_ok (write_fixed_elements wr al vals buf).
Proof.
  intros Hwr vals.
  induction vals as [|x vals IH]; intros buf Hall; cbn [write_fixed_elements];
    [discriminate|].
  inversion Hall; subst.
  apply fuel_bind; [apply Hwr; assumption|]. intros buf' _. apply IH. assumption.
Qed.

Lemma write_variable_elements_fuel_ok (D : nat) (wr : value -> buffer -> result buffer)
      (al start : Z) :
  (forall x b, (variant_depth x <= D)%nat -> fuel_ok (wr x b)) ->
  forall vals buf offs,
    Forall (fun x => (variant_depth x <= D)%nat) vals ->
    fuel_ok (write_variable_elements wr al start vals buf offs).
Proof.
  intros Hwr vals.
  induction vals as [|x vals IH]; intros buf offs Hall; cbn [write_variable_elements];
    [discriminate|].
  inversion Hall; subst.
  apply fuel_bind; [apply Hwr; assumption|]. intros buf' _. apply IH. assumption.
Qed.

(** A writer runs out of fuel only where the variant writer's call does,
    and that call is on a value nested one variant deeper. *)
Lemma write_fuel_ok (wv : jsstring -> value -> buffer -> result buffer) (D : nat) :
  (forall t x b, (variant_depth x < D)%nat -> fuel_ok (wv t x b)) ->
  forall ty v buf, (variant_depth v <= D)%nat -> fuel_ok (write wv ty v buf).
Proof.
  intros Hwv ty.
  induction ty as [| | | | | | | | | id | | id el IH | id els IH | id k x IHk IHx | id el IH]
    using gtype_nested_ind;
    intros v buf Hv; cbn [write];
    try (apply fuel_bind; [apply to_number_fuel_ok | discriminate]);
    try (destruct v; discriminate).
  - (* variant *)
    destruct v as [| | | | | | | t x]; try discriminate.
    cbn [variant_depth] in Hv.
    apply fuel_bind; [apply Hwv; lia | discriminate].
  - (* maybe *)
    destruct v; try discriminate;
      (apply fuel_bind; [apply IH; exact Hv | discriminate]).
  - (* tuple *)
    apply fuel_bind.
    + apply (write_elements_fuel_ok D); [exact Hv|].
      apply Forall_map. rewrite Forall_forall in *. intros el Hin y b Hy. cbn [snd].
      apply IH; assumption.
    + intros [buf' offs] _. apply writeOffsets_fuel_ok.
  - (* dict-entry *)
    apply fuel_bind; [destruct v; cbn [index_value]; try discriminate;
                      destruct (nth_error l 0); discriminate|].
    intros y Hy. apply index_value_depth in Hy.
    apply fuel_bind; [apply IHk; lia|]. intros buf1 _.
    apply fuel_bind; [destruct v; cbn [index_value]; try discriminate;
                      destruct (nth_error l 1); discriminate|].
    intros z Hz. apply index_value_depth in Hz.
    apply fuel_bind; [apply IHx; lia|]. intros buf2 _.
    destruct (negb (is_fixed k)); [apply writeOffsets_fuel_ok | discriminate].
  - (* array *)
    apply fuel_bind; [destruct v; discriminate|]. intros vals Hvals.
    apply as_array_depth in Hvals.
    assert (Hall : Forall (fun y => (variant_depth y <= D)%nat) vals).
    { eapply Forall_impl; [|exact Hvals]. cbn beta. intros y Hy. lia. }
    destruct (is_fixed el).
    + apply (write_fixed_elements_fuel_ok D); [|exact Hall]. intros y b Hy. now apply IH.
    + apply fuel_bind.
      * apply (write_variable_elements_fuel_ok D); [|exact Hall].
        intros y b Hy. now apply IH.
      * intros [buf' offs] _. apply writeOffsets_fuel_ok.
Qed.

Lemma write_value_fuel_enough (fuel : nat) :
  forall t x b, (variant_depth x < fuel)%nat -> fuel_ok (write_value fuel t x b).
Proof.
  induction fuel as [|fuel IH]; intros t x b Hx; [lia|].
  cbn [write_value]. apply fuel_bind; [apply parseType_fuel_ok|]. intros ty _.
  apply (write_fuel_ok _ fuel); [|lia]. intros t' y b' Hy. apply IH. exact Hy.
Qed.

(** [serialize] terminates. *)
Lemma serialize_terminates (typestr : jsstring) (v : value) :
  serialize typestr v <> OutOfFuel.
Proof.
  unfold serialize.
  apply fuel_bind; [apply parseType_fuel_ok|]. intros ty _.
  apply fuel_bind; [|discriminate].
  apply (write_fuel_ok _ (variant_depth v)); [|lia].
  intros t x b Hx. apply write_value_fuel_enough. exact Hx.
Qed.

(** The TypeError of [parseType] reaches the callers of [parse] and
    [serialize]. *)
Lemma parseType_error_propagates (typestr : jsstring) (e : error) :
  parseType typestr = Throw e ->
  (forall data, parse typestr data = Throw e)
  /\ (forall v, serialize typestr v = Throw e).
Proof.
  intros H. split.
  - intros data. rewrite parse_unfold, H. reflexivity.
  - intros v. unfold serialize. rewrite H. reflexivity.
Qed.

(** ** Well-formed signatures are accepted *)

Lemma parseType_outcomes (s : jsstring) :
  (exists ty, parseType s = Ok ty)
  \/ parseType s = Throw (TypeError_invalid s)
  \/ parseType s = Throw TypeError_undefined.
Proof.
  pose proof (parseType_fuel_ok s) as Hf. unfold fuel_ok in Hf.
  unfold parseType, nextType in *.
  pose proof (proj1 (nextType_fuel_outcome (S (2 * length s))) s 0) as H.
  destruct (nextType_fuel (S (2 * length s)) s 0) as [[t|]|e| |]; cbn [bind] in *.
  - destruct (jslength (type_id t) =? jslength s); [left; eexists; reflexivity|].
    right; left; reflexivity.
  - right; left; reflexivity.
  - destruct e; cbn in H; try contradiction. right; right; reflexivity.
  - contradiction.
  - exfalso. apply Hf. reflexivity.
Qed.

Lemma sig_char_app (pre rest : jsstring) (c : Z) :
  sig_char (pre ++ c :: rest) (jslength pre)
  = if (0 <=? c) && (c <? 256) then Some (ascii_of_N (Z.to_N c)) else None.
Proof.
  unfold sig_char, charAt, jslength.
  replace (Z.of_nat (length pre) <? 0) with false by (symmetry; apply Z.ltb_ge; lia).
  rewrite Nat2Z.id, nth_error_app2 by lia. now rewrite Nat.sub_diag.
Qed.

Lemma piece_app (pre s post : jsstring) :
  firstn (length s) (skipn (length pre) (pre ++ s ++ post)) = s.
Proof.
  rewrite skipn_app, skipn_all, Nat.sub_diag. cbn [app skipn].
  rewrite firstn_app, firstn_all, Nat.sub_diag. cbn [firstn]. apply app_nil_r.
Qed.

Lemma substr_app (pre s post : jsstring) (n : Z) :
  n = jslength s -> substr (pre ++ s ++ post) (jslength pre) n = s.
Proof.
  intros ->. unfold substr, jslength. rewrite !Nat2Z.id. apply piece_app.
Qed.

Lemma strslice_app (pre s post : jsstring) (to : Z) :
  to = jslength pre + jslength s -> strslice (pre ++ s ++ post) (jslength pre) to = s.
Proof.
  intros ->. unfold strslice, jslength.
  replace (Z.of_nat (length pre) + Z.of_nat (length s) - Z.of_nat (length pre))
    with (Z.of_nat (length s)) by lia.
  rewrite !Nat2Z.id. apply piece_app.
Qed.

Lemma jslength_app (a b : jsstring) : jslength (a ++ b) = jslength a + jslength b.
Proof. unfold jslength. rewrite length_app. lia. Qed.

Lemma jslength_cons (c : Z) (s : jsstring) : jslength (c :: s) = 1 + jslength s.
Proof. unfold jslength. cbn [length]. lia. Qed.

(** A type starts with a character of the alphabet other than [')']. *)
Lemma wf_type_head (s : jsstring) :
  wf_type s ->
  exists c rest, s = c :: rest
                 /\ In c (str "ynqiuxtdbsogvma({").
Proof.
  intros H. destruct H as [c Hc | s H | s H | r H | k v Hk Hv].
  - exists c, []. split; [reflexivity|]. cbn in *. intuition.
  - eexists _, _. split; [reflexivity|]. cbn. intuition.
  - eexists _, _. split; [reflexivity|]. cbn. intuition.
  - eexists _, _. split; [reflexivity|]. cbn. intuition.
  - eexists _, _. split; [reflexivity|]. cbn. intuition.
Qed.

(** A turn of the tuple loop on a character other than [')']. *)
Lemma tuple_elements_step (fuel : nat) (signature : jsstring) (end_ c : Z)
      (elements : list gtype) (pre rest : jsstring) :
  signature = pre ++ c :: rest -> end_ = jslength pre ->
  In c (str "ynqiuxtdbsogvma({") ->
  tuple_elements (S fuel) signature end_ elements
  = (el <- nextType_fuel fuel signature end_ ;;
     match el with
     | None => Throw TypeError_undefined
     | Some e => tuple_elements fuel signature (end_ + jslength (type_id e))
                                (elements ++ [e])
     end).
Proof.
  intros -> -> Hc. cbn [tuple_elements]. rewrite sig_char_app.
  cbn in Hc.
  repeat (destruct Hc as [<- | Hc]; [reflexivity|]). contradiction.
Qed.

Ltac sig_eq :=
  subst; cbn [app]; repeat rewrite <- app_assoc; cbn [app]; reflexivity.

Ltac len_eq :=
  repeat (rewrite jslength_app || rewrite jslength_cons);
  unfold jslength in *; cbn [length] in *; lia.

Ltac idx_eq := subst; len_eq.

Ltac dispatch_on_char :=
  cbn [nextType_fuel tuple_elements]; rewrite sig_char_app;
  match goal with
  | |- context [if ?b then Some ?a else None] =>
      let v := eval vm_compute in (if b then Some a else @None ascii) in
      change (if b then Some a else None) with v
  end;
  cbv beta iota.

(** [nextType] returns, for a well-formed type that starts at [index], a
    descriptor whose id is that type; the loop of the tuple case consumes
    a sequence of types up to the closing parenthesis. *)
Lemma nextType_accepts (s : jsstring) :
  wf_type s ->
  forall signature index pre post fuel,
    signature = pre ++ s ++ post -> index = jslength pre ->
    2 * (jslength s + jslength post) + 1 <= Z.of_nat fuel ->
    exists ty, nextType_fuel fuel signature index = Ok (Some ty) /\ type_id ty = s.
Proof.
  intros Hwf.
  induction Hwf using wf_type_mut with
    (P0 := fun r =>
             forall signature end_ pre post fuel elements,
               signature = pre ++ r ++ str ")" ++ post -> end_ = jslength pre ->
               2 * (jslength r + 1 + jslength post) + 2 <= Z.of_nat fuel ->
               exists elements',
                 tuple_elements fuel signature end_ elements
                 = Ok (end_ + jslength r, elements ++ elements'));
    intros signature index pre post fuel.
  - (* a single character *)
    intros Hs Hi Hf. pose proof (jslength_nonneg post).
    destruct fuel as [|fuel]; [rewrite jslength_cons in Hf; unfold jslength in *;
                               cbn [length] in *; lia|].
    subst signature index. cbn [app]. cbn in H.
    repeat (destruct H as [<- | H];
            [dispatch_on_char; eexists; split; [reflexivity|];
             first [reflexivity | exact (substr_app pre [_] post 1 eq_refl)]|]).
    contradiction.
  - (* m *)
    intros Hs Hi Hf. change (str "m") with [109] in *. pose proof (jslength_nonneg post).
    rewrite jslength_app in Hf. change (jslength [109]) with 1 in Hf.
    destruct fuel as [|fuel]; [pose proof (jslength_nonneg s); lia|].
    destruct (IHHwf signature (index + 1) (pre ++ [109]) post fuel) as [el [Hel Hid]];
      [sig_eq | idx_eq | lia|].
    assert (Hsig : signature = pre ++ 109 :: (s ++ post)) by sig_eq.
    rewrite Hsig in *. subst index. dispatch_on_char. rewrite Hel. cbn [bind].
    eexists. split; [reflexivity|]. cbn [type_id]. rewrite Hid.
    apply (substr_app pre (109 :: s) post). len_eq.
  - (* a *)
    intros Hs Hi Hf. change (str "a") with [97] in *. pose proof (jslength_nonneg post).
    rewrite jslength_app in Hf. change (jslength [97]) with 1 in Hf.
    destruct fuel as [|fuel]; [pose proof (jslength_nonneg s); lia|].
    destruct (IHHwf signature (index + 1) (pre ++ [97]) post fuel) as [el [Hel Hid]];
      [sig_eq | idx_eq | lia|].
    assert (Hsig : signature = pre ++ 97 :: (s ++ post)) by sig_eq.
    rewrite Hsig in *. subst index. dispatch_on_char. rewrite Hel. cbn [bind].
    eexists. split; [reflexivity|]. cbn [type_id]. rewrite Hid.
    apply (substr_app pre (97 :: s) post). len_eq.
  - (* ( ... ) *)
    intros Hs Hi Hf. change (str "(") with [40] in *. change (str ")") with [41] in *.
    pose proof (jslength_nonneg post). pose proof (jslength_nonneg r).
    rewrite !jslength_app in Hf. change (jslength [40]) with 1 in Hf.
    change (jslength [41]) with 1 in Hf.
    destruct fuel as [|fuel]; [lia|].
    destruct (IHHwf signature (index + 1) (pre ++ [40]) post fuel []) as [els Hels];
      [sig_eq | idx_eq | lia|].
    assert (Hsig : signature = pre ++ 40 :: (r ++ 41 :: post)) by sig_eq.
    rewrite Hsig in *. subst index. dispatch_on_char. rewrite Hels. cbn [bind app].
    eexists. split; [reflexivity|]. cbn [type_id].
    replace (pre ++ 40 :: r ++ 41 :: post) with (pre ++ (40 :: r ++ [41]) ++ post)
      by sig_eq.
    apply strslice_app. len_eq.
  - (* { K V } *)
    intros Hs Hi Hf. change (str "{") with [123] in *. change (str "}") with [125] in *.
    pose proof (jslength_nonneg post). pose proof (jslength_nonneg k).
    pose proof (jslength_nonneg v).
    rewrite !jslength_app in Hf. change (jslength [123]) with 1 in Hf.
    change (jslength [125]) with 1 in Hf.
    destruct fuel as [|fuel]; [lia|].
    destruct (IHHwf1 signature (index + 1) (pre ++ [123]) (v ++ [125] ++ post) fuel)
      as [tk [Hk Hkid]];
      [sig_eq | idx_eq | rewrite !jslength_app; change (jslength [125]) with 1; lia|].
    destruct (IHHwf2 signature (index + 1 + jslength k) (pre ++ [123] ++ k)
                     ([125] ++ post) fuel)
      as [tv [Hv Hvid]];
      [sig_eq | idx_eq | rewrite !jslength_app; change (jslength [125]) with 1; lia|].
    assert (Hsig : signature = pre ++ 123 :: (k ++ v ++ 125 :: post)) by sig_eq.
    rewrite Hsig in *. subst index. dispatch_on_char. rewrite Hk. cbn [bind].
    rewrite Hkid, Hv. cbn [bind].
    eexists. split; [reflexivity|]. cbn [type_id]. rewrite Hvid.
    replace (pre ++ 123 :: k ++ v ++ 125 :: post)
      with (pre ++ (123 :: k ++ v ++ [125]) ++ post) by sig_eq.
    apply substr_app. len_eq.
  - (* no more element *)
    intros elements Hs Hi Hf. change (str ")") with [41] in *.
    destruct fuel as [|fuel]; [pose proof (jslength_nonneg post);
                               change (jslength []) with 0 in Hf; lia|].
    subst signature index. cbn [app]. dispatch_on_char.
    exists []. rewrite app_nil_r. change (jslength []) with 0.
    now rewrite Z.add_0_r.
  - (* one more element *)
    intros elements Hs Hi Hf. change (str ")") with [41] in *.
    pose proof (jslength_nonneg post). pose proof (jslength_nonneg s).
    pose proof (jslength_nonneg r). rewrite jslength_app in Hf.
    destruct fuel as [|fuel]; [lia|].
    destruct (wf_type_head s Hwf) as [c [rest [Hc Hin]]].
    rewrite (tuple_elements_step fuel signature index c elements pre
                                 (rest ++ r ++ [41] ++ post));
      [|subst; sig_eq | exact Hi | exact Hin].
    destruct (IHHwf signature index pre (r ++ [41] ++ post) fuel) as [el [Hel Hid]];
      [sig_eq | exact Hi
       | rewrite !jslength_app; change (jslength [41]) with 1; subst s; lia|].
    rewrite Hel. cbn [bind]. rewrite Hid.
    destruct (IHHwf0 signature (index + jslength s) (pre ++ s) post fuel
                     (elements ++ [el])) as [els Hels];
      [sig_eq | idx_eq | assert (1 <= jslength s) by (subst s; rewrite jslength_cons;
                                                       pose proof (jslength_nonneg rest);
                                                       lia); lia|].
    rewrite Hels. exists (el :: els). f_equal. f_equal.
    + rewrite jslength_app. lia.
    + rewrite <- app_assoc. reflexivity.
Qed.

(** Every well-formed signature is accepted by [parseType], with a
    descriptor whose id is the signature. *)
Lemma parseType_accepts (s : jsstring) :
  wf_type s -> exists ty, parseType s = Ok ty /\ type_id ty = s.
Proof.
  intros Hwf. unfold parseType, nextType.
  destruct (nextType_accepts s Hwf s 0 [] [] (S (2 * length s))) as [ty [Hty Hid]].
  - now rewrite app_nil_r.
  - reflexivity.
  - unfold jslength. cbn [length]. lia.
  - exists ty. rewrite Hty. cbn [bind]. rewrite Hid, Z.eqb_refl. split; reflexivity.
Qed.

(** ** Round trips that hold *)

Lemma le_value_1 (v : Z) : 0 <= v < 2 ^ 8 -> v mod 256 = v.
Proof. intros H. apply Z.mod_small. lia. Qed.

Lemma le_value_2 (v : Z) :
  v mod 256 + (v / 256) mod 256 * 2 ^ 8 = v mod 2 ^ 16.
Proof.
  change (2 ^ 8) with 256. change (2 ^ 16) with 65536.
  Z.div_mod_to_equations. lia.
Qed.

Lemma le_value_4 (v : Z) :
  v mod 256 + (v / 256) mod 256 * 2 ^ 8 + (v / 256 / 256) mod 256 * 2 ^ 16
  + (v / 256 / 256 / 256) mod 256 * 2 ^ 24 = v mod 2 ^ 32.
Proof.
  change (2 ^ 8) with 256. change (2 ^ 16) with 65536.
  change (2 ^ 24) with 16777216. change (2 ^ 32) with 4294967296.
  Z.div_mod_to_equations. lia.
Qed.

Lemma to_signed_mod (w v : Z) :
  0 < w -> - 2 ^ (w - 1) <= v < 2 ^ (w - 1) -> to_signed w (v mod 2 ^ w) = v.
Proof.
  intros Hw Hv. unfold to_signed.
  assert (Hp : 2 ^ w = 2 * 2 ^ (w - 1)).
  { replace w with (Z.succ (w - 1)) at 1 by lia. apply Z.pow_succ_r. lia. }
  assert (0 < 2 ^ (w - 1)) by (apply Z.pow_pos_nonneg; lia).
  destruct (Z.le_gt_cases 0 v) as [Hn | Hn].
  - rewrite Z.mod_small by lia.
    replace (v <? 2 ^ (w - 1)) with true by (symmetry; apply Z.ltb_lt; lia). reflexivity.
  - replace (v mod 2 ^ w) with (v + 2 ^ w).
    + replace (v + 2 ^ w <? 2 ^ (w - 1)) with false by (symmetry; apply Z.ltb_ge; lia).
      lia.
    + apply Z.mod_unique with (q := -1); lia.
Qed.

(** Serialize followed by parse is the identity on the integers of the
    fixed-width types [y], [n], [q], [i], [u] and on the booleans. *)
Lemma roundtrip_integers (v : Z) :
  (0 <= v < 2 ^ 8 ->
   exists b, serialize (str "y") (VNum v) = Ok b /\ parse (str "y") b = Ok (VNum v))
  /\ (- 2 ^ 15 <= v < 2 ^ 15 ->
      exists b, serialize (str "n") (VNum v) = Ok b /\ parse (str "n") b = Ok (VNum v))
  /\ (0 <= v < 2 ^ 16 ->
      exists b, serialize (str "q") (VNum v) = Ok b /\ parse (str "q") b = Ok (VNum v))
  /\ (- 2 ^ 31 <= v < 2 ^ 31 ->
      exists b, serialize (str "i") (VNum v) = Ok b /\ parse (str "i") b = Ok (VNum v))
  /\ (0 <= v < 2 ^ 32 ->
      exists b, serialize (str "u") (VNum v) = Ok b /\ parse (str "u") b = Ok (VNum v)).
Proof.
  assert (Hparse : forall (sig : string) (w : nat),
             parse (str sig) (DynamicBuffer.le_bytes w v)
             = (type <- parseType (str sig) ;;
                read (parse_fuel w) type (DynamicBuffer.le_bytes w v) 0 (Z.of_nat w))).
  { intros sig w. rewrite parse_unfold. unfold blength.
    assert (Hl : forall z, length (DynamicBuffer.le_bytes w z) = w).
    { induction w as [|w IH]; intros z; cbn [DynamicBuffer.le_bytes length];
        [reflexivity | now rewrite IH]. }
    now rewrite Hl. }
  repeat split; intros Hv;
    [exists (DynamicBuffer.le_bytes 1 v) | exists (DynamicBuffer.le_bytes 2 v)
     | exists (DynamicBuffer.le_bytes 2 v) | exists (DynamicBuffer.le_bytes 4 v)
     | exists (DynamicBuffer.le_bytes 4 v)];
    (split; [reflexivity|]);
    rewrite Hparse;
    match goal with
    | |- context [parseType ?s] =>
        let r := eval vm_compute in (parseType s) in change (parseType s) with r
    end;
    cbn [bind read Z.of_nat Pos.of_succ_nat Pos.succ Z.sub Z.opp Z.add
              Z.pos_sub Z.eqb Pos.eqb negb DynamicBuffer.le_bytes];
    unfold readInt16LE, readInt32LE, readUInt8, readUInt16LE, readUInt32LE, in_bounds;
    cbn [blength length Z.of_nat Pos.of_succ_nat Pos.succ Z.add Pos.add Z.leb Z.compare
                 Pos.compare Pos.compare_cont andb bind];
    unfold byte_at;
    change (Z.to_nat 0) with 0%nat; change (Z.to_nat 1) with 1%nat;
    change (Z.to_nat 2) with 2%nat; change (Z.to_nat 3) with 3%nat;
    cbn [nth];
    rewrite ?byte_val_byte_of; do 2 f_equal.
  - apply le_value_1. exact Hv.
  - rewrite le_value_2. apply to_signed_mod; lia.
  - rewrite le_value_2. apply Z.mod_small. exact Hv.
  - rewrite le_value_4. apply to_signed_mod; lia.
  - rewrite le_value_4. apply Z.mod_small. exact Hv.
Qed.

Lemma roundtrip_booleans (b : bool) :
  exists bytes, serialize (str "b") (VBool b) = Ok bytes
                /\ parse (str "b") bytes = Ok (VBool b).
Proof. destruct b; eexists; split; vm_compute; reflexivity. Qed.

(** The writers choose the width of the offset cells from the length of
    the frame before the offset table is appended, the readers from the
    length of the whole frame: a tuple of 255 bytes with one offset is
    written with a 1-byte cell and read back, at 256 bytes, with 2-byte
    cells. *)
Lemma roundtrip_width_boundary :
  exists bytes,
    serialize (str "(ss)") (VSeq [VStr (repeat 97 253); VStr []]) = Ok bytes
    /\ blength bytes = 256
    /\ nth_error bytes 255 = Some xfe
    /\ parse (str "(ss)") bytes = Throw RangeError_index.
Proof. eexists. repeat split; vm_compute; reflexivity. Qed.

(** ** Variant frames without a 0x00 byte *)

Lemma frame_bytes_nth (buf : buffer) (start end_ i : Z) :
  0 <= start -> start <= i < end_ -> end_ <= blength buf ->
  nth (Z.to_nat (i - start)) (frame_bytes buf start end_) x00 = nth (Z.to_nat i) buf x00.
Proof.
  intros Hs Hi He. unfold frame_bytes, blength in *.
  rewrite nth_firstn.
  replace (Z.to_nat (i - start) <? Z.to_nat (end_ - start))%nat with true
    by (symmetry; apply Nat.ltb_lt; lia).
  rewrite nth_skipn. f_equal. lia.
Qed.

Lemma frame_bytes_length (buf : buffer) (start end_ : Z) :
  0 <= start -> start <= end_ -> end_ <= blength buf ->
  blength (frame_bytes buf start end_) = end_ - start.
Proof.
  intros Hs Hi He. unfold frame_bytes, blength in *.
  rewrite length_firstn, length_skipn. lia.
Qed.

Lemma no_nul_byte_nth (bs : list byte) (j : nat) :
  no_nul_byte bs = true -> (j < length bs)%nat -> byte_val (nth j bs x00) <> 0.
Proof.
  unfold no_nul_byte. intros H Hj.
  rewrite forallb_forall in H. specialize (H (nth j bs x00) (nth_In bs x00 Hj)).
  apply negb_true_iff, Z.eqb_neq in H. exact H.
Qed.

Lemma variant_sep_exhausts (buf : buffer) (start : Z) (n : nat) :
  forall sep0,
    Z.of_nat n = sep0 - start + 1 ->
    (forall i, start <= i <= sep0 -> 0 <= i < blength buf /\ byte_at buf i <> 0) ->
    variant_sep buf start n sep0 = Ok (start - 1).
Proof.
  induction n as [|n IH]; intros sep0 Hn Hall; cbn [variant_sep].
  - f_equal. lia.
  - replace (sep0 <? start) with false by (symmetry; apply Z.ltb_ge; lia).
    destruct (Hall sep0) as [Hb Hz]; [lia|].
    unfold readUInt8, in_bounds.
    replace (0 <=? sep0) with true by (symmetry; apply Z.leb_le; lia).
    replace (sep0 + 1 <=? blength buf) with true by (symmetry; apply Z.leb_le; lia).
    cbn [andb bind].
    replace (byte_at buf sep0 =? 0) with false by (symmetry; apply Z.eqb_neq; exact Hz).
    apply IH; [lia|]. intros i Hi. apply Hall. lia.
Qed.

(** What the variant reader does on a frame of the buffer that holds no
    0x00 byte: the whole frame, read as ASCII, is the signature, and the
    value is parsed from [buf.slice(start, start - 1)]; the default value of
    the descriptor plays no part. *)
Lemma variant_without_nul_read (parse_ : jsstring -> buffer -> result value)
      (buf : buffer) (start end_ : Z) :
  0 <= start -> start < end_ -> end_ <= blength buf ->
  no_nul_byte (frame_bytes buf start end_) = true ->
  read parse_ TVariant buf start end_
  = (v <- parse_ (ascii_decode (frame_bytes buf start end_))
                 (slice buf start (start - 1)) ;;
     Ok (VVariant (ascii_decode (frame_bytes buf start end_)) v)).
Proof.
  intros Hs Hlt He Hnul. cbn [read].
  rewrite (variant_sep_exhausts buf start (Z.to_nat (end_ - start)) (end_ - 1)).
  - cbn [bind]. replace (start - 1 + 1) with start by lia.
    now rewrite window_frame by lia.
  - lia.
  - intros i Hi. split; [lia|]. unfold byte_at.
    rewrite <- (frame_bytes_nth buf start end_ i) by lia.
    apply no_nul_byte_nth; [exact Hnul|].
    pose proof (frame_bytes_length buf start end_ Hs (Z.lt_le_incl _ _ Hlt) He) as Hl.
    unfold blength in Hl. lia.
Qed.

(** * Further properties of the code *)

(** ** [align] *)

(** X1.  For a position [n >= 0] and a size [size > 0], [align(n, size)] is
    the least multiple of [size] that is not below [n]: it is a multiple of
    [size] and lies in [n, n + size). *)
Theorem X1_align_least_multiple (n size : Z) (Hn : 0 <= n) (Hs : 0 < size) :
  Z.rem (align n size) size = 0 /\ n <= align n size < n + size.
Proof.
  unfold align. rewrite (Z.rem_mod_nonneg n size) by lia.
  pose proof (Z.mod_pos_bound n size Hs) as Hm.
  destruct (Z.eq_dec (n mod size) 0) as [E | E].
  - rewrite E, Z.sub_0_r, Z.rem_same by lia. rewrite Z.add_0_r.
    rewrite Z.rem_mod_nonneg by lia. split; [exact E | lia].
  - rewrite (Z.rem_small (size - n mod size) size) by lia.
    split; [|lia].
    replace (n + (size - n mod size)) with ((n / size + 1) * size)
      by (pose proof (Z.div_mod n size); lia).
    apply Z.rem_mul. lia.
Qed.

Lemma X1_align_least_multiple_witness :
  align 5 4 = 8 /\ Z.rem (align 5 4) 4 = 0 /\ 5 <= align 5 4 < 5 + 4.
Proof.
  split; [reflexivity|].
  exact (X1_align_least_multiple 5 4 (Zle_bool_imp_le 0 5 eq_refl) eq_refl).
Defined.

(** ** Descriptors *)

Lemma fold_max_alignment_values (els : list gtype) :
  Forall (fun el => In (alignment el) [1; 2; 4; 8]) els ->
  forall a, In a [1; 2; 4; 8] ->
            In (fold_left (fun a el => Z.max a (alignment el)) els a) [1; 2; 4; 8].
Proof.
  induction 1 as [|el els Hel _ IH]; intros a Ha; cbn [fold_left]; [exact Ha|].
  apply IH. cbn [In] in *.
  destruct Ha as [<- | [<- | [<- | [<- | []]]]];
    destruct Hel as [<- | [<- | [<- | [<- | []]]]]; cbn; tauto.
Qed.

Lemma alignment_values (ty : gtype) : In (alignment ty) [1; 2; 4; 8].
Proof.
  induction ty using gtype_nested_ind; cbn [alignment]; try (cbn; tauto);
    try assumption.
  - apply fold_max_alignment_values; [assumption | cbn; tauto].
  - cbn [In] in *.
    destruct IHty1 as [<- | [<- | [<- | [<- | []]]]];
      destruct IHty2 as [<- | [<- | [<- | [<- | []]]]]; cbn; tauto.
Qed.

Lemma fold_max_alignment_ge (els : list gtype) (el : gtype) :
  In el els ->
  forall a, alignment el <= fold_left (fun a el => Z.max a (alignment el)) els a.
Proof.
  assert (Hmono : forall l a,
             a <= fold_left (fun a el => Z.max a (alignment el)) l a).
  { induction l as [|x l IH]; intros a; cbn [fold_left]; [lia|].
    specialize (IH (Z.max a (alignment x))). lia. }
  induction els as [|x els IH]; intros Hin a; [contradiction|].
  cbn [fold_left]. destruct Hin as [-> | Hin].
  - specialize (Hmono els (Z.max a (alignment el))). lia.
  - apply IH. exact Hin.
Qed.

(** X2.  The alignment of every descriptor is 1, 2, 4 or 8; the one of a
    tuple or dict-entry is the largest among its parts, so that a position
    aligned for the container is aligned for each part. *)
Theorem X2_alignment_values (ty : gtype) :
  In (alignment ty) [1; 2; 4; 8]
  /\ match ty with
     | TTuple _ elements => forall el, In el elements -> alignment el <= alignment ty
     | TDictEntry _ key value => alignment key <= alignment ty
                                 /\ alignment value <= alignment ty
     | _ => True
     end.
Proof.
  split; [apply alignment_values|].
  destruct ty; try exact I.
  - intros el Hin. cbn [alignment]. apply fold_max_alignment_ge. exact Hin.
  - cbn [alignment]. lia.
Qed.

Lemma fold_add_aligned_fixed (els : list gtype) :
  Forall (fun el => if all_fixed el
                    then exists n, fixedSize el = Some n /\ 1 <= n
                    else fixedSize el = None) els ->
  forall acc,
    0 <= acc ->
    if forallb all_fixed els
    then exists r,
        fold_left (fun size el => add_aligned size (alignment el) (fixedSize el))
                  els (Some acc) = Some r
        /\ acc <= r /\ (els <> [] -> 1 <= r)
    else fold_left (fun size el => add_aligned size (alignment el) (fixedSize el))
                   els (Some acc) = None.
Proof.
  induction 1 as [|el els Hel _ IH]; intros acc Hacc; cbn [forallb fold_left].
  - exists acc. split; [reflexivity|]. split; [lia|]. intros H; contradiction.
  - pose proof (alignment_range el) as Ha.
    pose proof (align_ge acc (alignment el)) as Hge.
    destruct (all_fixed el); cbn [andb].
    + destruct Hel as [n [-> Hn]]. cbn [add_aligned].
      specialize (IH (align acc (alignment el) + n)).
      destruct (forallb all_fixed els).
      * destruct IH as [r [-> [Hr _]]]; [lia|]. exists r.
        split; [reflexivity|]. split; [lia|]. intros _. lia.
      * apply IH. lia.
    + rewrite Hel. cbn [add_aligned]. apply fold_add_aligned_None.
Qed.

Lemma fixedSize_all_fixed (ty : gtype) :
  if all_fixed ty
  then exists n, fixedSize ty = Some n /\ 1 <= n
  else fixedSize ty = None.
Proof.
  induction ty as [| | | | | | | | | id | | id el IH | id els IH | id k v IHk IHv | id el IH]
    using gtype_nested_ind;
    cbn [all_fixed fixedSize];
    try (eexists; split; [reflexivity | lia]); try reflexivity.
  - pose proof (fold_add_aligned_fixed els IH 0 (Z.le_refl 0)) as H.
    destruct (forallb all_fixed els).
    + destruct H as [r [-> [Hr _]]].
      destruct r as [|r|r]; [exists 1 | exists (Z.pos r) | lia];
        (split; [reflexivity | lia]).
    + rewrite H. reflexivity.
  - pose proof (alignment_range v) as Ha.
    destruct (all_fixed k); cbn [andb].
    + destruct IHk as [fk [-> Hk]].
      destruct (all_fixed v).
      * destruct IHv as [fv [-> Hv]]. cbn [add_aligned].
        eexists. split; [reflexivity|].
        pose proof (align_ge fk (alignment v)). lia.
      * rewrite IHv. reflexivity.
    + rewrite IHk. reflexivity.
Qed.

Lemma fixed_all_fixed (ty : gtype) :
  is_fixed ty = all_fixed ty
  /\ fixedSize ty = (if all_fixed ty then Some (fixed ty) else None)
  /\ (if all_fixed ty then 1 else 0) <= fixed ty.
Proof.
  pose proof (fixedSize_all_fixed ty) as H. unfold is_fixed, fixed.
  destruct (all_fixed ty).
  - destruct H as [n [-> Hn]]. repeat split; [|lia].
    replace (n =? 0) with false by (symmetry; apply Z.eqb_neq; lia). reflexivity.
  - rewrite H. repeat split. lia.
Qed.

(** X3.  A descriptor has a fixed size exactly when all its components
    are fixed-width (no text, variant, maybe or array anywhere in it), and
    the fixed size is then at least 1: the test [if (el.fixedSize)] of the
    readers and writers tells the fixed-size types from the others. *)
Theorem X3_is_fixed_all_fixed (ty : gtype) :
  is_fixed ty = all_fixed ty
  /\ fixedSize ty = (if all_fixed ty then Some (fixed ty) else None)
  /\ (if all_fixed ty then 1 else 0) <= fixed ty.
Proof.
  exact (fixed_all_fixed ty).
Qed.

(** ** Frames of the wrong length *)

Lemma read_mismatch_default
        (parse_ : jsstring -> buffer -> result value) (ty : gtype)
        (buf : buffer) (start end_ : Z)
        (Hfixed : is_fixed ty = true)
        (Hlen : end_ - start <> fixed ty) :
  read parse_ ty buf start end_ = Ok (defaultValue ty).
Proof.
  apply Z.eqb_neq in Hlen.
  destruct ty; try discriminate Hfixed; cbn [read];
    try (change (end_ - start =? fixed TByte) with (end_ - start =? 1) in Hlen);
    try (change (end_ - start =? fixed TInt16) with (end_ - start =? 2) in Hlen);
    try (change (end_ - start =? fixed TUInt16) with (end_ - start =? 2) in Hlen);
    try (change (end_ - start =? fixed TInt32) with (end_ - start =? 4) in Hlen);
    try (change (end_ - start =? fixed TUInt32) with (end_ - start =? 4) in Hlen);
    try (change (end_ - start =? fixed TInt64) with (end_ - start =? 8) in Hlen);
    try (change (end_ - start =? fixed TUInt64) with (end_ - start =? 8) in Hlen);
    try (change (end_ - start =? fixed TDouble) with (end_ - start =? 8) in Hlen);
    try (change (end_ - start =? fixed TBoolean) with (end_ - start =? 1) in Hlen);
    rewrite ?Hfixed, Hlen; reflexivity.
Qed.

(** X4.  Under a fixed-size descriptor (a fixed-width type, or a tuple or
    dict-entry of fixed-size types), a frame whose length is not the fixed
    size reads as the default value of the descriptor: nothing of the
    buffer is read and no error is raised. *)
Theorem X4_fixed_size_mismatch_default
        (parse_ : jsstring -> buffer -> result value) (ty : gtype)
        (buf : buffer) (start end_ : Z)
        (Hfixed : is_fixed ty = true)
        (Hlen : end_ - start <> fixed ty) :
  read parse_ ty buf start end_ = Ok (defaultValue ty).
Proof.
  exact (read_mismatch_default parse_ ty buf start end_ Hfixed Hlen).
Qed.

Lemma X4_fixed_size_mismatch_default_witness :
  read (parse_fuel 0) (TTuple (str "(iy)") [TInt32; TByte]) [x01; x02; x03] 0 3
  = Ok (VSeq [VNum 0; VNum 0])
  /\ fixed (TTuple (str "(iy)") [TInt32; TByte]) = 5.
Proof.
  split; [|reflexivity].
  apply (X4_fixed_size_mismatch_default (parse_fuel 0)
           (TTuple (str "(iy)") [TInt32; TByte]) [x01; x02; x03] 0 3 eq_refl).
  vm_compute. discriminate.
Defined.

(** ** The id of a descriptor *)

Lemma nth_error_firstn_skipn {A : Type} (l : list A) (n : nat) (x : A) :
  nth_error l n = Some x -> firstn 1 (skipn n l) = [x].
Proof.
  revert l. induction n as [|n IH]; intros [|y l] H; try discriminate H.
  - injection H as ->. reflexivity.
  - exact (IH l H).
Qed.

Lemma sig_char_substr (signature : jsstring) (index : Z) (c : ascii) :
  sig_char signature index = Some c -> substr signature index 1 = [unit_of_ascii c].
Proof.
  unfold sig_char, charAt, substr.
  destruct (index <? 0); [discriminate|].
  destruct (nth_error signature (Z.to_nat index)) as [u|] eqn:En; [|discriminate].
  destruct ((0 <=? u) && (u <? 256)) eqn:Eu; [|discriminate].
  apply andb_true_iff in Eu. destruct Eu as [E0 E1].
  apply Z.leb_le in E0. apply Z.ltb_lt in E1.
  intros H. injection H as <-.
  change (Z.to_nat 1) with 1%nat. rewrite (nth_error_firstn_skipn _ _ _ En).
  unfold unit_of_ascii. rewrite N_ascii_embedding by lia.
  rewrite Z2N.id by lia. reflexivity.
Qed.

(** The id of the descriptor of a single-character type is the character
    [nextType] dispatched on. *)
Lemma nextType_fuel_leaf_id (fuel : nat) (signature : jsstring) (index : Z) (ty : gtype) :
  nextType_fuel (S fuel) signature index = Ok (Some ty) ->
  match ty with
  | TMaybe _ _ | TTuple _ _ | TDictEntry _ _ _ | TArray _ _ => True
  | _ => type_id ty = substr signature index 1
  end.
Proof.
  cbn [nextType_fuel].
  destruct (sig_char signature index) as [c|] eqn:Ec; [|discriminate].
  apply sig_char_substr in Ec. intros H.
  ascii_cases c; cbv beta iota in H; try discriminate H;
    try (injection H as <-; cbn [type_id]; rewrite Ec; reflexivity);
    lazymatch type of H with
    | context [TTuple] =>
        destruct (tuple_elements fuel signature (index + 1) []) as [[e els]| | |];
        try discriminate H; cbn [bind] in H; injection H as <-; exact I
    | context [TDictEntry] =>
        destruct (nextType_fuel fuel signature (index + 1)) as [[k|]| | |];
        try discriminate H; cbn [bind] in H;
        destruct (nextType_fuel fuel signature (index + 1 + jslength (type_id k)))
          as [[v|]| | |]; try discriminate H;
        cbn [bind] in H; injection H as <-; exact I
    | _ =>
        destruct (nextType_fuel fuel signature (index + 1)) as [[el|]| | |];
        try discriminate H; cbn [bind] in H; injection H as <-; exact I
    end.
Qed.

Lemma substr_idem (s : jsstring) (from len : Z) :
  substr s from (jslength (substr s from len)) = substr s from len.
Proof.
  unfold substr, jslength. rewrite Nat2Z.id, length_firstn.
  destruct (Nat.le_ge_cases (Z.to_nat len) (length (skipn (Z.to_nat from) s))) as [H | H].
  - rewrite Nat.min_l by exact H. reflexivity.
  - rewrite Nat.min_r by exact H. rewrite firstn_all, firstn_all2 by exact H.
    reflexivity.
Qed.

(** The id of a descriptor [nextType] built at [index] is the piece of the
    signature that starts at [index] and has the length of the id. *)
Lemma nextType_fuel_id (fuel : nat) (signature : jsstring) (index : Z) (ty : gtype) :
  nextType_fuel fuel signature index = Ok (Some ty) ->
  type_id ty = substr signature index (jslength (type_id ty)).
Proof.
  destruct fuel as [|fuel]; [discriminate|]. intros H.
  pose proof (nextType_fuel_leaf_id _ _ _ _ H) as Hleaf.
  destruct (nextType_fuel_inv _ _ _ _ H)
    as [Hidx [Hl | [(el & Hel & Hty) | [(e & els & Ht & ->) | (k & v & Hk & Hv & ->)]]]].
  - destruct ty; try contradiction; rewrite Hleaf, substr_idem; reflexivity.
  - destruct Hty as [-> | ->]; cbn [type_id]; rewrite substr_idem; reflexivity.
  - destruct (proj2 (nextType_fuel_ok fuel) _ _ _ _ _ Ht (Forall_nil _))
      as (_ & He & Hb).
    pose proof (ids_length_nonneg els) as Hn. cbn [ids_length fold_right] in He.
    cbn [type_id]. rewrite strslice_length by lia.
    unfold strslice, substr. reflexivity.
  - cbn [type_id]. rewrite substr_idem. reflexivity.
Qed.

Lemma parseType_id (s : jsstring) (ty : gtype) :
  parseType s = Ok ty -> type_id ty = s.
Proof.
  intros H.
  unfold parseType, nextType in H.
  destruct (nextType_fuel (S (2 * length s)) s 0) as [[t|]| | |] eqn:En;
    try discriminate H.
  cbn [bind] in H.
  destruct (jslength (type_id t) =? jslength s) eqn:El; [|discriminate H].
  injection H as <-. apply Z.eqb_eq in El.
  rewrite (nextType_fuel_id _ _ _ _ En), El.
  unfold substr, jslength. rewrite Nat2Z.id. cbn [Z.to_nat skipn].
  apply firstn_all.
Qed.

(** X5.  The id of the descriptor [parseType] returns is the signature it
    was given: whatever [parseType] accepts, it has consumed entirely, and
    the ids it cut out of the signature, [substr] by [substr], make up the
    signature again. *)
Theorem X5_parseType_id (s : jsstring) (ty : gtype) (H : parseType s = Ok ty) :
  type_id ty = s.
Proof.
  exact (parseType_id s ty H).
Qed.

Lemma X5_parseType_id_witness :
  exists ty, parseType (str "a{s(yv)}") = Ok ty /\ type_id ty = str "a{s(yv)}".
Proof.
  eexists. split; [vm_compute; reflexivity|].
  apply (X5_parseType_id (str "a{s(yv)}")). vm_compute. reflexivity.
Defined.

(** X6.  Every well-formed signature (one complete type of the grammar:
    a single-character type, [m] or [a] before a type, types between
    parentheses, two types between braces) is accepted by [parseType]. *)
Theorem X6_parseType_accepts_well_formed (s : jsstring) (H : wf_type s) :
  exists ty, parseType s = Ok ty /\ type_id ty = s.
Proof.
  destruct (parseType_accepts s H) as [ty [Hty Hid]].
  exists ty. split; [exact Hty | exact Hid].
Qed.

Lemma X6_parseType_accepts_well_formed_witness :
  wf_type (str "a{sv}")
  /\ exists ty, parseType (str "a{sv}") = Ok ty /\ type_id ty = str "a{sv}".
Proof.
  assert (Hwf : wf_type (str "a{sv}")).
  { apply (wf_array (str "{sv}")).
    apply (wf_dict (str "s") (str "v")); apply wf_leaf; cbn; tauto. }
  split; [exact Hwf|].
  exact (X6_parseType_accepts_well_formed (str "a{sv}") Hwf).
Defined.

(** X7.  [parseType] returns on every string, and either yields a
    descriptor or raises a TypeError: the one it throws itself, naming the
    signature, or the one of a property read on the [undefined] that
    [nextType] returned for a missing or unknown inner type.  It raises
    nothing else. *)
Theorem X7_parseType_outcomes (s : jsstring) :
  match parseType s with
  | Ok ty => type_id ty = s
  | Throw e => e = TypeError_invalid s \/ e = TypeError_undefined
  | Unmodelled | OutOfFuel => False
  end.
Proof.
  destruct (parseType_outcomes s) as [[ty Hty] | [H | H]]; rewrite ?H.
  - rewrite Hty. exact (parseType_id s ty Hty).
  - left. reflexivity.
  - right. reflexivity.
Qed.

(** ** The call of [parse] in the variant reader *)

Lemma read_elements_ext (o : Offsets.t) (end_ : Z) (buf : buffer)
      (p1 p2 : jsstring -> buffer -> result value) (els : list gtype) :
  Forall (fun el => forall start end_,
              read p1 el buf start end_ = read p2 el buf start end_) els ->
  forall cur curOffset,
    read_elements o end_ (map (fun el => (el, read p1 el buf)) els) cur curOffset
    = read_elements o end_ (map (fun el => (el, read p2 el buf)) els) cur curOffset.
Proof.
  induction 1 as [|el els Hel _ IH]; intros cur curOffset; cbn [map read_elements];
    [reflexivity|].
  assert (Hrest : match map (fun el => (el, read p1 el buf)) els with
                  | [] => true | _ :: _ => false end
                  = match map (fun el => (el, read p2 el buf)) els with
                    | [] => true | _ :: _ => false end)
    by (destruct els; reflexivity).
  destruct (is_fixed el).
  - cbn [bind]. rewrite Hel, IH. reflexivity.
  - destruct els as [|el' els']; cbn [map] in *.
    + cbn [bind]. rewrite Hel. reflexivity.
    + destruct (Offsets.read o (curOffset - 1)); cbn [bind]; try reflexivity.
      rewrite Hel, IH. reflexivity.
Qed.

Lemma array_fixed_ext (rd1 rd2 : Z -> Z -> result value) (fs : Z) :
  (forall s e, rd1 s e = rd2 s e) ->
  forall n cur, array_fixed rd1 n cur fs = array_fixed rd2 n cur fs.
Proof.
  intros H. induction n as [|n IH]; intros cur; cbn [array_fixed]; [reflexivity|].
  rewrite H, IH. reflexivity.
Qed.

Lemma array_variable_ext (rd1 rd2 : Z -> Z -> result value) (o : Offsets.t) (al k : Z) :
  (forall s e, rd1 s e = rd2 s e) ->
  forall count i cur,
    array_variable rd1 o al count i k cur = array_variable rd2 o al count i k cur.
Proof.
  intros H. induction count as [|n IH]; intros i cur; cbn [array_variable];
    [reflexivity|].
  destruct (Offsets.read_at o (- k + Offsets.size o * i)); cbn [bind]; try reflexivity.
  rewrite H, IH. reflexivity.
Qed.

Lemma existsb_has_variant_In (els : list gtype) (el : gtype) :
  In el els -> has_variant el = true -> existsb has_variant els = true.
Proof.
  intros Hin Hel. apply existsb_exists. exists el. split; assumption.
Qed.

(** A reader consults the [parse] it is given only under a variant, and
    there only on a buffer shorter than its own or on the empty
    signature. *)
Lemma read_ext (p1 p2 : jsstring -> buffer -> result value) (buf : buffer) (ty : gtype) :
  (has_variant ty = true ->
   forall t d, blength d < blength buf \/ t = [] -> p1 t d = p2 t d) ->
  forall start end_, read p1 ty buf start end_ = read p2 ty buf start end_.
Proof.
  induction ty as [| | | | | | | | | id | | id el IH | id els IH | id k v IHk IHv | id el IH]
    using gtype_nested_ind; intros Hp start end_; try reflexivity.
  - cbn [read].
    destruct (variant_sep buf start (Z.to_nat (end_ - start)) (end_ - 1)) as [sep| | |] eqn:Es;
      cbn [bind]; try reflexivity.
    rewrite (Hp eq_refl _ _ (variant_call_shrinks buf start end_ sep Es)). reflexivity.
  - cbn [read]. rewrite !(IH Hp). reflexivity.
  - cbn [read].
    assert (Hels : Forall (fun el => forall start end_,
                               read p1 el buf start end_ = read p2 el buf start end_) els).
    { rewrite Forall_forall in IH |- *. intros el Hin. apply IH; [exact Hin|].
      intros Hv. apply Hp. cbn [has_variant].
      exact (existsb_has_variant_In els el Hin Hv). }
    destruct (is_fixed (TTuple id els) && negb (end_ - start =? fixed (TTuple id els)));
      [reflexivity|].
    destruct (offsetInfo buf start end_) as [o| | |]; cbn [bind]; try reflexivity.
    rewrite (read_elements_ext _ _ _ p1 p2 els Hels). reflexivity.
  - cbn [read].
    assert (Hk : forall s e, read p1 k buf s e = read p2 k buf s e).
    { apply IHk. intros Hv. apply Hp. cbn [has_variant]. rewrite Hv. reflexivity. }
    assert (Hv : forall s e, read p1 v buf s e = read p2 v buf s e).
    { apply IHv. intros Hv. apply Hp. cbn [has_variant]. rewrite Hv.
      apply orb_true_r. }
    destruct (is_fixed (TDictEntry id k v)
              && negb (end_ - start =? fixed (TDictEntry id k v))); [reflexivity|].
    destruct (offsetInfo buf start end_) as [o| | |]; cbn [bind]; try reflexivity.
    destruct (is_fixed k); cbn [bind].
    + rewrite Hk, Hv. reflexivity.
    + destruct (Offsets.read o (-1)); cbn [bind]; try reflexivity.
      rewrite Hk, Hv. reflexivity.
  - cbn [read]. specialize (IH Hp).
    destruct (start =? end_); [reflexivity|].
    destruct (is_fixed el).
    + destruct (negb (Z.rem (end_ - start) (fixed el) =? 0)); [reflexivity|].
      rewrite (array_fixed_ext _ _ _ IH). reflexivity.
    + destruct (offsetInfo buf start end_) as [o| | |]; cbn [bind]; try reflexivity.
      destruct (Offsets.read o (-1)); cbn [bind]; try reflexivity.
      rewrite (array_variable_ext _ _ _ _ _ IH). reflexivity.
Qed.

(** Any fuel above the length of the data gives the same result. *)
Lemma parse_fuel_stable (fuel : nat) :
  forall fuel' typestr data,
    (length data < fuel)%nat \/ typestr = [] ->
    (length data < fuel')%nat \/ typestr = [] ->
    parse_fuel fuel typestr data = parse_fuel fuel' typestr data.
Proof.
  induction fuel as [|fuel IH]; intros fuel' typestr data H H'.
  - destruct H as [H | ->]; [lia|].
    destruct fuel'; cbn [parse_fuel]; rewrite parseType_empty; reflexivity.
  - destruct fuel' as [|fuel'].
    + destruct H' as [H' | ->]; [lia|].
      cbn [parse_fuel]; rewrite parseType_empty; reflexivity.
    + cbn [parse_fuel]. destruct (parseType typestr) as [ty| | |] eqn:Ety;
        cbn [bind]; try reflexivity.
      assert (Hne : typestr <> [])
        by (intros ->; rewrite parseType_empty in Ety; discriminate Ety).
      apply read_ext. intros _ t d Hd. apply IH.
      * destruct Hd as [Hd | Hd]; [left | right; exact Hd].
        unfold blength in Hd. destruct H as [H | H]; [lia | contradiction].
      * destruct Hd as [Hd | Hd]; [left | right; exact Hd].
        unfold blength in Hd. destruct H' as [H' | H']; [lia | contradiction].
Qed.

(** X8.  [parse] returns on every input.  The [parse] a variant reader
    calls runs on a strictly shorter buffer than the reader's own, or on
    the empty signature, which [parseType] rejects at once; so the nesting
    of these calls is bounded by the length of the data, and a larger
    bound changes nothing. *)
Theorem X8_parse_returns (fuel : nat) (typestr : jsstring) (data : buffer)
        (Hfuel : (length data < fuel)%nat) :
  parse_fuel fuel typestr data = parse typestr data
  /\ fuel_ok (parse typestr data).
Proof.
  split.
  - unfold parse. apply parse_fuel_stable; left; [exact Hfuel | lia].
  - apply parse_fuel_enough. left. lia.
Qed.

Lemma X8_parse_returns_witness :
  parse_fuel 9 (str "v") [x07; x00; x79; x00; x76]
  = parse (str "v") [x07; x00; x79; x00; x76]
  /\ fuel_ok (parse (str "v") [x07; x00; x79; x00; x76])
  /\ parse (str "v") [x07; x00; x79; x00; x76]
     = Ok (VVariant (str "v") (VVariant (str "y") (VNum 7))).
Proof.
  split; [|split].
  - apply (X8_parse_returns 9 (str "v") [x07; x00; x79; x00; x76]). cbn. lia.
  - apply (X8_parse_returns 9 (str "v") [x07; x00; x79; x00; x76]). cbn. lia.
  - vm_compute. reflexivity.
Defined.

Lemma variant_sep_last_nul (body sigb : list byte) :
  no_nul_byte sigb = true ->
  forall k,
    (k <= length sigb)%nat ->
    variant_sep (body ++ x00 :: sigb) 0 (S (length body + k))
                (Z.of_nat (length body + k))
    = Ok (blength body).
Proof.
  intros Hnul. induction k as [|k IH]; intros Hk; cbn [variant_sep].
  - replace (Z.of_nat (length body + 0) <? 0) with false
      by (symmetry; apply Z.ltb_ge; lia).
    unfold readUInt8, in_bounds, blength. rewrite length_app. cbn [length].
    replace (0 <=? Z.of_nat (length body + 0)) with true
      by (symmetry; apply Z.leb_le; lia).
    replace (Z.of_nat (length body + 0) + 1 <=? Z.of_nat (length body + S (length sigb)))
      with true by (symmetry; apply Z.leb_le; lia).
    cbn [andb bind]. unfold byte_at. rewrite Nat2Z.id, Nat.add_0_r.
    rewrite app_nth2 by lia. rewrite Nat.sub_diag. cbn [nth].
    change (byte_val x00 =? 0) with true. cbv beta iota. reflexivity.
  - replace (Z.of_nat (length body + S k) <? 0) with false
      by (symmetry; apply Z.ltb_ge; lia).
    unfold readUInt8, in_bounds, blength. rewrite length_app. cbn [length].
    replace (0 <=? Z.of_nat (length body + S k)) with true
      by (symmetry; apply Z.leb_le; lia).
    replace (Z.of_nat (length body + S k) + 1 <=? Z.of_nat (length body + S (length sigb)))
      with true by (symmetry; apply Z.leb_le; lia).
    cbn [andb bind]. unfold byte_at. rewrite Nat2Z.id.
    rewrite app_nth2 by lia.
    replace (length body + S k - length body)%nat with (S k) by lia. cbn [nth].
    replace (byte_val (nth k sigb x00) =? 0) with false
      by (symmetry; apply Z.eqb_neq; apply no_nul_byte_nth; [exact Hnul | lia]).
    replace (length body + S k)%nat with (S (length body + k)) by lia.
    replace (Z.of_nat (S (length body + k)) - 1) with (Z.of_nat (length body + k)) by lia.
    apply IH. lia.
Qed.

Lemma window_app (a b : list byte) :
  window (a ++ b) (blength a) (blength (a ++ b)) = b.
Proof.
  unfold window, blength. rewrite length_app.
  rewrite Z.max_l, Z.min_l by lia. rewrite Nat2Z.id.
  rewrite skipn_app, skipn_all, Nat.sub_diag. cbn [app skipn].
  replace (Z.to_nat (Z.of_nat (length a + length b) - Z.of_nat (length a)))
    with (length b) by lia.
  apply firstn_all.
Qed.

Lemma slice_app (a b : list byte) :
  b <> [] -> slice (a ++ b) 0 (blength a) = a.
Proof.
  intros Hb. unfold slice, adjustOffset, blength. rewrite length_app.
  assert (0 < length b)%nat by (destruct b; [contradiction | cbn; lia]).
  change (0 <? 0) with false. cbv beta iota.
  replace (0 <? Z.of_nat (length a + length b)) with true
    by (symmetry; apply Z.ltb_lt; lia).
  replace (Z.of_nat (length a) <? 0) with false by (symmetry; apply Z.ltb_ge; lia).
  replace (Z.of_nat (length a) <? Z.of_nat (length a + length b)) with true
    by (symmetry; apply Z.ltb_lt; lia).
  cbn [Z.to_nat skipn]. rewrite Z.sub_0_r, Nat2Z.id.
  rewrite firstn_app, Nat.sub_diag, firstn_all. cbn [firstn]. apply app_nil_r.
Qed.

(** What the variant reader does on a buffer whose last 0x00 byte
    separates [body] from [sigb]. *)
Lemma read_variant_split (parse_ : jsstring -> buffer -> result value)
      (body sigb : list byte) :
  no_nul_byte sigb = true ->
  read parse_ TVariant (body ++ x00 :: sigb) 0 (blength (body ++ x00 :: sigb))
  = (v <- parse_ (ascii_decode sigb) body ;; Ok (VVariant (ascii_decode sigb) v)).
Proof.
  intros Hnul. cbn [read].
  replace (Z.to_nat (blength (body ++ x00 :: sigb) - 0))
    with (S (length body + length sigb))
    by (unfold blength; rewrite length_app; cbn [length]; lia).
  replace (blength (body ++ x00 :: sigb) - 1)
    with (Z.of_nat (length body + length sigb))
    by (unfold blength; rewrite length_app; cbn [length]; lia).
  rewrite (variant_sep_last_nul body sigb Hnul (length sigb) (Nat.le_refl _)).
  cbn [bind].
  rewrite (slice_app body (x00 :: sigb)) by discriminate.
  replace (window (body ++ x00 :: sigb) (blength body + 1)
                  (blength (body ++ x00 :: sigb))) with sigb; [reflexivity|].
  change (body ++ x00 :: sigb) with (body ++ [x00] ++ sigb). rewrite app_assoc.
  rewrite <- (window_app (body ++ [x00]) sigb) at 1.
  f_equal. unfold blength. rewrite !length_app. cbn [length]. lia.
Qed.

(** X9.  A variant is read by composition: when the data is a body, a
    0x00 byte and a tail without 0x00 byte, [parse("v", data)] parses the
    body under the signature the tail spells in ASCII and wraps the result
    with that signature; an error of the inner [parse] (an invalid
    signature included) is the error of the whole. *)
Theorem X9_parse_variant (body sigb : list byte) (Hsig : no_nul_byte sigb = true) :
  parse (str "v") (body ++ x00 :: sigb)
  = (v <- parse (ascii_decode sigb) body ;; Ok (VVariant (ascii_decode sigb) v)).
Proof.
  rewrite parse_unfold. change (parseType (str "v")) with (Ok TVariant). cbn [bind].
  rewrite (read_variant_split _ body sigb Hsig).
  rewrite (parse_fuel_stable _ (S (length body)) (ascii_decode sigb) body);
    [reflexivity | left | left; lia].
  rewrite length_app. cbn [length]. lia.
Qed.

Lemma X9_parse_variant_witness :
  parse (str "v") ([x01; x02] ++ x00 :: [x61; x79])
  = Ok (VVariant (str "ay") (VSeq [VNum 1; VNum 2])).
Proof.
  rewrite (X9_parse_variant [x01; x02] [x61; x79] eq_refl).
  vm_compute. reflexivity.
Defined.

(** ** Readers without a variant *)











(** ** The offset table, written and read back *)

Lemma le_bytes_length (w : nat) : forall v, length (DynamicBuffer.le_bytes w v) = w.
Proof.
  induction w as [|w IH]; intros v; cbn [DynamicBuffer.le_bytes length];
    [reflexivity | now rewrite IH].
Qed.

Lemma cells_length (w : nat) (offs : list Z) :
  length (flat_map (DynamicBuffer.le_bytes w) offs) = (w * length offs)%nat.
Proof.
  induction offs as [|o offs IH]; cbn [flat_map length]; [lia|].
  rewrite length_app, le_bytes_length, IH. lia.
Qed.

Lemma cells_nth (w : nat) (offs : list Z) (j : nat) :
  (j < w)%nat ->
  forall i,
    (i < length offs)%nat ->
    nth (w * i + j) (flat_map (DynamicBuffer.le_bytes w) offs) x00
    = nth j (DynamicBuffer.le_bytes w (nth i offs 0)) x00.
Proof.
  intros Hj. induction offs as [|o offs IH]; intros i Hi; cbn [length] in Hi; [lia|].
  cbn [flat_map]. destruct i as [|i].
  - rewrite Nat.mul_0_r. cbn [Nat.add nth].
    apply app_nth1. rewrite le_bytes_length. exact Hj.
  - rewrite app_nth2 by (rewrite le_bytes_length; nia).
    rewrite le_bytes_length.
    replace (w * S i + j - w)%nat with (w * i + j)%nat by nia.
    cbn [nth]. apply IH. lia.
Qed.

Lemma byte_at_cells (buf : buffer) (w : nat) (offs : list Z) (i j : nat) (p : Z) :
  (i < length offs)%nat -> (j < w)%nat ->
  p = blength buf + Z.of_nat w * Z.of_nat i + Z.of_nat j ->
  byte_at (buf ++ flat_map (DynamicBuffer.le_bytes w) offs) p
  = byte_val (nth j (DynamicBuffer.le_bytes w (nth i offs 0)) x00).
Proof.
  intros Hi Hj ->. unfold byte_at, blength.
  replace (Z.to_nat (Z.of_nat (length buf) + Z.of_nat w * Z.of_nat i + Z.of_nat j))
    with (length buf + (w * i + j))%nat by lia.
  rewrite app_nth2_plus. rewrite (cells_nth w offs j Hj i Hi). reflexivity.
Qed.

Lemma in_bounds_cells (buf : buffer) (w : nat) (offs : list Z) (i : nat) :
  (i < length offs)%nat ->
  in_bounds (buf ++ flat_map (DynamicBuffer.le_bytes w) offs)
            (blength buf + Z.of_nat w * Z.of_nat i) (Z.of_nat w) = true.
Proof.
  intros Hi. unfold in_bounds, blength. rewrite length_app, cells_length.
  apply andb_true_iff. split; [apply Z.leb_le; lia | apply Z.leb_le; nia].
Qed.

(** The cell [i] of a table of 1-, 2- or 4-byte cells appended to [buf]
    reads as the offset that was written, by its low bits. *)
Lemma read_cell (buf : buffer) (offs : list Z) (i : nat) :
  (i < length offs)%nat ->
  readUInt8 (buf ++ cells 1 offs) (blength buf + 1 * Z.of_nat i)
  = Ok (nth i offs 0 mod 2 ^ 8)
  /\ readUInt16LE (buf ++ cells 2 offs) (blength buf + 2 * Z.of_nat i)
     = Ok (nth i offs 0 mod 2 ^ 16)
  /\ readUInt32LE (buf ++ cells 4 offs) (blength buf + 4 * Z.of_nat i)
     = Ok (nth i offs 0 mod 2 ^ 32).
Proof.
  intros Hi. unfold cells, readUInt8, readUInt16LE, readUInt32LE.
  change (Z.to_nat 1) with 1%nat. change (Z.to_nat 2) with 2%nat.
  change (Z.to_nat 4) with 4%nat.
  pose proof (in_bounds_cells buf 1 offs i Hi) as B1.
  pose proof (in_bounds_cells buf 2 offs i Hi) as B2.
  pose proof (in_bounds_cells buf 4 offs i Hi) as B4.
  change (Z.of_nat 1) with 1 in B1. change (Z.of_nat 2) with 2 in B2.
  change (Z.of_nat 4) with 4 in B4. rewrite B1, B2, B4.
  repeat split; f_equal.
  - rewrite (byte_at_cells buf 1 offs i 0) by lia.
    cbn [DynamicBuffer.le_bytes nth]. rewrite byte_val_byte_of. reflexivity.
  - rewrite (byte_at_cells buf 2 offs i 0), (byte_at_cells buf 2 offs i 1) by lia.
    cbn [DynamicBuffer.le_bytes nth]. rewrite !byte_val_byte_of. apply le_value_2.
  - rewrite (byte_at_cells buf 4 offs i 0), (byte_at_cells buf 4 offs i 1),
      (byte_at_cells buf 4 offs i 2), (byte_at_cells buf 4 offs i 3) by lia.
    cbn [DynamicBuffer.le_bytes nth]. rewrite !byte_val_byte_of. apply le_value_4.
Qed.

Lemma blength_cells (buf : buffer) (w : Z) (offs : list Z) :
  blength (buf ++ cells w offs)
  = blength buf + Z.of_nat (Z.to_nat w) * Z.of_nat (length offs).
Proof.
  unfold blength, cells. rewrite length_app, cells_length. lia.
Qed.

Lemma offset_table_read
        (buf buf' : buffer) (offs : list Z) (start : Z) (o : Offsets.t) (i : nat)
        (Hw : writeOffsets buf offs start (blength buf) = Ok buf')
        (Hr : offsetInfo buf' start (blength buf') = Ok o)
        (Hsame : blength buf' = blength buf + Offsets.size o * Z.of_nat (length offs))
        (Hi : (i < length offs)%nat)
        (Ho : 0 <= nth i offs 0 <= blength buf - start) :
  Offsets.read o (Z.of_nat i - Z.of_nat (length offs)) = Ok (start + nth i offs 0).
Proof.
  rewrite writeOffsets_width in Hw. unfold spec_cell_width in Hw.
  unfold offsetInfo in Hr.
  destruct (read_cell buf offs i Hi) as (R1 & R2 & R4).
  repeat match type of Hw with
         | context [if ?c then _ else _] => destruct c eqn:?
         end; try discriminate Hw; injection Hw as <-;
    repeat match type of Hr with
           | context [if ?c then _ else _] => destruct c eqn:?
           end; try discriminate Hr; injection Hr as <-;
    cbn [Offsets.size] in Hsame;
    match type of Hsame with
    | blength (buf ++ cells ?w offs) = _ =>
        pose proof (blength_cells buf w offs) as L;
        let k := eval cbv in (Z.of_nat (Z.to_nat w)) in
        change (Z.of_nat (Z.to_nat w)) with k in L
    end;
    try (exfalso; lia);
    repeat match goal with
           | H : (_ <=? _) = true |- _ => apply Z.leb_le in H
           | H : (_ <=? _) = false |- _ => apply Z.leb_gt in H
           end;
    unfold Offsets.read; cbn [Offsets.size Offsets.read_at].
  - replace (blength (buf ++ cells 1 offs)
             + 1 * (Z.of_nat i - Z.of_nat (length offs)))
      with (blength buf + 1 * Z.of_nat i) by lia.
    rewrite R1. cbn [bind]. rewrite Z.mod_small; [reflexivity|].
    change (2 ^ 8) with 256. lia.
  - replace (blength (buf ++ cells 2 offs)
             + 2 * (Z.of_nat i - Z.of_nat (length offs)))
      with (blength buf + 2 * Z.of_nat i) by lia.
    rewrite R2. cbn [bind]. rewrite Z.mod_small; [reflexivity|].
    change (2 ^ 16) with 65536. lia.
  - replace (blength (buf ++ cells 4 offs)
             + 4 * (Z.of_nat i - Z.of_nat (length offs)))
      with (blength buf + 4 * Z.of_nat i) by lia.
    rewrite R4. cbn [bind]. rewrite Z.mod_small; [reflexivity|].
    change (2 ^ 32) with 4294967296. lia.
Qed.

(** X11.  The offset table is read back as it was written whenever the
    reader settles on the cell width the writer used: after
    [writeOffsets(buf, offsets, start, buf.length)], the object
    [offsetInfo] returns for the frame that now ends after the table reads,
    at index [i - offsets.length], the [i]-th offset added to [start], for
    every offset that lies within the frame [writeOffsets] was given. *)
Theorem X11_offset_table_roundtrip
        (buf buf' : buffer) (offs : list Z) (start : Z) (o : Offsets.t) (i : nat)
        (Hw : writeOffsets buf offs start (blength buf) = Ok buf')
        (Hr : offsetInfo buf' start (blength buf') = Ok o)
        (Hsame : blength buf' = blength buf + Offsets.size o * Z.of_nat (length offs))
        (Hi : (i < length offs)%nat)
        (Ho : 0 <= nth i offs 0 <= blength buf - start) :
  Offsets.read o (Z.of_nat i - Z.of_nat (length offs)) = Ok (start + nth i offs 0).
Proof.
  exact (offset_table_read buf buf' offs start o i Hw Hr Hsame Hi Ho).
Qed.

Lemma X11_offset_table_roundtrip_witness :
  exists buf' o,
    writeOffsets [x61; x00; x62; x63; x00] [2; 5] 0 5 = Ok buf'
    /\ offsetInfo buf' 0 (blength buf') = Ok o
    /\ Offsets.read o (-1) = Ok 5.
Proof.
  eexists. eexists. split; [reflexivity|]. split; [reflexivity|].
  eapply (X11_offset_table_roundtrip [x61; x00; x62; x63; x00] _ [2; 5] 0 _ 1);
    [reflexivity | reflexivity | reflexivity | cbn; lia | vm_compute; split; discriminate].
Defined.

(** ** Fixed-size values, written and read back *)

Lemma rem_nonneg_mod (n size : Z) : 0 <= n -> 0 < size -> Z.rem n size = n mod size.
Proof. intros. apply Z.rem_mod_nonneg; lia. Qed.

Lemma align_mod (n size : Z) :
  0 <= n -> 0 < size -> align n size = n + (size - n mod size) mod size.
Proof.
  intros Hn Hs. unfold align. rewrite (rem_nonneg_mod n size Hn Hs).
  pose proof (Z.mod_pos_bound n size Hs).
  rewrite rem_nonneg_mod by lia. reflexivity.
Qed.

(** [buf.align(n)] brings the length of the buffer to [align(length, n)]. *)
Lemma dynamic_align_length (buf : buffer) (n : Z) :
  0 < n -> blength (DynamicBuffer.align buf n) = align (blength buf) n.
Proof.
  intros Hn. unfold DynamicBuffer.align, align, blength.
  rewrite length_app, repeat_length.
  assert (Hl : 0 <= Z.of_nat (length buf)) by lia.
  rewrite (rem_nonneg_mod _ n Hl Hn).
  pose proof (Z.mod_pos_bound (Z.of_nat (length buf)) n Hn).
  rewrite rem_nonneg_mod by lia.
  pose proof (Z.mod_pos_bound (n - Z.of_nat (length buf) mod n) n Hn). lia.
Qed.

(** An aligned position stays aligned relative to an aligned start. *)
Lemma align_shift (start r al : Z) :
  0 <= start -> 0 <= r -> 0 < al -> Z.rem start al = 0 ->
  align (start + r) al = start + align r al.
Proof.
  intros Hs Hr Hal Hrem. rewrite !align_mod by lia.
  rewrite rem_nonneg_mod in Hrem by lia.
  rewrite Z.add_mod, Hrem, Z.add_0_l, Z.mod_mod by lia. lia.
Qed.

Lemma align_aligned (n al : Z) :
  0 <= n -> 0 < al -> Z.rem n al = 0 -> align n al = n.
Proof.
  intros Hn Hal Hrem. rewrite align_mod by lia.
  rewrite rem_nonneg_mod in Hrem by lia.
  rewrite Hrem, Z.sub_0_r, Z.mod_same by lia. lia.
Qed.

Lemma align_is_aligned (n al : Z) :
  0 <= n -> 0 < al -> Z.rem (align n al) al = 0.
Proof.
  intros Hn Hal.
  assert (Hb : n <= align n al) by (apply align_ge; exact Hal).
  rewrite rem_nonneg_mod by lia. rewrite align_mod by lia.
  pose proof (Z.mod_pos_bound n al Hal) as Hm.
  destruct (Z.eq_dec (n mod al) 0) as [E | E].
  - rewrite E, Z.sub_0_r, Z.mod_same, Z.add_0_r by lia. exact E.
  - rewrite (Z.mod_small (al - n mod al)) by lia.
    replace (n + (al - n mod al)) with ((n / al + 1) * al)
      by (pose proof (Z.div_mod n al); lia).
    apply Z.mod_mul. lia.
Qed.

(** The alignments are powers of two: a position aligned for a type is
    aligned for every type of smaller alignment. *)
Lemma aligned_smaller (s a m : Z) :
  In a [1; 2; 4; 8] -> In m [1; 2; 4; 8] -> a <= m -> 0 <= s ->
  Z.rem s m = 0 -> Z.rem s a = 0.
Proof.
  intros Ha Hm Hle Hs Hrem. cbn [In] in Ha, Hm.
  destruct Ha as [<- | [<- | [<- | [<- | []]]]];
    destruct Hm as [<- | [<- | [<- | [<- | []]]]]; try lia;
    rewrite rem_nonneg_mod in * by lia;
    Z.div_mod_to_equations; lia.
Qed.

(** A start aligned for a container is aligned for each of its parts. *)
Lemma aligned_element (id : jsstring) (els : list gtype) (el : gtype) (s : Z) :
  In el els -> 0 <= s -> Z.rem s (alignment (TTuple id els)) = 0 ->
  Z.rem s (alignment el) = 0.
Proof.
  intros Hin Hs Hrem.
  apply (aligned_smaller s (alignment el) (alignment (TTuple id els)));
    try assumption.
  - apply alignment_values.
  - apply alignment_values.
  - cbn [alignment]. apply fold_max_alignment_ge. exact Hin.
Qed.

Lemma byte_at_mid (buf bs rest : list byte) (j : nat) (p : Z) :
  (j < length bs)%nat -> p = blength buf + Z.of_nat j ->
  byte_at (buf ++ bs ++ rest) p = byte_val (nth j bs x00).
Proof.
  intros Hj ->. unfold byte_at, blength.
  replace (Z.to_nat (Z.of_nat (length buf) + Z.of_nat j)) with (length buf + j)%nat by lia.
  rewrite app_nth2_plus. apply f_equal. apply app_nth1. exact Hj.
Qed.

Lemma in_bounds_mid (buf bs rest : list byte) (w : Z) :
  0 <= w <= blength bs -> in_bounds (buf ++ bs ++ rest) (blength buf) w = true.
Proof.
  intros Hw. unfold in_bounds, blength in *. rewrite !length_app.
  apply andb_true_iff. split; apply Z.leb_le; lia.
Qed.

Lemma read8_mid (buf rest : list byte) (n : Z) :
  readUInt8 (buf ++ DynamicBuffer.le_bytes 1 n ++ rest) (blength buf) = Ok (n mod 2 ^ 8).
Proof.
  unfold readUInt8. rewrite in_bounds_mid by (unfold blength; cbn; lia).
  rewrite (byte_at_mid buf _ rest 0) by (cbn; lia).
  cbn [DynamicBuffer.le_bytes nth]. rewrite byte_val_byte_of. reflexivity.
Qed.

Lemma read16_mid (buf rest : list byte) (n : Z) :
  readUInt16LE (buf ++ DynamicBuffer.le_bytes 2 n ++ rest) (blength buf)
  = Ok (n mod 2 ^ 16).
Proof.
  unfold readUInt16LE. rewrite in_bounds_mid by (unfold blength; cbn; lia).
  rewrite (byte_at_mid buf _ rest 0), (byte_at_mid buf _ rest 1) by (cbn; lia).
  cbn [DynamicBuffer.le_bytes nth]. rewrite !byte_val_byte_of.
  f_equal. apply le_value_2.
Qed.

Lemma read32_mid (buf rest : list byte) (n : Z) :
  readUInt32LE (buf ++ DynamicBuffer.le_bytes 4 n ++ rest) (blength buf)
  = Ok (n mod 2 ^ 32).
Proof.
  unfold readUInt32LE. rewrite in_bounds_mid by (unfold blength; cbn; lia).
  rewrite (byte_at_mid buf _ rest 0), (byte_at_mid buf _ rest 1),
    (byte_at_mid buf _ rest 2), (byte_at_mid buf _ rest 3) by (cbn; lia).
  cbn [DynamicBuffer.le_bytes nth]. rewrite !byte_val_byte_of.
  f_equal. apply le_value_4.
Qed.

Lemma read32_mid_high (buf rest : list byte) (a b : Z) :
  readUInt32LE (buf ++ (DynamicBuffer.le_bytes 4 a ++ DynamicBuffer.le_bytes 4 b) ++ rest)
               (blength buf + 4)
  = Ok (b mod 2 ^ 32).
Proof.
  rewrite <- (app_assoc (DynamicBuffer.le_bytes 4 a)).
  rewrite (app_assoc buf).
  replace (blength buf + 4) with (blength (buf ++ DynamicBuffer.le_bytes 4 a))
    by (unfold blength; rewrite length_app, le_bytes_length; lia).
  apply read32_mid.
Qed.

Lemma read32_mid_low (buf rest : list byte) (a b : Z) :
  readUInt32LE (buf ++ (DynamicBuffer.le_bytes 4 a ++ DynamicBuffer.le_bytes 4 b) ++ rest)
               (blength buf)
  = Ok (a mod 2 ^ 32).
Proof.
  rewrite <- (app_assoc (DynamicBuffer.le_bytes 4 a)). apply read32_mid.
Qed.

Lemma le_bytes_8 (v : Z) :
  DynamicBuffer.le_bytes 8 v
  = DynamicBuffer.le_bytes 4 v ++ DynamicBuffer.le_bytes 4 (v / 2 ^ 32).
Proof.
  assert (H : v / 256 / 256 / 256 / 256 = v / 2 ^ 32)
    by (rewrite !Z.div_div by lia; reflexivity).
  cbn [DynamicBuffer.le_bytes app]. rewrite H. reflexivity.
Qed.

(** [Long.fromNumber] followed by [Long.fromBits(..).toNumber()] on the
    integers a double holds exactly. *)
Lemma long_roundtrip (n : Z) :
  - 2 ^ 53 < n < 2 ^ 53 ->
  Long.fromBits_toNumber
    (Long.getLowBitsUnsigned (Long.fromNumber n) mod 2 ^ 32)
    (Long.getHighBitsUnsigned (Long.fromNumber n) mod 2 ^ 32) false = n
  /\ (0 <= n ->
      Long.fromBits_toNumber
        (Long.getLowBitsUnsigned (Long.fromNumber n) mod 2 ^ 32)
        (Long.getHighBitsUnsigned (Long.fromNumber n) mod 2 ^ 32) true = n).
Proof.
  intros Hn.
  unfold Long.fromBits_toNumber, Long.getLowBitsUnsigned, Long.getHighBitsUnsigned,
    Long.fromNumber, to_signed.
  change (2 ^ 53) with 9007199254740992 in *.
  change (2 ^ 63) with 9223372036854775808.
  change (2 ^ 64) with 18446744073709551616.
  change (2 ^ 32) with 4294967296.
  change (2 ^ (32 - 1)) with 2147483648.
  rewrite Z.min_l, Z.max_r by lia.
  set (l := n mod 18446744073709551616).
  assert (Hl : 0 <= l < 18446744073709551616) by (apply Z.mod_pos_bound; lia).
  assert (Hcases : (0 <= n /\ l = n) \/ (n < 0 /\ l = n + 18446744073709551616)).
  { destruct (Z.le_gt_cases 0 n) as [H | H]; [left | right]; (split; [lia|]);
      unfold l.
    - apply Z.mod_small. lia.
    - symmetry. apply Z.mod_unique with (q := -1); lia. }
  rewrite Z.mod_mod by lia.
  assert (Hh : 0 <= l / 4294967296 < 4294967296)
    by (split; [apply Z.div_pos; lia | apply Z.div_lt_upper_bound; lia]).
  rewrite (Z.mod_small (l / 4294967296)) by lia.
  pose proof (Z.div_mod l 4294967296 ltac:(lia)) as Hdm.
  pose proof (Z.mod_pos_bound l 4294967296 ltac:(lia)) as Hm.
  assert (Hd : forall z, - 9007199254740992 < z < 9007199254740992 -> to_double z = z).
  { intros z Hz. unfold to_double. change (2 ^ 53) with 9007199254740992.
    replace (Z.abs z <? 9007199254740992) with true by (symmetry; apply Z.ltb_lt; lia).
    reflexivity. }
  split.
  - destruct (l / 4294967296 <? 2147483648) eqn:E;
      [apply Z.ltb_lt in E | apply Z.ltb_ge in E]; rewrite Hd; lia.
  - intros Hpos. rewrite Hd; lia.
Qed.

Lemma frame_eqb (s n : Z) : (s + n - s =? n) = true.
Proof. apply Z.eqb_eq. lia. Qed.

Lemma layout_cons (el : gtype) (els : list gtype) (size : Z) :
  layout (el :: els) size = layout els (align size (alignment el) + fixed el).
Proof. reflexivity. Qed.

Lemma layout_ge (els : list gtype) :
  forall size, 0 <= size -> size <= layout els size.
Proof.
  induction els as [|el els IH]; intros size Hs; [cbn; lia|].
  rewrite layout_cons.
  pose proof (alignment_range el). pose proof (fixed_nonneg el).
  pose proof (align_ge size (alignment el)).
  specialize (IH (align size (alignment el) + fixed el)). lia.
Qed.

Lemma layout_ge_element (els : list gtype) (el : gtype) :
  In el els -> forall size, 0 <= size -> size + fixed el <= layout els size.
Proof.
  induction els as [|x els IH]; intros Hin size Hs; [contradiction|].
  rewrite layout_cons.
  pose proof (alignment_range x). pose proof (fixed_nonneg x).
  pose proof (align_ge size (alignment x)).
  destruct Hin as [-> | Hin].
  - pose proof (layout_ge els (align size (alignment el) + fixed el)). lia.
  - specialize (IH Hin (align size (alignment x) + fixed x)). lia.
Qed.

Lemma fold_add_aligned_layout (els : list gtype) :
  forallb all_fixed els = true ->
  forall size,
    fold_left (fun size el => add_aligned size (alignment el) (fixedSize el))
              els (Some size)
    = Some (layout els size).
Proof.
  induction els as [|el els IH]; intros Hall size; [reflexivity|].
  cbn [forallb] in Hall. apply andb_true_iff in Hall. destruct Hall as [Hel Hall].
  cbn [fold_left]. rewrite layout_cons.
  destruct (fixed_all_fixed el) as (_ & Hfs & _). rewrite Hel in Hfs. rewrite Hfs.
  cbn [add_aligned]. apply IH. exact Hall.
Qed.

(** The fixed size of a tuple of fixed-size elements is the end of the
    layout of its elements. *)
Lemma fixed_tuple_layout (id : jsstring) (els : list gtype) :
  forallb all_fixed els = true -> els <> [] ->
  fixed (TTuple id els) = layout els 0.
Proof.
  intros Hall Hne. unfold fixed. cbn [fixedSize].
  rewrite (fold_add_aligned_layout els Hall 0).
  destruct els as [|el els]; [contradiction|].
  cbn [forallb] in Hall. apply andb_true_iff in Hall. destruct Hall as [Hel _].
  pose proof (layout_ge_element (el :: els) el (or_introl eq_refl) 0 (Z.le_refl 0)) as Hge.
  destruct (fixed_all_fixed el) as (_ & _ & Hpos). rewrite Hel in Hpos.
  destruct (layout (el :: els) 0); [lia | reflexivity | reflexivity].
Qed.

Lemma fixed_dict_entry (id : jsstring) (k v : gtype) :
  all_fixed k = true -> all_fixed v = true ->
  fixed (TDictEntry id k v) = align (fixed k) (alignment v) + fixed v.
Proof.
  intros Hk Hv. unfold fixed at 1. cbn [fixedSize].
  destruct (fixed_all_fixed k) as (_ & Hfk & _). rewrite Hk in Hfk.
  destruct (fixed_all_fixed v) as (_ & Hfv & _). rewrite Hv in Hfv.
  rewrite Hfk, Hfv. reflexivity.
Qed.

Lemma fits_tuple (id : jsstring) (els : list gtype) (vs : list value) :
  fits (TTuple id els) (VSeq vs) = true ->
  Forall2 (fun el x => fits el x = true) els vs.
Proof.
  cbn [fits]. revert vs.
  induction els as [|el els IH]; intros [|x vs] H; try discriminate H.
  - constructor.
  - apply andb_true_iff in H. destruct H as [Hx H].
    constructor; [exact Hx | apply IH; exact H].
Qed.

Lemma offsetInfo_in_range (buf : buffer) (start end_ : Z) :
  end_ - start <= max_offset -> exists o, offsetInfo buf start end_ = Ok o.
Proof.
  unfold offsetInfo, max_offset. intros H.
  destruct (end_ - start <=? 0xff); [eexists; reflexivity|].
  destruct (end_ - start <=? 0xffff); [eexists; reflexivity|].
  destruct (end_ - start <=? 0xffffffff) eqn:E; [eexists; reflexivity|].
  apply Z.leb_gt in E. lia.
Qed.

Lemma writeOffsets_none (buf : buffer) (start end_ : Z) :
  end_ - start <= max_offset -> writeOffsets buf [] start end_ = Ok buf.
Proof.
  unfold writeOffsets, max_offset. intros H.
  destruct (end_ - start <=? 0xff); [reflexivity|].
  destruct (end_ - start <=? 0xffff); [reflexivity|].
  destruct (end_ - start <=? 0xffffffff) eqn:E; [reflexivity|].
  apply Z.leb_gt in E. lia.
Qed.

Lemma dynamic_align_aligned (buf : buffer) (al : Z) :
  1 <= al ->
  exists pad,
    DynamicBuffer.align buf al = buf ++ pad
    /\ blength (buf ++ pad) = align (blength buf) al
    /\ Z.rem (blength (buf ++ pad)) al = 0.
Proof.
  intros Hal. eexists. split; [reflexivity|].
  pose proof (dynamic_align_length buf al ltac:(lia)) as Hl.
  unfold DynamicBuffer.align in Hl. split; [exact Hl|].
  rewrite Hl. apply align_is_aligned; [unfold blength; lia | lia].
Qed.

Lemma blength_app (a b : list byte) : blength (a ++ b) = blength a + blength b.
Proof. unfold blength. rewrite length_app. lia. Qed.

(** The loops of the tuple writer and of the tuple reader over fixed-size
    elements: each element is written and read at the same aligned
    position. *)
Lemma elements_written_back (wv : jsstring -> value -> buffer -> result buffer)
      (p : jsstring -> buffer -> result value) (start : Z) (full : list value)
      (els : list gtype) :
  Forall (fun el => all_fixed el = true
                    /\ forall v, fits el v = true -> written_back wv p el v) els ->
  (forall el, In el els -> Z.rem start (alignment el) = 0) ->
  forall vs,
    Forall2 (fun el x => fits el x = true) els vs ->
    forall (done : list value) (buf : buffer) (offs : list Z),
      full = done ++ vs ->
      0 <= start <= blength buf ->
      exists bytes,
        write_elements (VSeq full) start (map (fun el => (el, write wv el)) els)
                       (length done) buf offs = Ok (buf ++ bytes, offs)
        /\ blength (buf ++ bytes) = start + layout els (blength buf - start)
        /\ forall rest o end_ co,
            read_elements o end_
                          (map (fun el => (el, read p el (buf ++ bytes ++ rest))) els)
                          (blength buf) co = Ok vs.
Proof.
  intros Hels.
  induction Hels as [|el els [Hfix Hwb] _ IH];
    intros Hal vs Hvs done buf offs Hfull Hstart.
  - inversion Hvs; subst. exists [].
    cbn [map write_elements read_elements layout fold_left].
    split; [rewrite app_nil_r; reflexivity|].
    split; [rewrite app_nil_r; lia | reflexivity].
  - inversion Hvs as [|? x ? vs' Hx Hvs']; subst.
    pose proof (alignment_range el) as Har.
    destruct (dynamic_align_aligned buf (alignment el) ltac:(lia))
      as (pad & Hpad & Hpl & Hpa).
    destruct (Hwb x Hx (buf ++ pad) Hpa) as (b & Hwrite & Hbl & Hread).
    assert (Hisf : is_fixed el = true)
      by (destruct (fixed_all_fixed el) as [-> _]; exact Hfix).
    assert (Hge : blength buf <= align (blength buf) (alignment el))
      by (apply align_ge; lia).
    pose proof (fixed_nonneg el) as Hnn.
    destruct (IH (fun e He => Hal e (or_intror He)) vs' Hvs' (done ++ [x])
                 ((buf ++ pad) ++ b) offs) as (bytes' & Hw' & Hl' & Hr').
    + rewrite <- app_assoc. reflexivity.
    + rewrite blength_app. lia.
    + exists (pad ++ b ++ bytes'). split; [|split].
      * cbn [map write_elements]. rewrite Hpad. cbn [index_value].
        rewrite nth_error_app2 by lia. rewrite Nat.sub_diag. cbn [nth_error bind].
        rewrite Hwrite. cbn [bind]. rewrite Hisf. cbn [negb andb].
        replace (S (length done)) with (length (done ++ [x]))
          by (rewrite length_app; cbn; lia).
        rewrite Hw'. rewrite <- !app_assoc. reflexivity.
      * rewrite layout_cons.
        replace (buf ++ pad ++ b ++ bytes') with (((buf ++ pad) ++ b) ++ bytes')
          by (rewrite <- !app_assoc; reflexivity).
        rewrite Hl'. do 2 f_equal. rewrite blength_app, Hpl, Hbl.
        pose proof (align_shift start (blength buf - start) (alignment el)
                                ltac:(lia) ltac:(lia) ltac:(lia)
                                (Hal el (or_introl eq_refl))) as Hs.
        replace (start + (blength buf - start)) with (blength buf) in Hs by lia. lia.
      * intros rest o end_ co. cbn [map read_elements]. rewrite Hisf. cbn [bind].
        rewrite <- Hpl.
        replace (buf ++ (pad ++ b ++ bytes') ++ rest)
          with ((buf ++ pad) ++ b ++ (bytes' ++ rest))
          by (rewrite <- !app_assoc; reflexivity).
        rewrite Hread. cbn [bind].
        replace ((buf ++ pad) ++ b ++ bytes' ++ rest)
          with (((buf ++ pad) ++ b) ++ bytes' ++ rest)
          by (rewrite <- !app_assoc; reflexivity).
        replace (blength (buf ++ pad) + fixed el) with (blength ((buf ++ pad) ++ b))
          by (rewrite (blength_app (buf ++ pad) b); lia).
        rewrite Hr'. reflexivity.
Qed.

Ltac fits_bounds H :=
  cbn [fits] in H; apply andb_true_iff in H;
  let H1 := fresh "Hlo" in
  let H2 := fresh "Hhi" in
  destruct H as [H1 H2];
  first [apply Z.leb_le in H1 | apply Z.ltb_lt in H1]; apply Z.ltb_lt in H2.

(** Every fixed-size type without an empty tuple writes its values in
    exactly [fixedSize] bytes and reads them back. *)
Lemma fixed_written_back (wv : jsstring -> value -> buffer -> result buffer)
      (p : jsstring -> buffer -> result value) (ty : gtype) :
  all_fixed ty = true -> no_unit ty = true -> fixed ty <= max_offset ->
  forall v, fits ty v = true -> written_back wv p ty v.
Proof.
  induction ty as [| | | | | | | | | id | | id el IH | id els IH | id k x IHk IHx | id el IH]
    using gtype_nested_ind;
    intros Hf Hu Hm v Hv; try discriminate Hf.
  - (* y *)
    destruct v as [n| | | | | | |]; try discriminate Hv. fits_bounds Hv.
    intros buf _. exists (DynamicBuffer.le_bytes 1 n).
    split; [reflexivity|]. split; [reflexivity|]. intros rest.
    cbn [read]. change (fixed TByte) with 1. rewrite frame_eqb. cbn [negb].
    rewrite read8_mid. cbn [bind]. rewrite Z.mod_small by lia. reflexivity.
  - (* n *)
    destruct v as [n| | | | | | |]; try discriminate Hv. fits_bounds Hv.
    intros buf _. exists (DynamicBuffer.le_bytes 2 n).
    split; [reflexivity|]. split; [reflexivity|]. intros rest.
    cbn [read]. change (fixed TInt16) with 2. rewrite frame_eqb. cbn [negb].
    unfold readInt16LE. rewrite read16_mid. cbn [bind].
    rewrite to_signed_mod; [reflexivity | lia | exact (conj Hlo Hhi)].
  - (* q *)
    destruct v as [n| | | | | | |]; try discriminate Hv. fits_bounds Hv.
    intros buf _. exists (DynamicBuffer.le_bytes 2 n).
    split; [reflexivity|]. split; [reflexivity|]. intros rest.
    cbn [read]. change (fixed TUInt16) with 2. rewrite frame_eqb. cbn [negb].
    rewrite read16_mid. cbn [bind]. rewrite Z.mod_small by lia. reflexivity.
  - (* i *)
    destruct v as [n| | | | | | |]; try discriminate Hv. fits_bounds Hv.
    intros buf _. exists (DynamicBuffer.le_bytes 4 n).
    split; [reflexivity|]. split; [reflexivity|]. intros rest.
    cbn [read]. change (fixed TInt32) with 4. rewrite frame_eqb. cbn [negb].
    unfold readInt32LE. rewrite read32_mid. cbn [bind].
    rewrite to_signed_mod; [reflexivity | lia | exact (conj Hlo Hhi)].
  - (* u *)
    destruct v as [n| | | | | | |]; try discriminate Hv. fits_bounds Hv.
    intros buf _. exists (DynamicBuffer.le_bytes 4 n).
    split; [reflexivity|]. split; [reflexivity|]. intros rest.
    cbn [read]. change (fixed TUInt32) with 4. rewrite frame_eqb. cbn [negb].
    rewrite read32_mid. cbn [bind]. rewrite Z.mod_small by lia. reflexivity.
  - (* x *)
    destruct v as [n| | | | | | |]; try discriminate Hv. fits_bounds Hv.
    intros buf _.
    exists (DynamicBuffer.le_bytes 4 (Long.getLowBitsUnsigned (Long.fromNumber n))
            ++ DynamicBuffer.le_bytes 4 (Long.getHighBitsUnsigned (Long.fromNumber n))).
    split; [cbn [write to_number bind]; unfold DynamicBuffer.appendUInt32;
            rewrite <- app_assoc; reflexivity|].
    split; [reflexivity|]. intros rest.
    cbn [read]. change (fixed TInt64) with 8. rewrite frame_eqb. cbn [negb].
    rewrite read32_mid_low, read32_mid_high. cbn [bind].
    rewrite (proj1 (long_roundtrip n (conj Hlo Hhi))). reflexivity.
  - (* t *)
    destruct v as [n| | | | | | |]; try discriminate Hv. fits_bounds Hv.
    intros buf _.
    exists (DynamicBuffer.le_bytes 4 (Long.getLowBitsUnsigned (Long.fromNumber n))
            ++ DynamicBuffer.le_bytes 4 (Long.getHighBitsUnsigned (Long.fromNumber n))).
    split; [cbn [write to_number bind]; unfold DynamicBuffer.appendUInt32;
            rewrite <- app_assoc; reflexivity|].
    split; [reflexivity|]. intros rest.
    cbn [read]. change (fixed TUInt64) with 8. rewrite frame_eqb. cbn [negb].
    rewrite read32_mid_low, read32_mid_high. cbn [bind].
    assert (Hr : - 2 ^ 53 < n < 2 ^ 53) by lia.
    rewrite (proj2 (long_roundtrip n Hr) Hlo). reflexivity.
  - (* d *)
    destruct v as [|bits| | | | | |]; try discriminate Hv. fits_bounds Hv.
    intros buf _. exists (DynamicBuffer.le_bytes 8 bits).
    split; [reflexivity|]. split; [reflexivity|]. intros rest.
    cbn [read]. change (fixed TDouble) with 8. rewrite frame_eqb. cbn [negb].
    unfold readDoubleLE. rewrite in_bounds_mid by (unfold blength; cbn; lia).
    rewrite le_bytes_8, read32_mid_low, read32_mid_high. cbn [bind].
    do 2 f_equal.
    change (2 ^ 64) with 18446744073709551616 in Hhi.
    change (2 ^ 32) with 4294967296.
    Z.div_mod_to_equations. lia.
  - (* b *)
    destruct v as [| |b| | | | |]; try discriminate Hv.
    intros buf _. exists (DynamicBuffer.le_bytes 1 (if b then 1 else 0)).
    split; [reflexivity|]. split; [reflexivity|]. intros rest.
    cbn [read]. change (fixed TBoolean) with 1. rewrite frame_eqb. cbn [negb].
    rewrite read8_mid. cbn [bind]. destruct b; reflexivity.
  - (* tuple *)
    destruct v as [| | | | |vs| |]; try discriminate Hv.
    cbn [all_fixed] in Hf.
    assert (Hne : els <> []) by (destruct els; [discriminate Hu | discriminate]).
    assert (Hnu : forallb no_unit els = true)
      by (destruct els; [contradiction | exact Hu]).
    pose proof (fixed_tuple_layout id els Hf Hne) as Hlay.
    apply fits_tuple in Hv. intros buf Hbuf.
    assert (Hels : Forall (fun el => all_fixed el = true
                                     /\ forall v, fits el v = true -> written_back wv p el v)
                          els).
    { rewrite Forall_forall in *. rewrite forallb_forall in Hf, Hnu.
      intros el Hin. split; [apply Hf; exact Hin|].
      apply IH; [exact Hin | apply Hf; exact Hin | apply Hnu; exact Hin|].
      pose proof (layout_ge_element els el Hin 0 (Z.le_refl 0)). lia. }
    assert (Hb0 : 0 <= blength buf) by (unfold blength; lia).
    destruct (elements_written_back wv p (blength buf) vs els Hels
                (fun el Hin => aligned_element id els el (blength buf) Hin Hb0 Hbuf)
                vs Hv [] buf [] eq_refl ltac:(lia)) as (bytes & Hw & Hl & Hr).
    rewrite Z.sub_diag, <- Hlay in Hl. rewrite blength_app in Hl.
    exists bytes. split; [|split; [lia|]].
    + cbn [write]. unfold DynamicBuffer.length. cbn [length] in Hw. rewrite Hw.
      cbn [bind rev]. apply writeOffsets_none. rewrite blength_app. lia.
    + intros rest. cbn [read].
      destruct (fixed_all_fixed (TTuple id els)) as [-> _]. cbn [all_fixed].
      rewrite Hf, frame_eqb. cbn [negb andb].
      destruct (offsetInfo_in_range (buf ++ bytes ++ rest) (blength buf)
                                    (blength buf + fixed (TTuple id els)) ltac:(lia))
        as [o ->].
      cbn [bind]. rewrite Hr. reflexivity.
  - (* dict-entry *)
    destruct v as [| | | | |[|a [|b [|c vs]]]| |]; try discriminate Hv.
    cbn [fits] in Hv. apply andb_true_iff in Hv. destruct Hv as [Ha Hb].
    cbn [all_fixed] in Hf. apply andb_true_iff in Hf. destruct Hf as [Hfk Hfx].
    cbn [no_unit] in Hu. apply andb_true_iff in Hu. destruct Hu as [Huk Hux].
    pose proof (fixed_dict_entry id k x Hfk Hfx) as Hlay.
    pose proof (alignment_range x) as Harx. pose proof (alignment_range k) as Hark.
    pose proof (fixed_nonneg k) as Hnk. pose proof (fixed_nonneg x) as Hnx.
    pose proof (align_ge (fixed k) (alignment x) ltac:(lia)) as Hgek.
    intros buf Hbuf.
    assert (Hb0 : 0 <= blength buf) by (unfold blength; lia).
    assert (Hbk : Z.rem (blength buf) (alignment k) = 0).
    { apply (aligned_smaller _ _ (alignment (TDictEntry id k x)));
        [apply alignment_values | apply alignment_values | cbn [alignment]; lia
         | exact Hb0 | exact Hbuf]. }
    assert (Hbx : Z.rem (blength buf) (alignment x) = 0).
    { apply (aligned_smaller _ _ (alignment (TDictEntry id k x)));
        [apply alignment_values | apply alignment_values | cbn [alignment]; lia
         | exact Hb0 | exact Hbuf]. }
    destruct (IHk Hfk Huk ltac:(lia) a Ha buf Hbk) as (bk & Hwk & Hlk & Hrk).
    destruct (dynamic_align_aligned (buf ++ bk) (alignment x) ltac:(lia))
      as (pad & Hpad & Hpl & Hpa).
    destruct (IHx Hfx Hux ltac:(lia) b Hb ((buf ++ bk) ++ pad) Hpa)
      as (bx & Hwx & Hlx & Hrx).
    assert (Hisk : is_fixed k = true)
      by (destruct (fixed_all_fixed k) as [-> _]; exact Hfk).
    assert (Hpos : blength ((buf ++ bk) ++ pad)
                   = blength buf + align (fixed k) (alignment x)).
    { rewrite Hpl, blength_app, Hlk. apply align_shift; lia. }
    exists (bk ++ pad ++ bx). split; [|split].
    + cbn [write index_value nth_error bind]. rewrite Hwk. cbn [bind].
      rewrite Hpad, Hwx. cbn [bind]. rewrite Hisk. cbn [negb].
      rewrite <- !app_assoc. reflexivity.
    + rewrite Hlay. rewrite !blength_app in *. lia.
    + intros rest. cbn [read].
      destruct (fixed_all_fixed (TDictEntry id k x)) as [-> _]. cbn [all_fixed].
      rewrite Hfk, Hfx, frame_eqb. cbn [negb andb].
      destruct (offsetInfo_in_range (buf ++ (bk ++ pad ++ bx) ++ rest) (blength buf)
                                    (blength buf + fixed (TDictEntry id k x)) ltac:(lia))
        as [o ->].
      cbn [bind]. rewrite Hisk. cbn [bind].
      replace (buf ++ (bk ++ pad ++ bx) ++ rest) with (buf ++ bk ++ (pad ++ bx ++ rest))
        by (rewrite <- !app_assoc; reflexivity).
      rewrite Hrk. cbn [bind].
      replace (buf ++ bk ++ pad ++ bx ++ rest) with (((buf ++ bk) ++ pad) ++ bx ++ rest)
        by (rewrite <- !app_assoc; reflexivity).
      replace (align (blength buf + fixed k) (alignment x))
        with (blength ((buf ++ bk) ++ pad))
        by (rewrite Hpos; symmetry; apply align_shift; lia).
      replace (blength buf + fixed (TDictEntry id k x))
        with (blength ((buf ++ bk) ++ pad) + fixed x) by (rewrite Hpos, Hlay; lia).
      rewrite Hrx. reflexivity.
Qed.

(** X12.  [serialize] followed by [parse] is the identity on the
    fixed-size types: for a signature whose descriptor has a fixed size
    (below 4 GiB) and no empty tuple in it, and a value that fits it (each
    integer within the range of its type, and within the safe integers
    under [x] and [t]), [serialize] returns exactly [fixedSize] bytes and
    [parse] returns the value from them. *)
Theorem X12_fixed_size_roundtrip (typestr : jsstring) (ty : gtype) (v : value)
        (Hty : parseType typestr = Ok ty)
        (Hfixed : is_fixed ty = true)
        (Hunit : no_unit ty = true)
        (Hsize : fixed ty <= max_offset)
        (Hv : fits ty v = true) :
  exists bytes,
    serialize typestr v = Ok bytes
    /\ blength bytes = fixed ty
    /\ parse typestr bytes = Ok v.
Proof.
  destruct (fixed_all_fixed ty) as [Hall _]. rewrite Hfixed in Hall. symmetry in Hall.
  pose proof (alignment_range ty) as Har.
  destruct (fixed_written_back (write_value (variant_depth v))
                               (parse_fuel (Z.to_nat (fixed ty))) ty Hall Hunit Hsize v Hv
                               DynamicBuffer.new)
    as (bytes & Hw & Hl & Hr).
  { apply Z.rem_0_l. lia. }
  exists bytes. split; [|split; [exact Hl|]].
  - unfold serialize. rewrite Hty. cbn [bind]. rewrite Hw. reflexivity.
  - rewrite parse_unfold, Hty. cbn [bind].
    specialize (Hr []). rewrite app_nil_r in Hr. cbn [DynamicBuffer.new app] in Hr.
    change (blength []) with 0 in Hr. rewrite Z.add_0_l, <- Hl in Hr.
    unfold blength in Hr at 1. rewrite Nat2Z.id in Hr. exact Hr.
Qed.

Lemma X12_fixed_size_roundtrip_witness :
  exists bytes,
    serialize (str "(y{nx}(bd))")
              (VSeq [VNum 7; VSeq [VNum (-2); VNum (-5000000000)];
                     VSeq [VBool true; VDouble 0x3FF0000000000000]]) = Ok bytes
    /\ blength bytes = 40
    /\ parse (str "(y{nx}(bd))") bytes
       = Ok (VSeq [VNum 7; VSeq [VNum (-2); VNum (-5000000000)];
                   VSeq [VBool true; VDouble 0x3FF0000000000000]]).
Proof.
  apply (X12_fixed_size_roundtrip
           (str "(y{nx}(bd))")
           (TTuple (str "(y{nx}(bd))")
                   [TByte; TDictEntry (str "{nx}") TInt16 TInt64;
                    TTuple (str "(bd)") [TBoolean; TDouble]])).
  - vm_compute. reflexivity.
  - reflexivity.
  - reflexivity.
  - vm_compute. discriminate.
  - reflexivity.
Defined.

(** ** Arrays and maybes of fixed-size values *)

Lemma dynamic_align_noop (buf : buffer) (al : Z) :
  0 < al -> Z.rem (blength buf) al = 0 -> DynamicBuffer.align buf al = buf.
Proof.
  intros Hal Hrem. unfold DynamicBuffer.align.
  rewrite Hrem, Z.sub_0_r, Z.rem_same by lia. cbn [Z.to_nat repeat]. apply app_nil_r.
Qed.

Lemma rem_add_aligned (a b al : Z) :
  0 <= a -> 0 <= b -> 0 < al ->
  Z.rem a al = 0 -> Z.rem b al = 0 -> Z.rem (a + b) al = 0.
Proof.
  intros Ha Hb Hal Hra Hrb. rewrite rem_nonneg_mod in * by lia.
  rewrite Z.add_mod, Hra, Hrb by lia. reflexivity.
Qed.

(** The loops of the array writer and of the array reader over elements
    whose fixed size is a multiple of their alignment. *)
Lemma array_written_back (wv : jsstring -> value -> buffer -> result buffer)
      (p : jsstring -> buffer -> result value) (el : gtype) :
  (forall v, fits el v = true -> written_back wv p el v) ->
  Z.rem (fixed el) (alignment el) = 0 ->
  forall vs,
    Forall (fun x => fits el x = true) vs ->
    forall buf,
      Z.rem (blength buf) (alignment el) = 0 ->
      exists bytes,
        write_fixed_elements (write wv el) (alignment el) vs buf = Ok (buf ++ bytes)
        /\ blength bytes = Z.of_nat (length vs) * fixed el
        /\ forall rest,
            array_fixed (read p el (buf ++ bytes ++ rest)) (length vs)
                        (blength buf) (fixed el) = Ok vs.
Proof.
  intros Hwb Hstride vs Hvs.
  pose proof (alignment_range el) as Har. pose proof (fixed_nonneg el) as Hnn.
  induction Hvs as [|x vs Hx _ IH]; intros buf Hbuf.
  - exists []. cbn [write_fixed_elements array_fixed length].
    split; [rewrite app_nil_r; reflexivity|]. split; reflexivity.
  - destruct (Hwb x Hx buf Hbuf) as (b & Hw & Hl & Hr).
    destruct (IH (buf ++ b)) as (bytes & Hw' & Hl' & Hr').
    { rewrite blength_app, Hl.
      apply rem_add_aligned; try assumption; try lia. unfold blength. lia. }
    exists (b ++ bytes). split; [|split].
    + cbn [write_fixed_elements]. rewrite dynamic_align_noop by (lia || exact Hbuf).
      rewrite Hw. cbn [bind]. rewrite Hw', <- app_assoc. reflexivity.
    + rewrite blength_app, Hl, Hl'. cbn [length]. lia.
    + intros rest. cbn [length array_fixed].
      replace (buf ++ (b ++ bytes) ++ rest) with (buf ++ b ++ (bytes ++ rest))
        by (rewrite <- !app_assoc; reflexivity).
      rewrite Hr. cbn [bind].
      replace (buf ++ b ++ bytes ++ rest) with ((buf ++ b) ++ bytes ++ rest)
        by (rewrite <- !app_assoc; reflexivity).
      replace (blength buf + fixed el) with (blength (buf ++ b))
        by (rewrite blength_app; lia).
      rewrite Hr'. reflexivity.
Qed.

(** X13.  [serialize] followed by [parse] is the identity on the arrays
    of fixed-size elements whose size is a multiple of their alignment:
    the elements are written without padding, [fixedSize] bytes each, and
    an array of any length, the empty one included, is read back.  (Arrays
    of dict-entries are read as objects and are left out.) *)
Theorem X13_fixed_array_roundtrip (typestr id : jsstring) (el : gtype) (vs : list value)
        (Hty : parseType typestr = Ok (TArray id el))
        (Hfixed : is_fixed el = true)
        (Hunit : no_unit el = true)
        (Hsize : fixed el <= max_offset)
        (Hstride : Z.rem (fixed el) (alignment el) = 0)
        (Hdict : is_dict_entry el = false)
        (Hvs : forallb (fits el) vs = true) :
  exists bytes,
    serialize typestr (VSeq vs) = Ok bytes
    /\ blength bytes = Z.of_nat (length vs) * fixed el
    /\ parse typestr bytes = Ok (VSeq vs).
Proof.
  destruct (fixed_all_fixed el) as (Hall & _ & Hpos).
  rewrite Hfixed in Hall. symmetry in Hall. rewrite Hall in Hpos.
  pose proof (alignment_range el) as Har.
  assert (Hfits : Forall (fun x => fits el x = true) vs)
    by (apply Forall_forall; apply forallb_forall; exact Hvs).
  destruct (array_written_back
              (write_value (variant_depth (VSeq vs)))
              (parse_fuel (Z.to_nat (Z.of_nat (length vs) * fixed el))) el
              (fixed_written_back _ _ el Hall Hunit Hsize) Hstride vs Hfits
              DynamicBuffer.new)
    as (bytes & Hw & Hl & Hr).
  { apply Z.rem_0_l. lia. }
  exists bytes. split; [|split; [exact Hl|]].
  - unfold serialize. rewrite Hty. cbn [bind write as_array]. rewrite Hfixed, Hw.
    reflexivity.
  - rewrite parse_unfold, Hty. cbn [bind read].
    specialize (Hr []). rewrite app_nil_r in Hr. cbn [DynamicBuffer.new app] in Hr.
    change (blength DynamicBuffer.new) with 0 in Hr.
    rewrite Hdict, Hfixed.
    destruct vs as [|x vs].
    + assert (bytes = []) as ->
          by (destruct bytes; [reflexivity | unfold blength in Hl; cbn in Hl; lia]).
      reflexivity.
    + cbn [length] in *.
      replace (0 =? blength bytes) with false
        by (symmetry; apply Z.eqb_neq; nia).
      rewrite Z.sub_0_r, Hl.
      rewrite Z.rem_mul, Z.quot_mul by lia. cbn [Z.eqb negb].
      rewrite Nat2Z.id.
      replace (length bytes) with (Z.to_nat (Z.of_nat (S (length vs)) * fixed el))
        by (unfold blength in Hl; lia).
      rewrite Hr. reflexivity.
Qed.

Lemma X13_fixed_array_roundtrip_witness :
  exists bytes,
    serialize (str "a(ii)") (VSeq [VSeq [VNum 1; VNum (-1)]; VSeq [VNum 2; VNum 70000]])
    = Ok bytes
    /\ blength bytes = 2 * 8
    /\ parse (str "a(ii)") bytes
       = Ok (VSeq [VSeq [VNum 1; VNum (-1)]; VSeq [VNum 2; VNum 70000]]).
Proof.
  apply (X13_fixed_array_roundtrip
           (str "a(ii)") (str "a(ii)") (TTuple (str "(ii)") [TInt32; TInt32])
           [VSeq [VNum 1; VNum (-1)]; VSeq [VNum 2; VNum 70000]]).
  - vm_compute. reflexivity.
  - reflexivity.
  - reflexivity.
  - vm_compute. discriminate.
  - reflexivity.
  - reflexivity.
  - reflexivity.
Defined.

(** X14.  [serialize] followed by [parse] is the identity on a maybe of
    a fixed-size type of at most 0xFFFFFFFF bytes in which no empty tuple
    occurs: [null] is written as no byte at all and read back from the
    empty frame, a value that fits the element is written as the element
    alone, without a trailing byte, and read back. *)
Theorem X14_fixed_maybe_roundtrip (typestr id : jsstring) (el : gtype) (v : value)
        (Hty : parseType typestr = Ok (TMaybe id el))
        (Hfixed : is_fixed el = true)
        (Hunit : no_unit el = true)
        (Hsize : fixed el <= max_offset)
        (Hv : v = VNull \/ fits el v = true) :
  exists bytes,
    serialize typestr v = Ok bytes
    /\ blength bytes = match v with VNull => 0 | _ => fixed el end
    /\ parse typestr bytes = Ok v.
Proof.
  destruct (fixed_all_fixed el) as (Hall & _ & Hpos).
  rewrite Hfixed in Hall. symmetry in Hall. rewrite Hall in Hpos.
  pose proof (alignment_range el) as Har.
  assert (Hnew : DynamicBuffer.align DynamicBuffer.new (alignment (TMaybe id el))
                 = DynamicBuffer.new).
  { apply dynamic_align_noop; [cbn [alignment]; lia|]. apply Z.rem_0_l.
    cbn [alignment]. lia. }
  destruct Hv as [-> | Hv].
  - exists []. split; [|split; [reflexivity|]].
    + unfold serialize. rewrite Hty. cbn [bind write]. rewrite Hnew. reflexivity.
    + rewrite parse_unfold, Hty. reflexivity.
  - destruct (fixed_written_back (write_value (variant_depth v))
                                 (parse_fuel (Z.to_nat (fixed el))) el Hall Hunit Hsize v Hv
                                 DynamicBuffer.new)
      as (bytes & Hw & Hl & Hr).
    { apply Z.rem_0_l. lia. }
    exists bytes.
    assert (Hnn : v <> VNull) by (intros ->; destruct el; discriminate Hv).
    split; [|split].
    + unfold serialize. rewrite Hty. cbn [bind write]. rewrite Hnew, Hw, Hfixed.
      destruct v; try reflexivity. contradiction.
    + destruct v; try exact Hl. contradiction.
    + rewrite parse_unfold, Hty. cbn [bind read].
      specialize (Hr []). rewrite app_nil_r in Hr. cbn [DynamicBuffer.new app] in Hr.
      change (blength []) with 0 in Hr. rewrite Z.add_0_l, <- Hl in Hr.
      replace (0 =? blength bytes) with false by (symmetry; apply Z.eqb_neq; lia).
      rewrite Hfixed, Z.sub_0_r, Hl, Z.eqb_refl. cbn [negb].
      rewrite <- Hl. unfold blength in Hr at 1.
      rewrite Nat2Z.id in Hr. exact Hr.
Qed.

Lemma X14_fixed_maybe_roundtrip_witness :
  (exists bytes,
      serialize (str "mq") VNull = Ok bytes /\ blength bytes = 0
      /\ parse (str "mq") bytes = Ok VNull)
  /\ (exists bytes,
         serialize (str "mq") (VNum 513) = Ok bytes /\ blength bytes = 2
         /\ parse (str "mq") bytes = Ok (VNum 513)).
Proof.
  split.
  - apply (X14_fixed_maybe_roundtrip (str "mq") (str "mq") TUInt16 VNull);
      [vm_compute; reflexivity | reflexivity | reflexivity | vm_compute; discriminate
       | left; reflexivity].
  - apply (X14_fixed_maybe_roundtrip (str "mq") (str "mq") TUInt16 (VNum 513));
      [vm_compute; reflexivity | reflexivity | reflexivity | vm_compute; discriminate
       | right; reflexivity].
Defined.

(** ** Text, written and read back *)

Lemma window_prefix (a b : list byte) : window (a ++ b) 0 (blength a) = a.
Proof.
  unfold window, blength. rewrite length_app.
  rewrite Z.max_l, Z.min_l by lia. cbn [Z.to_nat skipn].
  rewrite Z.sub_0_r, Nat2Z.id, firstn_app, Nat.sub_diag, firstn_all.
  cbn [firstn]. apply app_nil_r.
Qed.

(** X15.  [serialize] followed by [parse] is the identity on text: under
    [s], [o] and [g], a string without unpaired surrogate is written as its
    UTF-8 bytes and one 0x00 byte, and read back up to its first U+0000, so
    unchanged when it contains none. *)
Theorem X15_text_roundtrip (sig : string) (s : jsstring)
        (Hsig : sig = "s"%string \/ sig = "o"%string \/ sig = "g"%string)
        (Hwf : well_formed s = true) :
  serialize (str sig) (VStr s) = Ok (utf8_encode s ++ [x00])
  /\ parse (str sig) (utf8_encode s ++ [x00]) = Ok (VStr (until_nul s))
  /\ (no_nul s = true -> parse (str sig) (utf8_encode s ++ [x00]) = Ok (VStr s)).
Proof.
  assert (Hty : parseType (str sig) = Ok (TString (str sig)))
    by (destruct Hsig as [-> | [-> | ->]]; vm_compute; reflexivity).
  assert (Hparse : parse (str sig) (utf8_encode s ++ [x00]) = Ok (VStr (until_nul s))).
  { rewrite parse_unfold, Hty. cbn [bind read].
    replace (0 =? blength (utf8_encode s ++ [x00])) with false
      by (symmetry; apply Z.eqb_neq; rewrite blength_app; unfold blength; cbn [length]; lia).
    replace (blength (utf8_encode s ++ [x00]) - 1) with (blength (utf8_encode s))
      by (rewrite blength_app; unfold blength; cbn [length]; lia).
    pose proof (read8_mid (utf8_encode s) [] 0) as Hlast.
    cbn [DynamicBuffer.le_bytes app] in Hlast.
    change (byte_of 0) with x00 in Hlast. rewrite Hlast. cbn [bind].
    change (0 mod 2 ^ 8 =? 0) with true. cbn [negb].
    rewrite window_prefix, (utf8_roundtrip s Hwf). reflexivity. }
  split; [|split].
  - unfold serialize. rewrite Hty. reflexivity.
  - exact Hparse.
  - intros Hnul. rewrite Hparse, (until_nul_no_nul s Hnul). reflexivity.
Qed.

Lemma X15_text_roundtrip_witness :
  serialize (str "s") (VStr [104; 233; 8364; 0xD83D; 0xDE00])
  = Ok [x68; xc3; xa9; xe2; x82; xac; xf0; x9f; x98; x80; x00]
  /\ parse (str "s") [x68; xc3; xa9; xe2; x82; xac; xf0; x9f; x98; x80; x00]
     = Ok (VStr [104; 233; 8364; 0xD83D; 0xDE00]).
Proof.
  destruct (X15_text_roundtrip "s" [104; 233; 8364; 0xD83D; 0xDE00]
                               (or_introl eq_refl) eq_refl) as (Hs & _ & Hp).
  split; [exact Hs | exact (Hp eq_refl)].
Defined.

(** ** Variants, written and read back *)

(** A string of ASCII characters other than U+0000 is written as its
    units and read back from them under either encoding. *)
Lemma ascii_text (t : jsstring) :
  forallb (fun u => (1 <=? u) && (u <=? 127)) t = true ->
  no_nul_byte (utf8_encode t) = true /\ ascii_decode (utf8_encode t) = t.
Proof.
  induction t as [|u rest IH]; intros H; [split; reflexivity|].
  cbn [forallb] in H. apply andb_true_iff in H. destruct H as [Hu Hrest].
  apply andb_true_iff in Hu. destruct Hu as [H1 H2].
  apply Z.leb_le in H1, H2. destruct (IH Hrest) as [IHn IHd].
  cbn [utf8_encode].
  replace (is_high_surrogate u) with false
    by (symmetry; unfold is_high_surrogate; apply andb_false_iff; left;
        apply Z.leb_gt; lia).
  replace (is_low_surrogate u) with false
    by (symmetry; unfold is_low_surrogate; apply andb_false_iff; left;
        apply Z.leb_gt; lia).
  unfold utf8_bytes_of_code_point.
  replace (u <? 0x80) with true by (symmetry; apply Z.ltb_lt; lia).
  cbn [app no_nul_byte forallb ascii_decode map].
  rewrite byte_val_byte_of_small by lia.
  fold (no_nul_byte (utf8_encode rest)). fold (ascii_decode (utf8_encode rest)).
  rewrite IHn, IHd. split.
  - replace (u =? 0) with false by (symmetry; apply Z.eqb_neq; lia). reflexivity.
  - f_equal. change 0x7F with (Z.ones 7). rewrite Z.land_ones by lia.
    apply Z.mod_small. change (2 ^ 7) with 128. lia.
Qed.

(** X16.  A variant round-trips whenever its content does: if the value
    [x] is serialized under the signature [t] (of ASCII characters) to
    [body] and parsed back from it, then [{ type: t, value: x }] is
    serialized under [v] to [body], a 0x00 byte and the signature, and
    parsed back from these bytes. *)
Theorem X16_variant_roundtrip (t : jsstring) (x : value) (body : buffer)
        (Hascii : forallb (fun u => (1 <=? u) && (u <=? 127)) t = true)
        (Hser : serialize t x = Ok body)
        (Hpar : parse t body = Ok x) :
  serialize (str "v") (VVariant t x) = Ok (body ++ x00 :: utf8_encode t)
  /\ parse (str "v") (body ++ x00 :: utf8_encode t) = Ok (VVariant t x).
Proof.
  destruct (ascii_text t Hascii) as [Hnul Hdec]. split.
  - unfold serialize in *. change (parseType (str "v")) with (Ok TVariant).
    cbn [bind write variant_depth write_value].
    destruct (parseType t) as [ty| | |]; try discriminate Hser. cbn [bind] in *.
    destruct (write (write_value (variant_depth x)) ty x DynamicBuffer.new)
      as [buf| | |]; try discriminate Hser.
    cbn [bind] in *. injection Hser as <-.
    unfold DynamicBuffer.toBuffer, DynamicBuffer.append, DynamicBuffer.appendUInt8.
    rewrite <- app_assoc. reflexivity.
  - rewrite parse_unfold. change (parseType (str "v")) with (Ok TVariant). cbn [bind].
    rewrite (read_variant_split _ body (utf8_encode t) Hnul), Hdec.
    rewrite (parse_fuel_stable _ (S (length body)) t body);
      [fold (parse t body); rewrite Hpar; reflexivity | left | left; lia].
    rewrite length_app. cbn [length]. lia.
Qed.

Lemma X16_variant_roundtrip_witness :
  serialize (str "v") (VVariant (str "(yi)") (VSeq [VNum 7; VNum (-2)]))
  = Ok [x07; x00; x00; x00; xfe; xff; xff; xff; x00; x28; x79; x69; x29]
  /\ parse (str "v") [x07; x00; x00; x00; xfe; xff; xff; xff; x00; x28; x79; x69; x29]
     = Ok (VVariant (str "(yi)") (VSeq [VNum 7; VNum (-2)])).
Proof.
  apply (X16_variant_roundtrip (str "(yi)") (VSeq [VNum 7; VNum (-2)])
                               [x07; x00; x00; x00; xfe; xff; xff; xff]).
  - reflexivity.
  - vm_compute. reflexivity.
  - vm_compute. reflexivity.
Defined.

(** ** Edge cases of arrays and booleans *)

(** X17.  Under every array signature, no data parses to the empty array
    (the empty object when the elements are dict-entries) and the empty
    array serializes to no byte; and when the elements have a fixed size
    that does not divide the length of the data, the data parses to the
    empty array, never to an object. *)
Theorem X17_array_edge_cases (typestr id : jsstring) (el : gtype) (data : buffer)
        (Hty : parseType typestr = Ok (TArray id el)) :
  parse typestr [] = Ok (if is_dict_entry el then VMap [] else VSeq [])
  /\ serialize typestr (VSeq []) = Ok []
  /\ (is_fixed el = true -> Z.rem (blength data) (fixed el) <> 0 ->
      parse typestr data = Ok (VSeq [])).
Proof.
  split; [|split].
  - rewrite parse_unfold, Hty. reflexivity.
  - unfold serialize. rewrite Hty. cbn [bind write as_array].
    destruct (is_fixed el); [reflexivity|].
    cbn [write_variable_elements bind]. rewrite writeOffsets_none; [reflexivity|].
    unfold max_offset. cbn. lia.
  - intros Hfixed Hrem. rewrite parse_unfold, Hty. cbn [bind read].
    destruct (0 =? blength data) eqn:E.
    + apply Z.eqb_eq in E. rewrite <- E in Hrem.
      exfalso. apply Hrem. destruct (fixed el); reflexivity.
    + rewrite Hfixed, Z.sub_0_r.
      replace (Z.rem (blength data) (fixed el) =? 0) with false
        by (symmetry; apply Z.eqb_neq; exact Hrem).
      reflexivity.
Qed.

Lemma X17_array_edge_cases_witness :
  parse (str "a{sv}") [] = Ok (VMap [])
  /\ serialize (str "a{sv}") (VSeq []) = Ok []
  /\ parse (str "a{yy}") [x01; x02; x03] = Ok (VSeq []).
Proof.
  destruct (X17_array_edge_cases
              (str "a{sv}") (str "a{sv}")
              (TDictEntry (str "{sv}") (TString (str "s")) TVariant) []
              ltac:(vm_compute; reflexivity)) as (H1 & H2 & _).
  destruct (X17_array_edge_cases
              (str "a{yy}") (str "a{yy}")
              (TDictEntry (str "{yy}") TByte TByte) [x01; x02; x03]
              ltac:(vm_compute; reflexivity)) as (_ & _ & H3).
  split; [exact H1 | split; [exact H2|]].
  apply H3; [reflexivity | vm_compute; discriminate].
Defined.

(** X18.  Under [b] every value is written by its truthiness, as the
    single byte 0x01 or 0x00, and that byte parses to the boolean
    [!!value]. *)
Theorem X18_boolean_truthiness (v : value) :
  serialize (str "b") v = Ok [if truthy v then x01 else x00]
  /\ parse (str "b") [if truthy v then x01 else x00] = Ok (VBool (truthy v)).
Proof.
  split.
  - unfold serialize. change (parseType (str "b")) with (Ok TBoolean).
    cbn [bind write]. destruct (truthy v); reflexivity.
  - destruct (truthy v); reflexivity.
Qed.

(** ** Fixed-size types never raise *)

Lemma in_bounds_true (buf : buffer) (offset n : Z) :
  0 <= offset -> offset + n <= blength buf -> in_bounds buf offset n = true.
Proof.
  intros H1 H2. unfold in_bounds. apply andb_true_iff. split; apply Z.leb_le; lia.
Qed.

Lemma layout_shift (els : list gtype) (start : Z) :
  0 <= start ->
  (forall el, In el els -> Z.rem start (alignment el) = 0) ->
  forall r, 0 <= r -> layout els (start + r) = start + layout els r.
Proof.
  intros Hs. induction els as [|el els IH]; intros Hal r Hr; [reflexivity|].
  rewrite !layout_cons.
  pose proof (alignment_range el). pose proof (fixed_nonneg el).
  pose proof (align_ge r (alignment el) ltac:(lia)).
  rewrite align_shift by (try lia; apply Hal; left; reflexivity).
  rewrite <- Z.add_assoc. apply IH; [|lia].
  intros e He. apply Hal. right. exact He.
Qed.

(** The loop of the tuple reader over fixed-size elements that lie within
    the buffer. *)
Lemma read_elements_total (p : jsstring -> buffer -> result value) (buf : buffer)
      (o : Offsets.t) (end_ : Z) (els : list gtype) :
  Forall (fun el => is_fixed el = true
                    /\ forall start,
                        0 <= start -> Z.rem start (alignment el) = 0 ->
                        start + fixed el <= blength buf ->
                        exists v, read p el buf start (start + fixed el) = Ok v) els ->
  forall cur co,
    0 <= cur -> layout els cur <= blength buf ->
    exists vs,
      read_elements o end_ (map (fun el => (el, read p el buf)) els) cur co = Ok vs.
Proof.
  induction 1 as [|el els [Hfix Hel] _ IH]; intros cur co Hcur Hlay.
  - exists []. reflexivity.
  - rewrite layout_cons in Hlay.
    pose proof (alignment_range el) as Har. pose proof (fixed_nonneg el) as Hnn.
    pose proof (align_ge cur (alignment el) ltac:(lia)) as Hge.
    pose proof (layout_ge els (align cur (alignment el) + fixed el) ltac:(lia)) as Hlg.
    destruct (Hel (align cur (alignment el)) ltac:(lia)
                  (align_is_aligned cur (alignment el) Hcur ltac:(lia)) ltac:(lia))
      as [v Hv].
    destruct (IH (align cur (alignment el) + fixed el) co ltac:(lia) Hlay) as [vs Hvs].
    exists (v :: vs). cbn [map read_elements]. rewrite Hfix. cbn [bind].
    rewrite Hv. cbn [bind]. rewrite Hvs. reflexivity.
Qed.

(** A fixed-size type reads a value from every frame of its size that
    lies within the buffer at an aligned position. *)
Lemma fixed_read_total (p : jsstring -> buffer -> result value) (buf : buffer)
      (ty : gtype) :
  all_fixed ty = true -> fixed ty <= max_offset ->
  forall start,
    0 <= start -> Z.rem start (alignment ty) = 0 -> start + fixed ty <= blength buf ->
    exists v, read p ty buf start (start + fixed ty) = Ok v.
Proof.
  induction ty as [| | | | | | | | | id | | id el IH | id els IH | id k x IHk IHx | id el IH]
    using gtype_nested_ind;
    intros Hf Hm start Hs Hal Hin; try discriminate Hf;
    try (unfold fixed in *; cbn [fixedSize] in *; cbn [read];
         rewrite frame_eqb; cbn [negb];
         unfold readInt16LE, readInt32LE, readDoubleLE, readUInt8, readUInt16LE,
           readUInt32LE;
         rewrite !in_bounds_true by lia; cbn [bind]; eexists; reflexivity).
  - (* tuple *)
    cbn [all_fixed] in Hf. cbn [read].
    destruct (fixed_all_fixed (TTuple id els)) as [-> _]. cbn [all_fixed].
    rewrite Hf, frame_eqb. cbn [negb andb].
    destruct (offsetInfo_in_range buf start (start + fixed (TTuple id els)) ltac:(lia))
      as [o ->].
    cbn [bind].
    assert (Hels : forall el, In el els -> Z.rem start (alignment el) = 0)
      by (intros el He; exact (aligned_element id els el start He Hs Hal)).
    destruct (read_elements_total p buf o (start + fixed (TTuple id els)) els) with
      (cur := start) (co := 0) as [vs Hvs].
    + rewrite Forall_forall in *. rewrite forallb_forall in Hf. intros el He.
      destruct (fixed_all_fixed el) as [Hisf _]. rewrite (Hf el He) in Hisf.
      split; [exact Hisf|]. apply IH; [exact He | apply Hf; exact He|].
      destruct els as [|e0 els0]; [contradiction|].
      rewrite (fixed_tuple_layout id (e0 :: els0)) in Hm
        by (try discriminate; apply forallb_forall; exact Hf).
      pose proof (layout_ge_element (e0 :: els0) el He 0 (Z.le_refl 0)). lia.
    + exact Hs.
    + destruct els as [|e0 els0];
        [change (fixed (TTuple id [])) with 1 in Hin; unfold layout; cbn [fold_left]; lia|].
      rewrite (fixed_tuple_layout id (e0 :: els0)) in Hin by (try discriminate; exact Hf).
      pose proof (layout_shift (e0 :: els0) start Hs Hels 0 (Z.le_refl 0)) as Hsh.
      rewrite Z.add_0_r in Hsh. lia.
    + rewrite Hvs. eexists. reflexivity.
  - (* dict-entry *)
    cbn [all_fixed] in Hf. apply andb_true_iff in Hf. destruct Hf as [Hfk Hfx].
    pose proof (fixed_dict_entry id k x Hfk Hfx) as Hlay.
    pose proof (alignment_range x) as Harx. pose proof (alignment_range k) as Hark.
    pose proof (fixed_nonneg k) as Hnk. pose proof (fixed_nonneg x) as Hnx.
    pose proof (align_ge (fixed k) (alignment x) ltac:(lia)) as Hgek.
    assert (Hbk : Z.rem start (alignment k) = 0).
    { apply (aligned_smaller _ _ (alignment (TDictEntry id k x)));
        [apply alignment_values | apply alignment_values | cbn [alignment]; lia
         | exact Hs | exact Hal]. }
    assert (Hbx : Z.rem start (alignment x) = 0).
    { apply (aligned_smaller _ _ (alignment (TDictEntry id k x)));
        [apply alignment_values | apply alignment_values | cbn [alignment]; lia
         | exact Hs | exact Hal]. }
    assert (Hisk : is_fixed k = true)
      by (destruct (fixed_all_fixed k) as [-> _]; exact Hfk).
    cbn [read].
    destruct (fixed_all_fixed (TDictEntry id k x)) as [-> _]. cbn [all_fixed].
    rewrite Hfk, Hfx, frame_eqb. cbn [negb andb].
    destruct (offsetInfo_in_range buf start (start + fixed (TDictEntry id k x))
                                  ltac:(lia)) as [o ->].
    cbn [bind]. rewrite Hisk. cbn [bind].
    destruct (IHk Hfk ltac:(lia) start Hs Hbk ltac:(lia)) as [vk ->]. cbn [bind].
    rewrite (align_shift start (fixed k) (alignment x)) by lia.
    replace (start + fixed (TDictEntry id k x))
      with ((start + align (fixed k) (alignment x)) + fixed x) by lia.
    destruct (IHx Hfx ltac:(lia) (start + align (fixed k) (alignment x)) ltac:(lia))
      as [vx ->]; [|lia|].
    + apply rem_add_aligned; try assumption; try lia.
      apply align_is_aligned; lia.
    + cbn [bind]. eexists. reflexivity.
Qed.

(** X19.  Under a fixed-size signature (of a size below 4 GiB) [parse]
    never raises, whatever the data: data of another length than
    [fixedSize] parse to the default value of the type, and data of that
    length to a value read from them. *)
Theorem X19_fixed_size_parse_total (typestr : jsstring) (ty : gtype) (data : buffer)
        (Hty : parseType typestr = Ok ty)
        (Hfixed : is_fixed ty = true)
        (Hsize : fixed ty <= max_offset) :
  exists v,
    parse typestr data = Ok v
    /\ (blength data <> fixed ty -> v = defaultValue ty).
Proof.
  rewrite parse_unfold, Hty. cbn [bind].
  destruct (Z.eq_dec (blength data) (fixed ty)) as [E | E].
  - destruct (fixed_all_fixed ty) as [Hall _]. rewrite Hfixed in Hall. symmetry in Hall.
    pose proof (alignment_range ty) as Har.
    destruct (fixed_read_total (parse_fuel (length data)) data ty Hall Hsize 0
                               (Z.le_refl 0)) as [v Hv].
    + apply Z.rem_0_l. lia.
    + lia.
    + exists v. rewrite Z.add_0_l, <- E in Hv. split; [exact Hv | contradiction].
  - exists (defaultValue ty). split; [|reflexivity].
    apply read_mismatch_default; [exact Hfixed | lia].
Qed.

Lemma X19_fixed_size_parse_total_witness :
  exists v, parse (str "(yi)") [x01; x02; x03] = Ok v /\ v = VSeq [VNum 0; VNum 0].
Proof.
  destruct (X19_fixed_size_parse_total
              (str "(yi)") (TTuple (str "(yi)") [TByte; TInt32]) [x01; x02; x03]
              ltac:(vm_compute; reflexivity) eq_refl ltac:(vm_compute; discriminate))
    as [v [Hp Hd]].
  exists v. split; [exact Hp|]. apply Hd. vm_compute. discriminate.
Defined.

(** ** The object built from an array of dict-entries *)

Lemma jsstring_eqb_eq (a b : jsstring) : jsstring_eqb a b = true <-> a = b.
Proof.
  revert b. induction a as [|x a IH]; intros [|y b]; cbn [jsstring_eqb];
    try (split; [discriminate | discriminate]); [tauto|].
  rewrite andb_true_iff, Z.eqb_eq, IH. split.
  - intros [-> ->]. reflexivity.
  - intros H. injection H as -> ->. split; reflexivity.
Qed.

Lemma jsstring_eqb_trans_false (a b c : jsstring) :
  jsstring_eqb a b = false -> jsstring_eqb a c = true -> jsstring_eqb b c = false.
Proof.
  intros Hab Hac. apply jsstring_eqb_eq in Hac. subst c.
  destruct (jsstring_eqb b a) eqn:E; [|reflexivity].
  apply jsstring_eqb_eq in E. subst b.
  assert (H : jsstring_eqb a a = true) by (apply jsstring_eqb_eq; reflexivity).
  rewrite H in Hab. discriminate Hab.
Qed.

Lemma obj_get_replace (o : list (jsstring * value)) (key k : jsstring) (v : value) :
  obj_has o key = true ->
  obj_get (obj_replace o key v) k
  = if jsstring_eqb key k then Some v else obj_get o k.
Proof.
  induction o as [|[k' v'] rest IH]; intros Hhas; [discriminate Hhas|].
  cbn [obj_has obj_replace obj_get] in *.
  destruct (jsstring_eqb k' key) eqn:Ek.
  - apply jsstring_eqb_eq in Ek. subst k'. cbn [obj_get].
    destruct (jsstring_eqb key k); reflexivity.
  - cbn [orb] in Hhas. cbn [obj_get]. rewrite (IH Hhas).
    destruct (jsstring_eqb k' k) eqn:Ekk; [|reflexivity].
    rewrite (jsstring_eqb_trans_false k' key k Ek Ekk). reflexivity.
Qed.

Lemma obj_get_fresh (o : list (jsstring * value)) (key k : jsstring) :
  obj_has o key = false -> jsstring_eqb key k = true -> obj_get o k = None.
Proof.
  intros Hhas Hk. apply jsstring_eqb_eq in Hk. subst k.
  induction o as [|[k' v'] rest IH]; [reflexivity|].
  cbn [obj_has obj_get] in *. apply orb_false_iff in Hhas. destruct Hhas as [-> Hhas].
  exact (IH Hhas).
Qed.

Lemma obj_get_insert_index (o : list (jsstring * value)) (n : Z) (key k : jsstring)
      (v : value) :
  obj_has o key = false ->
  obj_get (obj_insert_index o n key v) k
  = if jsstring_eqb key k then Some v else obj_get o k.
Proof.
  induction o as [|[k' v'] rest IH]; intros Hhas; [reflexivity|].
  cbn [obj_has] in Hhas. apply orb_false_iff in Hhas. destruct Hhas as [Ek Hhas].
  cbn [obj_insert_index].
  destruct (array_index k') as [n'|]; [destruct (n <? n')|]; try reflexivity.
  cbn [obj_get]. rewrite (IH Hhas).
  destruct (jsstring_eqb k' k) eqn:Ekk; [|reflexivity].
  rewrite (jsstring_eqb_trans_false k' key k Ek Ekk). reflexivity.
Qed.

Lemma obj_get_append (o : list (jsstring * value)) (key k : jsstring) (v : value) :
  obj_has o key = false ->
  obj_get (o ++ [(key, v)]) k = if jsstring_eqb key k then Some v else obj_get o k.
Proof.
  induction o as [|[k' v'] rest IH]; intros Hhas; [reflexivity|].
  cbn [obj_has] in Hhas. apply orb_false_iff in Hhas. destruct Hhas as [Ek Hhas].
  cbn [app obj_get]. rewrite (IH Hhas).
  destruct (jsstring_eqb k' k) eqn:Ekk; [|reflexivity].
  rewrite (jsstring_eqb_trans_false k' key k Ek Ekk). reflexivity.
Qed.

(** [o[key] = v] sets the property [key] and leaves the others. *)
Lemma obj_get_set (o o' : list (jsstring * value)) (key k : jsstring) (v : value) :
  obj_set o key v = Ok o' ->
  obj_get o' k = if jsstring_eqb key k then Some v else obj_get o k.
Proof.
  unfold obj_set. destruct (jsstring_eqb key (str "__proto__")); [discriminate|].
  destruct (obj_has o key) eqn:Hhas.
  - intros H. injection H as <-. apply obj_get_replace. exact Hhas.
  - destruct (array_index key) as [n|]; intros H; injection H as <-.
    + apply obj_get_insert_index. exact Hhas.
    + apply obj_get_append. exact Hhas.
Qed.

Lemma to_object_get (values : list value) :
  forall o o' k,
    to_object values o = Ok o' -> obj_get o' k = last_entry values k (obj_get o k).
Proof.
  induction values as [|x rest IH]; intros o o' k H; cbn [to_object last_entry] in *.
  - injection H as <-. reflexivity.
  - destruct x as [n | bits | b | s | | l | m | t y]; try discriminate H.
    destruct l as [|key [|v l']]; try discriminate H.
    destruct (to_property_key key) as [kk| | |]; try discriminate H. cbn [bind] in H.
    destruct (obj_set o kk v) as [o1| | |] eqn:Eset; try discriminate H. cbn [bind] in H.
    rewrite (IH o1 o' k H), (obj_get_set o o1 kk k v Eset). reflexivity.
Qed.

(** X20.  In the object the array reader builds from dict-entries, each
    property holds the value of the last entry with that key: a later
    entry overrides an earlier one with the same key, and a key no entry
    has is not a property.  This is for the entries whose keys have a
    property name in the embedding ([key_string]: not a fraction, not a
    number of 2^53 or more in magnitude, not an object with a [toString]
    of its own), none of them [__proto__]: those on which [to_object]
    returns. *)
Theorem X20_dict_last_entry_wins (values : list value) (o : list (jsstring * value))
        (k : jsstring) (H : to_object values [] = Ok o) :
  obj_get o k = last_entry values k None.
Proof.
  exact (to_object_get values [] o k H).
Qed.

Lemma X20_dict_last_entry_wins_witness :
  parse (str "a{yy}") [x01; x0a; x02; x14; x01; x1e]
  = Ok (VMap [(str "1", VNum 30); (str "2", VNum 20)])
  /\ parse (str "a{dy}") [x00; x00; x00; x00; x00; x00; xf0; x3f; x07]
     = Ok (VMap [(str "1", VNum 7)])
  /\ parse (str "a{(yy)y}") [x01; x02; x07] = Ok (VMap [(str "1,2", VNum 7)])
  /\ obj_get [(str "1", VNum 30); (str "2", VNum 20)] (str "1") = Some (VNum 30).
Proof.
  split; [vm_compute; reflexivity|].
  split; [vm_compute; reflexivity|].
  split; [vm_compute; reflexivity|].
  apply (X20_dict_last_entry_wins
           [VSeq [VNum 1; VNum 10]; VSeq [VNum 2; VNum 20]; VSeq [VNum 1; VNum 30]]).
  vm_compute. reflexivity.
Defined.

(** ** Arrays of variable-size elements, written and read back *)

Lemma last_nonempty_default {A : Type} (l : list A) (d e : A) :
  l <> [] -> last l d = last l e.
Proof.
  induction l as [|x l IH]; intros Hne; [contradiction|].
  destruct l as [|y l]; [reflexivity|].
  change (last (y :: l) d = last (y :: l) e). apply IH. discriminate.
Qed.

Lemma last_cons_default {A : Type} (x : A) (l : list A) (d : A) :
  last (x :: l) d = last l x.
Proof.
  destruct l as [|y l]; [reflexivity|].
  change (last (y :: l) d = last (y :: l) x).
  apply last_nonempty_default. discriminate.
Qed.

Lemma nth_last_default {A : Type} (l : list A) (d e : A) :
  l <> [] -> nth (length l - 1) l d = last l e.
Proof.
  induction l as [|x l IH]; intros Hne; [contradiction|].
  destruct l as [|y l]; [reflexivity|].
  replace (length (x :: y :: l) - 1)%nat with (S (length (y :: l) - 1))
    by (cbn [length]; lia).
  change (nth (length (y :: l) - 1) (y :: l) d = last (y :: l) e).
  apply IH. discriminate.
Qed.

(** The loops of the array writer and of the array reader over
    variable-size elements: the writer records the end of each element,
    and the reader, given these ends by the offset table, finds each
    element where it was written. *)
Lemma var_elements_written_back (wv : jsstring -> value -> buffer -> result buffer)
      (p : jsstring -> buffer -> result value) (el : gtype) (start : Z) (vs : list value) :
  Forall (written_back_var wv p el) vs ->
  forall buf offs,
    start <= blength buf ->
    exists bytes ends,
      write_variable_elements (write wv el) (alignment el) start vs buf offs
      = Ok (buf ++ bytes, offs ++ ends)
      /\ length ends = length vs
      /\ Forall (fun e => 0 <= e <= blength (buf ++ bytes) - start) ends
      /\ last ends (blength buf - start) = blength (buf ++ bytes) - start
      /\ (vs = [] -> bytes = [])
      /\ forall rest o k i0,
          (forall j, (j < length vs)%nat ->
                     Offsets.read_at o (- k + Offsets.size o * (i0 + Z.of_nat j))
                     = Ok (start + nth j ends 0)) ->
          array_variable (read p el (buf ++ bytes ++ rest)) o (alignment el)
                         (length vs) i0 k (align (blength buf) (alignment el))
          = Ok vs.
Proof.
  induction 1 as [|v vs Hv _ IH]; intros buf offs Hstart.
  - exists [], []. cbn [write_variable_elements length array_variable last].
    rewrite !app_nil_r. repeat split; try reflexivity. constructor.
  - pose proof (alignment_range el) as Har.
    destruct (dynamic_align_aligned buf (alignment el) ltac:(lia))
      as (pad & Hpad & Hpl & Hpa).
    destruct (Hv (buf ++ pad) Hpa) as (b & Hw & Hr).
    assert (Hge : blength buf <= blength (buf ++ pad))
      by (rewrite Hpl; apply align_ge; lia).
    assert (Hb : 0 <= blength b) by (unfold blength; lia).
    destruct (IH ((buf ++ pad) ++ b)
                 (offs ++ [blength ((buf ++ pad) ++ b) - start]))
      as (bytes' & ends' & Hw' & Hlen & Hbounds & Hlast & _ & Hr').
    { rewrite blength_app. lia. }
    assert (Hassoc : forall t, ((buf ++ pad) ++ b) ++ t = buf ++ (pad ++ b ++ t))
      by (intros t; rewrite <- !app_assoc; reflexivity).
    exists (pad ++ b ++ bytes'), ((blength ((buf ++ pad) ++ b) - start) :: ends').
    split; [|split; [|split; [|split; [|split]]]].
    + cbn [write_variable_elements]. rewrite Hpad, Hw. cbn [bind].
      unfold DynamicBuffer.length. rewrite Hw', Hassoc, <- app_assoc. reflexivity.
    + cbn [length]. rewrite Hlen. reflexivity.
    + rewrite <- Hassoc. constructor.
      * assert (0 <= blength bytes') by (unfold blength; lia).
        rewrite (blength_app ((buf ++ pad) ++ b) bytes'), (blength_app (buf ++ pad) b).
        lia.
      * exact Hbounds.
    + rewrite last_cons_default, <- Hassoc. exact Hlast.
    + discriminate.
    + intros rest o k i0 Hcells. cbn [length array_variable].
      pose proof (Hcells O ltac:(cbn [length]; lia)) as H0.
      replace (i0 + Z.of_nat 0) with i0 in H0 by lia. cbn [nth] in H0.
      rewrite H0. cbn [bind].
      replace (start + (blength ((buf ++ pad) ++ b) - start))
        with (blength (buf ++ pad) + blength b) by (rewrite (blength_app (buf ++ pad) b); lia).
      rewrite <- Hpl.
      replace (buf ++ (pad ++ b ++ bytes') ++ rest)
        with ((buf ++ pad) ++ b ++ (bytes' ++ rest))
        by (rewrite <- !app_assoc; reflexivity).
      rewrite Hr. cbn [bind].
      replace ((buf ++ pad) ++ b ++ bytes' ++ rest)
        with (((buf ++ pad) ++ b) ++ bytes' ++ rest)
        by (rewrite <- !app_assoc; reflexivity).
      replace (blength (buf ++ pad) + blength b) with (blength ((buf ++ pad) ++ b))
        by (rewrite (blength_app (buf ++ pad) b); lia).
      rewrite (Hr' rest o k (i0 + 1)); [reflexivity|].
      intros j Hj. specialize (Hcells (S j) ltac:(cbn [length]; lia)).
      cbn [nth] in Hcells.
      replace (i0 + 1 + Z.of_nat j) with (i0 + Z.of_nat (S j)) by lia. exact Hcells.
Qed.

Lemma spec_cell_width_pos (len w : Z) : spec_cell_width len = Some w -> 0 < w.
Proof.
  unfold spec_cell_width.
  destruct (len <=? 0xFF); [intros H; injection H as <-; lia|].
  destruct (len <=? 0xFFFF); [intros H; injection H as <-; lia|].
  destruct (len <=? 0xFFFFFFFF); [intros H; injection H as <-; lia | discriminate].
Qed.

Lemma offsetInfo_defined (buf : buffer) (start end_ w : Z) :
  spec_cell_width (end_ - start) = Some w ->
  exists o, offsetInfo buf start end_ = Ok o /\ Offsets.size o = w.
Proof.
  intros Hw. pose proof (offsetInfo_width buf start end_) as H.
  rewrite Hw in H. unfold read_width in H.
  destruct (offsetInfo buf start end_) as [o| | |]; try discriminate H.
  cbn [bind] in H. injection H as H. exists o. split; [reflexivity | exact H].
Qed.

Lemma iterations_exact (w n : Z) : 0 < w -> 0 <= n -> iterations (w * n) w = Z.to_nat n.
Proof.
  intros Hw Hn. unfold iterations. f_equal.
  replace (w * n + w - 1) with (n * w + (w - 1)) by lia.
  rewrite Z.div_add_l by lia. rewrite Z.div_small by lia. lia.
Qed.

(** An array of variable-size elements that are each read back where
    they are written is read back, when the writer and the reader agree on
    the width of the offset cells. *)
Lemma var_array_roundtrip (typestr id : jsstring) (el : gtype) (vs : list value) :
  parseType typestr = Ok (TArray id el) ->
  is_fixed el = false -> is_dict_entry el = false ->
  (forall wv p, Forall (written_back_var wv p el) vs) ->
  exists body ends,
    write_variable_elements (write (write_value (variant_depth (VSeq vs))) el)
                            (alignment el) 0 vs [] [] = Ok (body, ends)
    /\ (same_width (blength body) (Z.of_nat (length vs)) = true ->
        exists bytes,
          serialize typestr (VSeq vs) = Ok bytes /\ parse typestr bytes = Ok (VSeq vs)).
Proof.
  intros Hty Hfix Hdict Hvs.
  pose proof (alignment_range el) as Har.
  destruct (var_elements_written_back
              (write_value (variant_depth (VSeq vs))) (parse_fuel 0) el 0 vs (Hvs _ _)
              [] [] (Z.le_refl 0))
    as (body & ends & Hw & Hlen & Hbounds & Hlast & Hnil & _).
  cbn [app] in Hw, Hbounds, Hlast. change (blength []) with 0 in Hlast.
  exists body, ends. split; [exact Hw|]. intros Hsame.
  unfold same_width in Hsame.
  destruct (spec_cell_width (blength body)) as [w|] eqn:Ew; [|discriminate Hsame].
  destruct (spec_cell_width (blength body + w * Z.of_nat (length vs))) as [w'|] eqn:Ew';
    [|discriminate Hsame].
  apply Z.eqb_eq in Hsame. subst w'.
  pose proof (spec_cell_width_pos _ _ Ew) as Hwpos.
  assert (Hwo : writeOffsets body ends 0 (blength body) = Ok (body ++ cells w ends))
    by (rewrite writeOffsets_width, Z.sub_0_r, Ew; reflexivity).
  assert (Hbl : blength (body ++ cells w ends) = blength body + w * Z.of_nat (length vs))
    by (rewrite blength_cells, Hlen, Z2Nat.id by lia; reflexivity).
  exists (body ++ cells w ends). split.
  - unfold serialize. rewrite Hty. cbn [bind write as_array]. rewrite Hfix.
    unfold DynamicBuffer.length, DynamicBuffer.new. change (blength []) with 0.
    rewrite Hw. cbn [bind]. rewrite Hwo. reflexivity.
  - rewrite parse_unfold, Hty. cbn [bind read]. rewrite Hdict, Hfix.
    destruct vs as [|v0 vs'].
    + rewrite (Hnil eq_refl). destruct ends; [|discriminate Hlen]. reflexivity.
    + set (n := length (v0 :: vs')) in *.
      assert (Hn : (1 <= n)%nat) by (unfold n; cbn [length]; lia).
      replace (0 =? blength (body ++ cells w ends)) with false
        by (symmetry; apply Z.eqb_neq; unfold blength in *; nia).
      destruct (offsetInfo_defined (body ++ cells w ends) 0 (blength (body ++ cells w ends)) w)
        as (o & Ho & Hsize).
      { rewrite Z.sub_0_r, Hbl. exact Ew'. }
      rewrite Ho. cbn [bind].
      assert (Hcell : forall j, (j < n)%nat ->
                                Offsets.read o (Z.of_nat j - Z.of_nat (length ends))
                                = Ok (0 + nth j ends 0)).
      { intros j Hj.
        apply (offset_table_read body (body ++ cells w ends) ends 0 o j Hwo Ho);
          [rewrite Hbl, Hsize, Hlen; reflexivity | lia|].
        rewrite Forall_forall in Hbounds. rewrite Z.sub_0_r in Hbounds |- *.
        apply Hbounds. apply nth_In. lia. }
      replace (-1) with (Z.of_nat (n - 1) - Z.of_nat (length ends)) by lia.
      rewrite (Hcell (n - 1)%nat) by lia. cbn [bind].
      rewrite <- Hlen, (nth_last_default ends 0 (0 - 0))
        by (destruct ends; [cbn in Hlen; lia | discriminate]).
      rewrite Hlast, Z.sub_0_r, Z.add_0_l, Hbl, Hsize.
      replace (blength body + w * Z.of_nat n - blength body) with (w * Z.of_nat n) by lia.
      rewrite iterations_exact, Nat2Z.id by lia.
      destruct (var_elements_written_back
                  (write_value (variant_depth (VSeq (v0 :: vs'))))
                  (parse_fuel (length (body ++ cells w ends))) el 0 (v0 :: vs') (Hvs _ _)
                  [] [] (Z.le_refl 0))
        as (body2 & ends2 & Hw2 & _ & _ & _ & _ & Hr2).
      cbn [app] in Hw2. rewrite Hw in Hw2. injection Hw2 as <- <-.
      specialize (Hr2 (cells w ends) o (w * Z.of_nat n) 0). cbn [app] in Hr2.
      change (blength []) with 0 in Hr2.
      rewrite (align_aligned 0 (alignment el)) in Hr2
        by (try lia; apply Z.rem_0_l; lia).
      fold n in Hr2. rewrite Hr2; [reflexivity|].
      intros j Hj. specialize (Hcell j Hj). unfold Offsets.read in Hcell.
      rewrite Hlen in Hcell. rewrite <- Hcell. f_equal. rewrite Hsize. lia.
Qed.

Lemma window_mid (a b c : list byte) :
  window (a ++ b ++ c) (blength a) (blength a + blength b) = b.
Proof.
  unfold window, blength. rewrite !length_app.
  rewrite Z.max_l, Z.min_l by lia. rewrite Nat2Z.id.
  rewrite skipn_app, skipn_all, Nat.sub_diag. cbn [app skipn].
  replace (Z.to_nat (Z.of_nat (length a) + Z.of_nat (length b) - Z.of_nat (length a)))
    with (length b) by lia.
  rewrite firstn_app, Nat.sub_diag, firstn_all. cbn [firstn]. apply app_nil_r.
Qed.

(** A text without unpaired surrogate and without U+0000 is read back
    where it is written. *)
Lemma text_written_back_var (wv : jsstring -> value -> buffer -> result buffer)
      (p : jsstring -> buffer -> result value) (id s : jsstring) :
  well_formed s = true -> no_nul s = true ->
  written_back_var wv p (TString id) (VStr s).
Proof.
  intros Hwf Hnul buf _. exists (utf8_encode s ++ [x00]). split.
  - cbn [write]. unfold DynamicBuffer.append, DynamicBuffer.appendUInt8.
    rewrite <- app_assoc. reflexivity.
  - intros rest. cbn [read].
    assert (Hl : blength (utf8_encode s ++ [x00]) = blength (utf8_encode s) + 1)
      by (rewrite blength_app; reflexivity).
    assert (Hnn : 0 <= blength (utf8_encode s)) by (unfold blength; lia).
    replace (blength buf =? blength buf + blength (utf8_encode s ++ [x00])) with false
      by (symmetry; apply Z.eqb_neq; lia).
    replace (blength buf + blength (utf8_encode s ++ [x00]) - 1)
      with (blength (buf ++ utf8_encode s)) by (rewrite blength_app; lia).
    pose proof (read8_mid (buf ++ utf8_encode s) rest 0) as Hlast.
    cbn [DynamicBuffer.le_bytes] in Hlast. change (byte_of 0) with x00 in Hlast.
    replace (buf ++ (utf8_encode s ++ [x00]) ++ rest)
      with ((buf ++ utf8_encode s) ++ [x00] ++ rest)
      by (rewrite <- !app_assoc; reflexivity).
    rewrite Hlast. cbn [bind]. change (0 mod 2 ^ 8 =? 0) with true. cbn [negb].
    rewrite <- app_assoc, blength_app, window_mid, (utf8_roundtrip s Hwf),
      (until_nul_no_nul s Hnul).
    reflexivity.
Qed.

Lemma text_elements_body (wv : jsstring -> value -> buffer -> result buffer)
      (id : jsstring) (start : Z) (ss : list jsstring) :
  forall buf offs,
    exists ends,
      write_variable_elements (write wv (TString id)) (alignment (TString id)) start
                              (map VStr ss) buf offs
      = Ok (buf ++ flat_map (fun s => utf8_encode s ++ [x00]) ss, ends).
Proof.
  induction ss as [|s ss IH]; intros buf offs.
  - exists offs. cbn [map write_variable_elements flat_map]. rewrite app_nil_r.
    reflexivity.
  - destruct (IH (DynamicBuffer.appendUInt8 (DynamicBuffer.append buf s) 0)
                 (offs ++ [DynamicBuffer.length
                             (DynamicBuffer.appendUInt8 (DynamicBuffer.append buf s) 0)
                           - start])) as [ends Hends].
    exists ends. cbn [map write_variable_elements flat_map].
    change (alignment (TString id)) with 1 in *.
    rewrite dynamic_align_noop by (try lia; apply Z.rem_1_r).
    change (write wv (TString id) (VStr s) buf)
      with (Ok (DynamicBuffer.appendUInt8 (DynamicBuffer.append buf s) 0)
            : result buffer).
    cbn [bind]. rewrite Hends.
    unfold DynamicBuffer.append, DynamicBuffer.appendUInt8.
    rewrite <- !app_assoc. reflexivity.
Qed.

(** X21.  [serialize] followed by [parse] is the identity on the arrays
    of texts ([as], [ao], [ag]) without unpaired surrogate or U+0000,
    whenever the width of the offset cells the writer chooses from the
    length of the texts alone is the one the reader chooses from the
    length of the texts and the table. *)
Theorem X21_text_array_roundtrip (sig : string) (ss : list jsstring)
        (Hsig : sig = "as"%string \/ sig = "ao"%string \/ sig = "ag"%string)
        (Hss : forallb (fun s => well_formed s && no_nul s) ss = true)
        (Hwidth : same_width (blength (flat_map (fun s => utf8_encode s ++ [x00]) ss))
                             (Z.of_nat (length ss)) = true) :
  exists bytes,
    serialize (str sig) (VSeq (map VStr ss)) = Ok bytes
    /\ parse (str sig) bytes = Ok (VSeq (map VStr ss)).
Proof.
  assert (Hty : exists eid, parseType (str sig) = Ok (TArray (str sig) (TString eid))
                            /\ is_dict_entry (TString eid) = false).
  { destruct Hsig as [-> | [-> | ->]]; eexists; split; vm_compute; reflexivity. }
  destruct Hty as (eid & Hty & Hdict).
  destruct (var_array_roundtrip (str sig) (str sig) (TString eid) (map VStr ss)
                                Hty eq_refl Hdict)
    as (body & ends & Hw & Hrt).
  - intros wv p. apply Forall_forall. intros v Hin. apply in_map_iff in Hin.
    destruct Hin as (s & <- & Hin).
    rewrite forallb_forall in Hss. specialize (Hss s Hin).
    apply andb_true_iff in Hss. destruct Hss as [Hwf Hnul].
    apply text_written_back_var; assumption.
  - destruct (text_elements_body (write_value (variant_depth (VSeq (map VStr ss))))
                                 eid 0 ss [] []) as [ends' Hends].
    cbn [app] in Hends. rewrite Hw in Hends. injection Hends as -> _.
    apply Hrt. rewrite length_map. exact Hwidth.
Qed.

Lemma X21_text_array_roundtrip_witness :
  exists bytes,
    serialize (str "as") (VSeq (map VStr [str "ab"; str ""; str "c"])) = Ok bytes
    /\ parse (str "as") bytes = Ok (VSeq (map VStr [str "ab"; str ""; str "c"])).
Proof.
  apply (X21_text_array_roundtrip "as" [str "ab"; str ""; str "c"]).
  - left. reflexivity.
  - reflexivity.
  - reflexivity.
Defined.

(** X22.  [serialize] followed by [parse] is the identity on a maybe of
    text ([ms], [mo], [mg]): [null] is written as no byte at all, a text
    (without unpaired surrogate or U+0000) as its UTF-8 bytes, the 0x00
    that ends it and one more 0x00 byte that tells it from [null]; the
    empty text, written as two 0x00 bytes, is read back as the empty text,
    not as [null]. *)
Theorem X22_text_maybe_roundtrip (sig : string) (text : option jsstring)
        (Hsig : sig = "ms"%string \/ sig = "mo"%string \/ sig = "mg"%string)
        (Htext : match text with
                 | Some s => well_formed s && no_nul s
                 | None => true
                 end = true) :
  serialize (str sig) (match text with Some s => VStr s | None => VNull end)
  = Ok (match text with Some s => utf8_encode s ++ [x00; x00] | None => [] end)
  /\ parse (str sig) (match text with Some s => utf8_encode s ++ [x00; x00] | None => [] end)
     = Ok (match text with Some s => VStr s | None => VNull end).
Proof.
  assert (Hty : exists eid, parseType (str sig) = Ok (TMaybe (str sig) (TString eid))).
  { destruct Hsig as [-> | [-> | ->]]; eexists; vm_compute; reflexivity. }
  destruct Hty as (eid & Hty).
  destruct text as [s|].
  - apply andb_true_iff in Htext. destruct Htext as [Hwf Hnul]. split.
    + unfold serialize. rewrite Hty. cbn [bind write].
      change (is_fixed (TString eid)) with false. cbn [negb bind].
      unfold DynamicBuffer.toBuffer, DynamicBuffer.appendUInt8, DynamicBuffer.append.
      change (DynamicBuffer.align DynamicBuffer.new (alignment (TMaybe (str sig) (TString eid))))
        with ([] : buffer).
      cbn [app]. rewrite <- app_assoc. reflexivity.
    + rewrite parse_unfold, Hty. cbn [bind read].
      assert (Hnn : 0 <= blength (utf8_encode s)) by (unfold blength; lia).
      assert (Hl : blength (utf8_encode s ++ [x00; x00]) = blength (utf8_encode s) + 2)
        by (rewrite blength_app; reflexivity).
      replace (0 =? blength (utf8_encode s ++ [x00; x00])) with false
        by (symmetry; apply Z.eqb_neq; lia).
      change (is_fixed (TString eid)) with false. cbv iota.
      destruct (text_written_back_var (fun _ _ _ => Unmodelled)
                                      (parse_fuel (length (utf8_encode s ++ [x00; x00])))
                                      eid s Hwf Hnul [] eq_refl) as (b & Hw & Hr).
      cbn [write app] in Hw. injection Hw as <-.
      specialize (Hr [x00]). cbn [app] in Hr. change (blength []) with 0 in Hr.
      replace (DynamicBuffer.appendUInt8 (DynamicBuffer.append [] s) 0 ++ [x00])
        with (utf8_encode s ++ [x00; x00]) in Hr
        by (unfold DynamicBuffer.appendUInt8, DynamicBuffer.append; cbn [app];
            rewrite <- app_assoc; reflexivity).
      replace (0 + blength (DynamicBuffer.appendUInt8 (DynamicBuffer.append [] s) 0))
        with (blength (utf8_encode s ++ [x00; x00]) - 1) in Hr
        by (unfold DynamicBuffer.appendUInt8, DynamicBuffer.append; cbn [app];
            rewrite Hl, blength_app; change (blength (DynamicBuffer.le_bytes 1 0)) with 1;
            lia).
      exact Hr.
  - split.
    + unfold serialize. rewrite Hty. reflexivity.
    + rewrite parse_unfold, Hty. reflexivity.
Qed.

Lemma X22_text_maybe_roundtrip_witness :
  serialize (str "ms") (VStr []) = Ok [x00; x00]
  /\ parse (str "ms") [x00; x00] = Ok (VStr []).
Proof.
  exact (X22_text_maybe_roundtrip "ms" (Some []) (or_introl eq_refl) eq_refl).
Defined.

(** ** Rejected signatures *)

(** X23.  Characters after one complete type are rejected: a well-formed
    signature followed by anything makes [parseType] throw its
    invalid-type-string TypeError, as the id of the first type is shorter
    than the string. *)
Theorem X23_parseType_rejects_trailing (s t : jsstring)
        (Hs : wf_type s) (Ht : t <> []) :
  parseType (s ++ t) = Throw (TypeError_invalid (s ++ t)).
Proof.
  destruct (nextType_accepts s Hs (s ++ t) 0 [] t (S (2 * length (s ++ t))))
    as (ty & Hty & Hid); [reflexivity | reflexivity | |].
  - unfold jslength. rewrite length_app. lia.
  - unfold parseType, nextType. rewrite Hty. cbn [bind]. rewrite Hid.
    replace (jslength s =? jslength (s ++ t)) with false; [reflexivity|].
    symmetry. apply Z.eqb_neq. rewrite jslength_app.
    destruct t; [contradiction|]. unfold jslength. cbn [length]. lia.
Qed.

Lemma X23_parseType_rejects_trailing_witness :
  parseType (str "(ii)" ++ str "i") = Throw (TypeError_invalid (str "(ii)i")).
Proof.
  apply (X23_parseType_rejects_trailing (str "(ii)") (str "i")); [|discriminate].
  apply (wf_tuple (str "ii")).
  apply (wf_cons (str "i") (str "i")); [apply wf_leaf; cbn; tauto|].
  apply (wf_cons (str "i") []); [apply wf_leaf; cbn; tauto | apply wf_nil].
Defined.

(** ** Variants without a separator *)

Lemma frame_bytes_whole (data : buffer) : frame_bytes data 0 (blength data) = data.
Proof.
  unfold frame_bytes, blength. rewrite Z.sub_0_r, Nat2Z.id. cbn [Z.to_nat skipn].
  apply firstn_all.
Qed.

Lemma slice_drop_last (data : buffer) :
  data <> [] -> slice data 0 (0 - 1) = removelast data.
Proof.
  intros Hne. assert (0 < length data)%nat by (destruct data; [contradiction | cbn; lia]).
  unfold slice, adjustOffset, blength.
  change (0 <? 0) with false. change (0 - 1 <? 0) with true. cbv iota.
  replace (0 <? Z.of_nat (length data)) with true by (symmetry; apply Z.ltb_lt; lia).
  cbn [Z.to_nat skipn]. rewrite removelast_firstn_len. f_equal. lia.
Qed.

(** X24.  When the data are not empty and hold no 0x00 byte,
    [parse("v", data)] takes the whole data, read as ASCII, for the
    signature and parses the value from the data without their last byte:
    it returns the variant of that signature and value, or raises what
    that parse raises. *)
Theorem X24_parse_variant_without_nul (data : buffer)
        (Hne : data <> []) (Hnul : no_nul_byte data = true) :
  parse (str "v") data
  = (v <- parse (ascii_decode data) (removelast data) ;;
     Ok (VVariant (ascii_decode data) v)).
Proof.
  assert (Hlen : (0 < length data)%nat) by (destruct data; [contradiction | cbn; lia]).
  rewrite parse_unfold. change (parseType (str "v")) with (Ok TVariant). cbn [bind].
  rewrite variant_without_nul_read;
    [|lia | unfold blength; lia | lia | rewrite frame_bytes_whole; exact Hnul].
  rewrite frame_bytes_whole, (slice_drop_last data Hne).
  rewrite (parse_fuel_stable _ (S (length (removelast data))) (ascii_decode data)
                             (removelast data));
    [reflexivity | left | left; lia].
  rewrite removelast_firstn_len, length_firstn. lia.
Qed.

Lemma X24_parse_variant_without_nul_witness :
  parse (str "v") [x61; x79] = Ok (VVariant (str "ay") (VSeq [VNum 97])).
Proof.
  rewrite (X24_parse_variant_without_nul [x61; x79]); [|discriminate | reflexivity].
  vm_compute. reflexivity.
Defined.

(** ** Tuples with texts, written and read back *)

(** The loops of the tuple writer and of the tuple reader: the writer
    records the end of each variable-size element but the last, and the
    reader, given these ends by the offset table (from its last cell
    backwards) and the end of the last element, finds each element where it
    was written. *)
Lemma tuple_elements_back (wv : jsstring -> value -> buffer -> result buffer)
      (p : jsstring -> buffer -> result value) (start : Z) (full : list value)
      (els : list gtype) (vs : list value) :
  Forall2 (element_back wv p) els vs ->
  forall (done : list value) (buf : buffer) (offs : list Z),
    full = done ++ vs ->
    start <= blength buf ->
    exists bytes ends,
      write_elements (VSeq full) start (map (fun el => (el, write wv el)) els)
                     (length done) buf offs = Ok (buf ++ bytes, offs ++ ends)
      /\ Forall (fun e => 0 <= e <= blength (buf ++ bytes) - start) ends
      /\ forall rest o end_ co,
          (forall j, (j < length ends)%nat ->
                     Offsets.read o (co - 1 - Z.of_nat j) = Ok (start + nth j ends 0)) ->
          end_ - Offsets.size o * (Z.of_nat (length ends) - co) = blength (buf ++ bytes) ->
          read_elements o end_
                        (map (fun el => (el, read p el (buf ++ bytes ++ rest))) els)
                        (blength buf) co = Ok vs.
Proof.
  induction 1 as [|el v els vs Hel Hrest IH]; intros done buf offs Hfull Hstart.
  - exists [], []. cbn [map write_elements read_elements].
    rewrite !app_nil_r. split; [reflexivity|]. split; [constructor|].
    intros rest o end_ co _ _. reflexivity.
  - pose proof (alignment_range el) as Har.
    destruct (dynamic_align_aligned buf (alignment el) ltac:(lia))
      as (pad & Hpad & Hpl & Hpa).
    assert (Hge : blength buf <= blength (buf ++ pad))
      by (rewrite Hpl; apply align_ge; lia).
    assert (Hidx : index_value (VSeq full) (length done) = Ok v).
    { cbn [index_value]. rewrite Hfull, nth_error_app2 by lia.
      rewrite Nat.sub_diag. reflexivity. }
    assert (Hdone : S (length done) = length (done ++ [v]))
      by (rewrite length_app; cbn [length]; lia).
    assert (Hfull' : full = (done ++ [v]) ++ vs)
      by (rewrite <- app_assoc; exact Hfull).
    unfold element_back in Hel. destruct (is_fixed el) eqn:Hfix.
    + (* an element of fixed size *)
      destruct (Hel (buf ++ pad) Hpa) as (b & Hw & Hbl & Hr).
      pose proof (fixed_nonneg el) as Hnn.
      destruct (IH (done ++ [v]) ((buf ++ pad) ++ b) offs Hfull')
        as (bytes' & ends & Hw' & Hbounds & Hr').
      { rewrite blength_app. lia. }
      assert (Hassoc : ((buf ++ pad) ++ b) ++ bytes' = buf ++ (pad ++ b ++ bytes'))
        by (rewrite <- !app_assoc; reflexivity).
      exists (pad ++ b ++ bytes'), ends. split; [|split].
      * cbn [map write_elements]. rewrite Hpad, Hidx. cbn [bind].
        rewrite Hw. cbn [bind]. rewrite Hfix. cbn [negb andb].
        rewrite Hdone, Hw', Hassoc. reflexivity.
      * rewrite <- Hassoc. exact Hbounds.
      * intros rest o end_ co Hcells Hend. cbn [map read_elements].
        rewrite Hfix. cbn [bind]. rewrite <- Hpl.
        replace (buf ++ (pad ++ b ++ bytes') ++ rest)
          with ((buf ++ pad) ++ b ++ (bytes' ++ rest))
          by (rewrite <- !app_assoc; reflexivity).
        rewrite Hr. cbn [bind].
        replace ((buf ++ pad) ++ b ++ bytes' ++ rest)
          with (((buf ++ pad) ++ b) ++ bytes' ++ rest)
          by (rewrite <- !app_assoc; reflexivity).
        replace (blength (buf ++ pad) + fixed el) with (blength ((buf ++ pad) ++ b))
          by (rewrite (blength_app (buf ++ pad) b); lia).
        rewrite (Hr' rest o end_ co Hcells); [reflexivity|].
        rewrite Hassoc. exact Hend.
    + (* an element of variable size *)
      destruct (Hel (buf ++ pad) Hpa) as (b & Hw & Hr).
      assert (Hb : 0 <= blength b) by (unfold blength; lia).
      assert (Hcase : els = [] \/ els <> [])
        by (destruct els; [left; reflexivity | right; discriminate]).
      destruct Hcase as [-> | Hne].
      * (* the last element: no offset *)
        inversion Hrest; subst.
        exists (pad ++ b), []. split; [|split].
        -- cbn [map write_elements]. rewrite Hpad, Hidx. cbn [bind].
           rewrite Hw. cbn [bind]. rewrite Hfix. cbn [negb andb].
           rewrite app_nil_r, <- app_assoc. reflexivity.
        -- constructor.
        -- intros rest o end_ co _ Hend. cbn [map read_elements].
           rewrite Hfix. cbn [bind]. cbn [length Z.of_nat] in Hend.
           replace (end_ - Offsets.size o * - co) with (blength (buf ++ pad ++ b))
             by (rewrite <- Hend; f_equal; f_equal; lia).
           rewrite <- Hpl.
           replace (buf ++ (pad ++ b) ++ rest) with ((buf ++ pad) ++ b ++ rest)
             by (rewrite <- !app_assoc; reflexivity).
           replace (blength (buf ++ pad ++ b)) with (blength (buf ++ pad) + blength b)
             by (rewrite (app_assoc buf pad b), (blength_app (buf ++ pad) b); reflexivity).
           rewrite Hr. reflexivity.
      * (* followed by other elements: its end is recorded *)
        destruct (IH (done ++ [v]) ((buf ++ pad) ++ b)
                     (offs ++ [blength ((buf ++ pad) ++ b) - start]) Hfull')
          as (bytes' & ends' & Hw' & Hbounds & Hr').
        { rewrite blength_app. lia. }
        assert (Hassoc : ((buf ++ pad) ++ b) ++ bytes' = buf ++ (pad ++ b ++ bytes'))
          by (rewrite <- !app_assoc; reflexivity).
        assert (Hmw : match map (fun el => (el, write wv el)) els with
                      | [] => false | _ :: _ => true end = true)
          by (destruct els; [contradiction | reflexivity]).
        assert (Hmr : forall B (X Y : result (Z * Z)),
                   match map (fun el => (el, read p el B)) els with
                   | [] => Y | _ :: _ => X end = X)
          by (intros; destruct els; [contradiction | reflexivity]).
        exists (pad ++ b ++ bytes'), ((blength ((buf ++ pad) ++ b) - start) :: ends').
        split; [|split].
        -- cbn [map write_elements]. rewrite Hpad, Hidx. cbn [bind].
           rewrite Hw. cbn [bind]. rewrite Hfix, Hmw. cbn [negb andb].
           unfold DynamicBuffer.length. rewrite Hdone.
           rewrite Hw', Hassoc, <- app_assoc. reflexivity.
        -- rewrite <- Hassoc. constructor; [|exact Hbounds].
           assert (0 <= blength bytes') by (unfold blength; lia).
           rewrite (blength_app ((buf ++ pad) ++ b) bytes'), (blength_app (buf ++ pad) b).
           lia.
        -- intros rest o end_ co Hcells Hend. cbn [map read_elements].
           rewrite Hfix, Hmr.
           pose proof (Hcells O ltac:(cbn [length]; lia)) as H0.
           replace (co - 1 - Z.of_nat 0) with (co - 1) in H0 by lia. cbn [nth] in H0.
           rewrite H0. cbn [bind].
           replace (start + (blength ((buf ++ pad) ++ b) - start))
             with (blength (buf ++ pad) + blength b)
             by (rewrite (blength_app (buf ++ pad) b); lia).
           rewrite <- Hpl.
           replace (buf ++ (pad ++ b ++ bytes') ++ rest)
             with ((buf ++ pad) ++ b ++ (bytes' ++ rest))
             by (rewrite <- !app_assoc; reflexivity).
           rewrite Hr. cbn [bind].
           replace ((buf ++ pad) ++ b ++ bytes' ++ rest)
             with (((buf ++ pad) ++ b) ++ bytes' ++ rest)
             by (rewrite <- !app_assoc; reflexivity).
           replace (blength (buf ++ pad) + blength b) with (blength ((buf ++ pad) ++ b))
             by (rewrite (blength_app (buf ++ pad) b); lia).
           rewrite (Hr' rest o end_ (co - 1)); [reflexivity | |].
           ++ intros j Hj. specialize (Hcells (S j) ltac:(cbn [length]; lia)).
              cbn [nth] in Hcells.
              replace (co - 1 - 1 - Z.of_nat j) with (co - 1 - Z.of_nat (S j)) by lia.
              exact Hcells.
           ++ rewrite Hassoc, <- Hend. cbn [length]. f_equal. f_equal. lia.
Qed.

(** A tuple of variable size whose elements are each read back where
    they are written is read back from its serialization, when that takes
    at most 255 bytes: the writer and the reader then both use one-byte
    offsets. *)
Lemma tuple_roundtrip (typestr id : jsstring) (els : list gtype) (vs : list value)
      (bytes : buffer) :
  parseType typestr = Ok (TTuple id els) ->
  is_fixed (TTuple id els) = false ->
  (forall wv p, Forall2 (element_back wv p) els vs) ->
  serialize typestr (VSeq vs) = Ok bytes ->
  blength bytes <= 0xFF ->
  parse typestr bytes = Ok (VSeq vs).
Proof.
  intros Hty Hfix Hels Hser Hsmall.
  destruct (tuple_elements_back (write_value (variant_depth (VSeq vs)))
                                (parse_fuel (length bytes)) 0 vs els vs (Hels _ _)
                                [] [] [] eq_refl (Z.le_refl 0))
    as (body & ends & Hw & Hbounds & Hr).
  cbn [app length] in Hw, Hbounds, Hr.
  unfold serialize in Hser. rewrite Hty in Hser. cbn [bind write] in Hser.
  unfold DynamicBuffer.length, DynamicBuffer.new in Hser.
  change (blength []) with 0 in Hser. rewrite Hw in Hser. cbn [bind] in Hser.
  destruct (writeOffsets body (rev ends) 0 (blength body)) as [buf| | |] eqn:Hwo;
    try discriminate Hser.
  cbn [bind] in Hser. unfold DynamicBuffer.toBuffer in Hser. injection Hser as ->.
  pose proof Hwo as Hwo'. rewrite writeOffsets_width in Hwo'.
  destruct (spec_cell_width (blength body - 0)) as [w|] eqn:Ew; [|discriminate Hwo'].
  injection Hwo' as Hbytes.
  pose proof (spec_cell_width_pos _ _ Ew) as Hwpos.
  assert (Hbl : blength bytes = blength body + w * Z.of_nat (length ends))
    by (rewrite <- Hbytes, blength_cells, length_rev, Z2Nat.id by lia; reflexivity).
  assert (Hb0 : 0 <= blength body) by (unfold blength; lia).
  assert (Hw1 : w = 1).
  { unfold spec_cell_width in Ew.
    replace (blength body - 0 <=? 0xFF) with true in Ew by (symmetry; apply Z.leb_le; nia).
    injection Ew as <-. reflexivity. }
  subst w.
  destruct (offsetInfo_defined bytes 0 (blength bytes) 1) as (o & Ho & Hsize).
  { unfold spec_cell_width.
    replace (blength bytes - 0 <=? 0xFF) with true by (symmetry; apply Z.leb_le; lia).
    reflexivity. }
  rewrite parse_unfold, Hty. cbn [bind read]. rewrite Hfix. cbn [andb].
  rewrite Ho. cbn [bind].
  specialize (Hr (cells 1 (rev ends)) o (blength bytes) 0).
  change (blength []) with 0 in Hr. rewrite Hbytes in Hr.
  rewrite Hr; [reflexivity | |].
  - intros j Hj.
    replace (0 - 1 - Z.of_nat j)
      with (Z.of_nat (length ends - 1 - j) - Z.of_nat (length (rev ends)))
      by (rewrite length_rev; lia).
    rewrite (offset_table_read body bytes (rev ends) 0 o (length ends - 1 - j) Hwo Ho).
    + rewrite rev_nth by lia. do 3 f_equal. lia.
    + rewrite Hbl, Hsize, length_rev. reflexivity.
    + rewrite length_rev. lia.
    + rewrite Forall_forall in Hbounds.
      assert (Hin : In (nth (length ends - 1 - j) (rev ends) 0) ends)
        by (apply in_rev, nth_In; rewrite length_rev; lia).
      specialize (Hbounds _ Hin). lia.
  - rewrite Hbl, Hsize. lia.
Qed.

Lemma flat_fits_elements (wv : jsstring -> value -> buffer -> result buffer)
      (p : jsstring -> buffer -> result value) (els : list gtype) :
  forall vs, flat_fits els vs = true -> Forall2 (element_back wv p) els vs.
Proof.
  induction els as [|el els IH]; intros [|v vs] H; try discriminate H; constructor.
  - cbn [flat_fits] in H. apply andb_true_iff in H. destruct H as [H _].
    unfold element_back.
    assert (Hfixed : is_fixed el && no_unit el && (fixed el <=? max_offset) && fits el v
                     = true -> if is_fixed el then written_back wv p el v
                               else written_back_var wv p el v).
    { intros Hf. apply andb_true_iff in Hf. destruct Hf as [Hf Hv].
      apply andb_true_iff in Hf. destruct Hf as [Hf Hm].
      apply andb_true_iff in Hf. destruct Hf as [Hf Hu].
      rewrite Hf. apply Z.leb_le in Hm.
      destruct (fixed_all_fixed el) as [Hall _]. rewrite Hf in Hall.
      apply fixed_written_back; [symmetry; exact Hall | exact Hu | exact Hm | exact Hv]. }
    destruct el; try (apply Hfixed; exact H).
    destruct v; try discriminate H.
    apply andb_true_iff in H. destruct H as [Hwf Hnul].
    change (is_fixed (TString id)) with false. cbv iota.
    apply text_written_back_var; assumption.
  - cbn [flat_fits] in H. apply andb_true_iff in H. destruct H as [_ H].
    apply IH. exact H.
Qed.

(** X25.  [serialize] followed by [parse] is the identity on the tuples
    of texts and fixed-size values whose serialization takes at most 255
    bytes: for a tuple signature without fixed size, whose elements are
    texts (without unpaired surrogate or U+0000) or values that fit a
    fixed-size type of at most 0xFFFFFFFF bytes in which no empty tuple
    occurs, what [serialize] returns is parsed back to the tuple. *)
Theorem X25_flat_tuple_roundtrip (typestr id : jsstring) (els : list gtype)
        (vs : list value) (bytes : buffer)
        (Hty : parseType typestr = Ok (TTuple id els))
        (Hvar : is_fixed (TTuple id els) = false)
        (Hfits : flat_fits els vs = true)
        (Hser : serialize typestr (VSeq vs) = Ok bytes)
        (Hsmall : blength bytes <= 0xFF) :
  parse typestr bytes = Ok (VSeq vs).
Proof.
  apply (tuple_roundtrip typestr id els vs bytes Hty Hvar); [|exact Hser | exact Hsmall].
  intros wv p. apply flat_fits_elements. exact Hfits.
Qed.

Lemma X25_flat_tuple_roundtrip_witness :
  serialize (str "(sis)") (VSeq [VStr (str "ab"); VNum (-3); VStr (str "c")])
  = Ok [x61; x62; x00; x00; xfd; xff; xff; xff; x63; x00; x03]
  /\ parse (str "(sis)") [x61; x62; x00; x00; xfd; xff; xff; xff; x63; x00; x03]
     = Ok (VSeq [VStr (str "ab"); VNum (-3); VStr (str "c")]).
Proof.
  assert (Hser : serialize (str "(sis)")
                           (VSeq [VStr (str "ab"); VNum (-3); VStr (str "c")])
                 = Ok [x61; x62; x00; x00; xfd; xff; xff; xff; x63; x00; x03])
    by (vm_compute; reflexivity).
  split; [exact Hser|].
  apply (X25_flat_tuple_roundtrip
           (str "(sis)") (str "(sis)")
           [TString (str "s"); TInt32; TString (str "s")]
           [VStr (str "ab"); VNum (-3); VStr (str "c")]).
  - vm_compute. reflexivity.
  - reflexivity.
  - reflexivity.
  - exact Hser.
  - vm_compute. discriminate.
Defined.

(** ** Dict-entries with texts, written and read back *)

Lemma element_back_frame (wv : jsstring -> value -> buffer -> result buffer)
      (p : jsstring -> buffer -> result value) (el : gtype) (v : value) :
  element_back wv p el v ->
  forall buf,
    Z.rem (blength buf) (alignment el) = 0 ->
    exists bytes,
      write wv el v buf = Ok (buf ++ bytes)
      /\ (is_fixed el = true -> blength bytes = fixed el)
      /\ forall rest,
          read p el (buf ++ bytes ++ rest) (blength buf) (blength buf + blength bytes)
          = Ok v.
Proof.
  unfold element_back. intros Hel buf Hbuf. destruct (is_fixed el).
  - destruct (Hel buf Hbuf) as (b & Hw & Hl & Hr). exists b.
    split; [exact Hw|]. split; [intros _; exact Hl|].
    intros rest. rewrite Hl. apply Hr.
  - destruct (Hel buf Hbuf) as (b & Hw & Hr). exists b.
    split; [exact Hw|]. split; [discriminate | exact Hr].
Qed.

(** A dict-entry of variable size whose key and value are each read back
    where they are written is read back from its serialization, when that
    takes at most 255 bytes. *)
Lemma dict_entry_roundtrip (typestr id : jsstring) (k x : gtype) (vk vx : value)
      (bytes : buffer) :
  parseType typestr = Ok (TDictEntry id k x) ->
  is_fixed (TDictEntry id k x) = false ->
  (forall wv p, element_back wv p k vk /\ element_back wv p x vx) ->
  serialize typestr (VSeq [vk; vx]) = Ok bytes ->
  blength bytes <= 0xFF ->
  parse typestr bytes = Ok (VSeq [vk; vx]).
Proof.
  intros Hty Hfix Hels Hser Hsmall.
  pose proof (alignment_range k) as Hark. pose proof (alignment_range x) as Harx.
  rewrite parse_unfold, Hty. cbn [bind read]. rewrite Hfix. cbn [andb].
  generalize (parse_fuel (length bytes)). intros p.
  destruct (Hels (write_value (variant_depth (VSeq [vk; vx]))) p) as [Hk Hx].
  destruct (element_back_frame _ _ k vk Hk []) as (bk & Hwk & Hlk & Hrk).
  { apply Z.rem_0_l. lia. }
  cbn [app] in Hwk, Hrk. change (blength []) with 0 in Hrk.
  destruct (dynamic_align_aligned bk (alignment x) ltac:(lia))
    as (pad & Hpad & Hpl & Hpa).
  destruct (element_back_frame _ _ x vx Hx (bk ++ pad) Hpa) as (bx & Hwx & Hlx & Hrx).
  assert (Hnn : 0 <= blength bk /\ 0 <= blength pad /\ 0 <= blength bx)
    by (unfold blength; lia).
  unfold serialize in Hser. rewrite Hty in Hser.
  cbn [bind write index_value nth_error] in Hser.
  unfold DynamicBuffer.length, DynamicBuffer.new in Hser.
  change (blength []) with 0 in Hser.
  rewrite Hwk in Hser. cbn [bind] in Hser. rewrite Hpad, Hwx in Hser. cbn [bind] in Hser.
  destruct (offsetInfo_defined bytes 0 (blength bytes) 1) as (o & Ho & Hsize).
  { unfold spec_cell_width.
    replace (blength bytes - 0 <=? 0xFF) with true by (symmetry; apply Z.leb_le; lia).
    reflexivity. }
  rewrite Ho. cbn [bind].
  destruct (is_fixed k) eqn:Hfk; cbn [negb] in Hser.
  - (* the key has a fixed size: no offset *)
    cbn [bind] in Hser. unfold DynamicBuffer.toBuffer in Hser. injection Hser as <-.
    cbn [bind]. rewrite <- (Hlk eq_refl). rewrite Z.add_0_l.
    specialize (Hrk (pad ++ bx)). rewrite Z.add_0_l in Hrk.
    rewrite <- !app_assoc. rewrite Hrk. cbn [bind].
    specialize (Hrx []). rewrite app_nil_r in Hrx.
    rewrite <- Hpl. rewrite (app_assoc bk pad bx).
    replace (blength ((bk ++ pad) ++ bx)) with (blength (bk ++ pad) + blength bx)
      by (rewrite (blength_app (bk ++ pad) bx); reflexivity).
    rewrite Hrx. reflexivity.
  - (* the key has a variable size: its end is the one offset *)
    destruct (writeOffsets ((bk ++ pad) ++ bx) [blength bk - 0] 0
                           (blength ((bk ++ pad) ++ bx))) as [buf| | |] eqn:Hwo;
      try discriminate Hser.
    cbn [bind] in Hser. unfold DynamicBuffer.toBuffer in Hser. injection Hser as ->.
    pose proof Hwo as Hwo'. rewrite writeOffsets_width in Hwo'.
    destruct (spec_cell_width (blength ((bk ++ pad) ++ bx) - 0)) as [w|] eqn:Ew;
      [|discriminate Hwo'].
    assert (Hbytes : ((bk ++ pad) ++ bx) ++ cells w [blength bk - 0] = bytes)
      by (injection Hwo' as H; exact H).
    pose proof (spec_cell_width_pos _ _ Ew) as Hwpos.
    assert (Hbl : blength bytes = blength ((bk ++ pad) ++ bx) + w * 1).
    { rewrite <- Hbytes, blength_cells, Z2Nat.id by lia. reflexivity. }
    assert (Hbody : blength ((bk ++ pad) ++ bx) = blength bk + blength pad + blength bx)
      by (rewrite !blength_app; reflexivity).
    assert (Hw1 : w = 1).
    { unfold spec_cell_width in Ew.
      replace (blength ((bk ++ pad) ++ bx) - 0 <=? 0xFF) with true in Ew
        by (symmetry; apply Z.leb_le; lia).
      injection Ew as <-. reflexivity. }
    subst w.
    replace (-1) with (Z.of_nat 0 - Z.of_nat (length [blength bk - 0])) by reflexivity.
    rewrite (offset_table_read ((bk ++ pad) ++ bx) bytes [blength bk - 0] 0 o 0 Hwo Ho);
      [|rewrite Hbl, Hsize; reflexivity | cbn [length]; lia | cbn [nth]; lia].
    cbn [nth bind]. rewrite Hsize.
    replace (0 + (blength bk - 0)) with (0 + blength bk) by lia.
    rewrite <- Hbytes.
    specialize (Hrk (pad ++ bx ++ cells 1 [blength bk - 0])).
    replace (((bk ++ pad) ++ bx) ++ cells 1 [blength bk - 0])
      with (bk ++ pad ++ bx ++ cells 1 [blength bk - 0])
      by (rewrite <- !app_assoc; reflexivity).
    rewrite Hrk. cbn [bind].
    specialize (Hrx (cells 1 [blength bk - 0])).
    replace (bk ++ pad ++ bx ++ cells 1 [blength bk - 0])
      with ((bk ++ pad) ++ bx ++ cells 1 [blength bk - 0])
      by (rewrite <- !app_assoc; reflexivity).
    rewrite Z.add_0_l, <- Hpl.
    replace (blength ((bk ++ pad) ++ bx ++ cells 1 [blength bk - 0]) - 1)
      with (blength (bk ++ pad) + blength bx).
    + rewrite Hrx. reflexivity.
    + rewrite (app_assoc (bk ++ pad) bx), Hbytes, Hbl, (blength_app (bk ++ pad) bx). lia.
Qed.

(** X26.  [serialize] followed by [parse] is the identity on the
    dict-entries of texts and fixed-size values whose serialization takes
    at most 255 bytes: for a dict-entry signature without fixed size, whose
    key and value are each a text (without unpaired surrogate or U+0000) or
    a value that fits a fixed-size type of at most 0xFFFFFFFF bytes in
    which no empty tuple occurs, what [serialize] returns is parsed back
    to the pair. *)
Theorem X26_flat_dict_entry_roundtrip (typestr id : jsstring) (k x : gtype)
        (vk vx : value) (bytes : buffer)
        (Hty : parseType typestr = Ok (TDictEntry id k x))
        (Hvar : is_fixed (TDictEntry id k x) = false)
        (Hfits : flat_fits [k; x] [vk; vx] = true)
        (Hser : serialize typestr (VSeq [vk; vx]) = Ok bytes)
        (Hsmall : blength bytes <= 0xFF) :
  parse typestr bytes = Ok (VSeq [vk; vx]).
Proof.
  apply (dict_entry_roundtrip typestr id k x vk vx bytes Hty Hvar);
    [|exact Hser | exact Hsmall].
  intros wv p. pose proof (flat_fits_elements wv p [k; x] [vk; vx] Hfits) as H.
  inversion H as [|? ? ? ? Hk Hrest]; subst.
  inversion Hrest as [|? ? ? ? Hx _]; subst.
  split; assumption.
Qed.

Lemma X26_flat_dict_entry_roundtrip_witness :
  serialize (str "{sq}") (VSeq [VStr (str "key"); VNum 513])
  = Ok [x6b; x65; x79; x00; x01; x02; x04]
  /\ parse (str "{sq}") [x6b; x65; x79; x00; x01; x02; x04]
     = Ok (VSeq [VStr (str "key"); VNum 513]).
Proof.
  assert (Hser : serialize (str "{sq}") (VSeq [VStr (str "key"); VNum 513])
                 = Ok [x6b; x65; x79; x00; x01; x02; x04])
    by (vm_compute; reflexivity).
  split; [exact Hser|].
  apply (X26_flat_dict_entry_roundtrip
           (str "{sq}") (str "{sq}") (TString (str "s")) TUInt16
           (VStr (str "key")) (VNum 513)).
  - vm_compute. reflexivity.
  - reflexivity.
  - reflexivity.
  - exact Hser.
  - vm_compute. discriminate.
Defined.
